(** * ImageColorizer: colorization by optimization ([src/Colorize.h])

    A shallow embedding of namespace [co] of [Colorize.h] and the
    properties of its pipeline.

    Conventions of the embedding.
    - [int] and [unsigned long] values are integers of [Z].  The source
      computes [i * ncols + j] in [int]; signed overflow is undefined in C++,
      so the model covers grids whose pixel count fits an [int], where that
      arithmetic is exact.
    - [double] values are real numbers of [R]: the theorems on weights and on
      the linear system are statements of exact arithmetic.  Where the
      machine parts from that reading (an [int] product that overflows, an
      exponential that underflows, an [assert] that fails), the section on
      machine arithmetic gives the 32-bit and the binary64 reading.
    - [std::vector<T>] is [list T]; [v[k]] is [nth] (the source never reads
      out of range on a well-formed grid).
    - A loop is a [fold_left] over the list of values its index takes, with
      the loop body as the step function. *)

From Stdlib Require Import String QArith Qround ZArith List Bool Lia Reals Lra.
From Stdlib Require Import Floats Uint63.
Import ListNotations.

Open Scope Z_scope.

(** ** Loops *)

(** The values taken by [for (x = lo; x < hi; ++x)]. *)
Definition range (lo hi : Z) : list Z :=
  map (fun k => lo + Z.of_nat k) (seq 0 (Z.to_nat (hi - lo))).

(** ** Pixel indices *)

(** [r = i * ncols + j] (lines 83 and 163). *)
Definition flatIndex (ncols i j : Z) : Z := i * ncols + j.

Definition inGrid (nrows ncols i j : Z) : Prop :=
  0 <= i < nrows /\ 0 <= j < ncols.

(** ** getNeighbours (lines 70-87) *)

(** The [continue] test of line 80. *)
Definition skipped (i j nrows ncols dx dy : Z) : bool :=
  let m := i + dy in
  let n := j + dx in
  ((dx =? 0) && (dy =? 0)) || (m <? 0) || (n <? 0) || (m >=? nrows) || (n >=? ncols).

(** Body of the inner loop: lines 78-84. *)
Definition neighbourStep (i j nrows ncols dx : Z) (neighbors : list Z) (dy : Z) : list Z :=
  let m := i + dy in
  let n := j + dx in
  if skipped i j nrows ncols dx dy then neighbors
  else neighbors ++ [m * ncols + n].

Definition getNeighbours (i j nrows ncols : Z) : list Z :=
  fold_left
    (fun neighbors dx =>
       fold_left (neighbourStep i j nrows ncols dx) (range (-1) 2) neighbors)
    (range (-1) 2) [].

(** What one position [(dx, dy)] of the window contributes. *)
Definition cell (i j nrows ncols dx dy : Z) : list Z :=
  if skipped i j nrows ncols dx dy then [] else [(i + dy) * ncols + (j + dx)].

(** The offsets [(dx, dy)] in the order the two loops visit them. *)
Definition window : list (Z * Z) :=
  flat_map (fun dx => map (fun dy => (dx, dy)) (range (-1) 2)) (range (-1) 2).

(** Interior and border pixels of a grid. *)
Definition isInterior (nrows ncols i j : Z) : Prop :=
  1 <= i /\ i + 1 < nrows /\ 1 <= j /\ j + 1 < ncols.

Definition isBorder (nrows ncols i j : Z) : Prop :=
  inGrid nrows ncols i j /\ (i = 0 \/ i = nrows - 1 \/ j = 0 \/ j = ncols - 1).

(** ** Images *)

(** [cv::Mat] with elements of type [T]: the header fields [rows] and [cols]
    and the rows of data, [ptr(i)] being the [i]-th of them.  A pixel of a
    3-channel image is a triple of channel values. *)
Record Mat (T : Type) : Type := mkMat {
  rows : Z;
  cols : Z;
  ptr : list (list T)
}.
Arguments mkMat {T} _ _ _.
Arguments rows {T} _.
Arguments cols {T} _.
Arguments ptr {T} _.

Definition Pixel (T : Type) : Type := (T * T * T)%type.

(** The header of a matrix agrees with its data. *)
Definition wellFormed {T : Type} (m : Mat T) : Prop :=
  Z.of_nat (length (ptr m)) = rows m /\
  Forall (fun row => Z.of_nat (length row) = cols m) (ptr m).

Definition rowAt {T : Type} (m : Mat T) (i : Z) : list T :=
  nth (Z.to_nat i) (ptr m) [].

Definition mapMat {S T : Type} (f : S -> T) (m : Mat S) : Mat T :=
  mkMat (rows m) (cols m) (map (map f) (ptr m)).

(** Element-wise operation on two matrices of the same size; the result has
    the header of the first. *)
Definition zipMat {S T U : Type} (f : S -> T -> U) (a : Mat S) (b : Mat T) : Mat U :=
  mkMat (rows a) (cols a)
        (map (fun rs => map (fun p => f (fst p) (snd p)) (combine (fst rs) (snd rs)))
             (combine (ptr a) (ptr b))).

(** [to1D] (lines 37-50): the first [ncols] elements of every row, appended
    in row order.  The counter [total] is never read. *)
Definition to1D {T : Type} (m : Mat T) : list T :=
  let ncols := cols m in
  fold_left (fun v i => v ++ firstn (Z.to_nat ncols) (rowAt m i)) (range 0 (rows m)) [].

(** [to1D] into a [std::vector<bool>]: a mask byte is true when it is not 0. *)
Definition to1D_bool (m : Mat Z) : list bool :=
  to1D (mapMat (fun b => negb (b =? 0)) m).

(** ** The mask extractor (lines 19-29) *)

(** Modelled from the spec: the OpenCV primitives [saturate_cast<uchar>],
    [cv::absdiff], [cv::split], matrix addition, [cv::threshold] and
    [cv::erode] used by [getScribbleMask] are not part of the sources; they
    are the operations of section 4.1 on 8-bit images. *)
Definition saturate_uchar (z : Z) : Z := Z.max 0 (Z.min 255 z).

(** Modelled from the spec: [cv::absdiff], the absolute per-channel
    difference of two 8-bit images of the same size. *)
Definition absdiff (a b : Mat (Pixel Z)) : Mat (Pixel Z) :=
  zipMat (fun p q =>
            match p, q with
            | (p0, p1, p2), (q0, q1, q2) =>
                (saturate_uchar (Z.abs (p0 - q0)),
                 saturate_uchar (Z.abs (p1 - q1)),
                 saturate_uchar (Z.abs (p2 - q2)))
            end) a b.

(** Modelled from the spec: [cv::split], the three channel planes. *)
Definition split {T : Type} (m : Mat (Pixel T)) : Mat T * Mat T * Mat T :=
  (mapMat (fun p => fst (fst p)) m, mapMat (fun p => snd (fst p)) m, mapMat (fun p => snd p) m).

(** Modelled from the spec: [+] on 8-bit matrices, the saturated sum. *)
Definition addMat (a b : Mat Z) : Mat Z :=
  zipMat (fun x y => saturate_uchar (x + y)) a b.

(** Modelled from the spec: [cv::threshold] with [THRESH_BINARY] on an 8-bit
    matrix: [maxval] where the value exceeds the threshold, 0 elsewhere. *)
Definition threshold_binary (m : Mat Z) (thresh : Q) (maxval : Z) : Mat Z :=
  mapMat (fun x => if Qfloor thresh <? x then saturate_uchar maxval else 0) m.

(** The value at row [i], column [j]. *)
Definition pixelAt (m : Mat Z) (i j : Z) : Z := nth (Z.to_nat j) (rowAt m i) 0.

(** The positions of the 3x3 structuring element around [(i, j)] that lie in
    the image. *)
Definition inImage (m : Mat Z) (p : Z * Z) : bool :=
  (0 <=? fst p) && (fst p <? rows m) && (0 <=? snd p) && (snd p <? cols m).

Definition elementAt (m : Mat Z) (i j : Z) : list (Z * Z) :=
  filter (inImage m)
         (flat_map (fun dy => map (fun dx => (i + dy, j + dx)) (range (-1) 2)) (range (-1) 2)).

(** Modelled from the spec: one [cv::erode] with the default 3x3 element, the
    minimum over the element; positions outside the image do not lower it. *)
Definition erodeOnce (m : Mat Z) : Mat Z :=
  mkMat (rows m) (cols m)
        (map (fun i =>
                map (fun j =>
                       fold_left Z.min (map (fun p => pixelAt m (fst p) (snd p)) (elementAt m i j)) 255)
                    (range 0 (cols m)))
             (range 0 (rows m))).

(** Modelled from the spec: [cv::erode] applied [iterations] times. *)
Definition erode (m : Mat Z) (iterations : nat) : Mat Z :=
  Nat.iter iterations erodeOnce m.

(** [getScribbleMask] (lines 19-29).  [nErosions] counts erosions and is
    taken in [nat]. *)
Definition getScribbleMask (image scribbles : Mat (Pixel Z)) (eps : Q) (nErosions : nat) : Mat Z :=
  let diff := absdiff image scribbles in
  let channels := split diff in
  let mask := addMat (addMat (fst (fst channels)) (snd (fst channels))) (snd channels) in
  let mask := threshold_binary mask eps 255 in
  let mask := erode mask nErosions in
  mask.

(** The defaults of [eps] and [nErosions]. *)
Definition getScribbleMask_eps : Q := 1.
Definition getScribbleMask_nErosions : nat := 1.

(** No pixel of the mask is constrained. *)
Definition allFalse (mask : Mat Z) : Prop :=
  Forall (Forall (fun b => b = 0)) (ptr mask).

(** ** The affinity weight engine (lines 31-35, 52-68, 89-119) *)

Section WeightEngine.
Local Open Scope R_scope.

(** [X[k]] on a [std::vector<double>]. *)
Definition vget (X : list R) (k : Z) : R := nth (Z.to_nat k) X 0.

(** Sum of a vector, first element outermost. *)
Definition Rsum (l : list R) : R := fold_right Rplus 0 l.

Definition squaredDifference (X : list R) (r s : Z) : R :=
  (vget X r - vget X s) * (vget X r - vget X s).

(** The default of [variance]'s second parameter. *)
Definition eps_default : R := 1 / 100.

(** The loop of lines 57-61: the pair [(sum, squaredSum)]. *)
Definition varianceSums (vals : list R) : R * R :=
  fold_left (fun acc v => (fst acc + v, snd acc + v * v)) vals (0, 0).

(** Lines 66-67.  The two [assert]s of lines 63-64 do not change the value
    returned; their conditions are [varianceAsserts]. *)
Definition variance (vals : list R) (eps : R) : R :=
  let sum := fst (varianceSums vals) in
  let squaredSum := snd (varianceSums vals) in
  let n := INR (length vals) in
  squaredSum / n - (sum * sum) / (n * n) + eps.

Definition varianceAsserts (vals : list R) : Prop :=
  fst (varianceSums vals) >= 0 /\ snd (varianceSums vals) >= 0.

(** First loop of [getWeights] (lines 99-104): the squared differences, held in
    [neighborsWeights], and [neighborsValues] with [values[r]] pushed last. *)
Definition weightInputs (values : list R) (r : Z) (neighbors : list Z) : list R * list R :=
  let st :=
    fold_left
      (fun st s => (fst st ++ [squaredDifference values r s], snd st ++ [vget values s]))
      neighbors ([], []) in
  (fst st, snd st ++ [vget values r]).

(** [var] of line 106. *)
Definition localVariance (values : list R) (r : Z) (neighbors : list Z) : R :=
  variance (snd (weightInputs values r neighbors)) eps_default.

(** Second loop (lines 108-112): each entry is replaced by its kernel value and
    added to [normalizer]. *)
Definition kernelPass (gamma var : R) (neighborsWeights : list R) : list R * R :=
  fold_left
    (fun st w => let w' := exp (- gamma * w / (2 * var)) in (fst st ++ [w'], snd st + w'))
    neighborsWeights ([], 0).

(** The weights before normalisation and the normalizer. *)
Definition kernelWeights (values : list R) (r : Z) (neighbors : list Z) (gamma : R) : list R * R :=
  kernelPass gamma (localVariance values r neighbors) (fst (weightInputs values r neighbors)).

(** Third loop (lines 114-118) and the result left in [neighborsWeights].  The
    [assert] of line 117 is [weightsAssert]. *)
Definition getWeights (values : list R) (r : Z) (neighbors : list Z) (gamma : R) : list R :=
  let st := kernelWeights values r neighbors gamma in
  fold_left (fun done w => done ++ [w / snd st]) (fst st) [].

Definition weightsAssert (values : list R) (r : Z) (neighbors : list Z) (gamma : R) : Prop :=
  Forall (fun w => w >= 0) (getWeights values r neighbors gamma).

(** *** The statistics of the specification *)

Definition mean (X : list R) : R := Rsum X / INR (length X).

(** Population variance, [E[X^2] - E[X]^2]. *)
Definition populationVariance (X : list R) : R :=
  mean (map (fun x => x * x) X) - mean X * mean X.

(** The sample of a pixel: its own luminance and that of its neighbours. *)
Definition sample (Y : list R) (r : Z) (neighbors : list Z) : list R :=
  vget Y r :: map (vget Y) neighbors.

Definition sigma2 (Y : list R) (r : Z) (neighbors : list Z) : R :=
  populationVariance (sample Y r neighbors) + 1 / 100.

Definition affinity (Y : list R) (gamma : R) (r : Z) (neighbors : list Z) (s : Z) : R :=
  exp (- gamma * ((vget Y r - vget Y s) * (vget Y r - vget Y s))
       / (2 * sigma2 Y r neighbors)).

End WeightEngine.

(** ** The linear system (lines 121-186) *)

Section Assembler.
Local Open Scope R_scope.

(** [Eigen::Triplet<double>]. *)
Record Triplet : Type := TD { row : Z; col : Z; value : R }.

(** [Eigen::SparseMatrix<double>]: its size and the triplets it was set from.
    [setFromTriplets] sums the triplets of one position, so the coefficient
    at [(r, c)] is [coeff]; the position is stored when a triplet names it. *)
Record SparseMatrix : Type := mkSparse {
  nRows : Z;
  nCols : Z;
  entries : list Triplet
}.

Definition at_position (r c : Z) (t : Triplet) : bool :=
  ((row t =? r) && (col t =? c))%Z.

Definition coeff (M : SparseMatrix) (r c : Z) : R :=
  Rsum (map value (filter (at_position r c) (entries M))).

Definition stored (M : SparseMatrix) (r c : Z) : Prop :=
  exists t, In t (entries M) /\ row t = r /\ col t = c.

(** [b(r) += x] on an [Eigen::VectorXd]. *)
Fixpoint addAtNat (b : list R) (k : nat) (x : R) : list R :=
  match b, k with
  | [], _ => []
  | y :: b', O => (y + x) :: b'
  | y :: b', S k' => y :: addAtNat b' k' x
  end.

Definition addAt (b : list R) (r : Z) (x : R) : list R := addAtNat b (Z.to_nat r) x.

(** The variables the loops of [setupProblem] update. *)
Record Assembly : Type := mkAssembly {
  coefficients : list Triplet;
  bu : list R;
  bv : list R
}.

(** Body of the loop over [k] (lines 169-180). *)
Definition neighbourEntry (u v : list R) (hasColor : list bool) (r : Z)
  (neighbors : list Z) (weights : list R) (st : Assembly) (k : nat) : Assembly :=
  let s := nth k neighbors 0%Z in
  let w := nth k weights 0 in
  if nth (Z.to_nat s) hasColor false
  then mkAssembly (coefficients st) (addAt (bu st) r (w * vget u s)) (addAt (bv st) r (w * vget v s))
  else mkAssembly (coefficients st ++ [TD r s (- w)]) (bu st) (bv st).

(** Body of the loop over [j] (lines 163-181). *)
Definition pixelStep (nrows ncols : Z) (y u v : list R) (hasColor : list bool) (gamma : R)
  (i : Z) (st : Assembly) (j : Z) : Assembly :=
  let r := (i * ncols + j)%Z in
  let neighbors := getNeighbours i j nrows ncols in
  let weights := getWeights y r neighbors gamma in
  let st := mkAssembly (coefficients st ++ [TD r r 1]) (bu st) (bv st) in
  fold_left (neighbourEntry u v hasColor r neighbors weights) (seq 0 (length neighbors)) st.

(** Lines 127-137 and 159-185 on the flattened planes. *)
Definition assemble (nrows ncols : Z) (y u v : list R) (hasColor : list bool) (gamma : R) : Assembly :=
  let nPixels := (nrows * ncols)%Z in
  let st := mkAssembly [] (repeat 0 (Z.to_nat nPixels)) (repeat 0 (Z.to_nat nPixels)) in
  fold_left
    (fun st i => fold_left (pixelStep nrows ncols y u v hasColor gamma i) (range 0 ncols) st)
    (range 0 nrows) st.

(** [A], [bu] and [bv] as [setupProblem] leaves them. *)
Record LinearSystem : Type := mkSystem {
  sysA : SparseMatrix;
  sysBu : list R;
  sysBv : list R
}.

(** The sum the loop over [k] leaves in [b(r)], starting from [b0]. *)
Definition rhsSum (x : list R) (hasColor : list bool) (neighbors : list Z) (weights : list R) (b0 : R) : R :=
  fold_left
    (fun acc sw => if nth (Z.to_nat (fst sw)) hasColor false
                   then acc + snd sw * vget x (fst sw) else acc)
    (combine neighbors weights) b0.

(** The sum of the coefficients of row [r] off the diagonal. *)
Definition offDiagonalSum (M : SparseMatrix) (r : Z) : R :=
  Rsum (map (coeff M r) (filter (fun c => negb (c =? r)%Z) (range 0 (nCols M)))).

(** *** The loops, pixel by pixel *)

(** The body of the loop over [k] on the pair [(neighbors[k], weights[k])]. *)
Definition entryStep (u v : list R) (hasColor : list bool) (r : Z)
  (st : Assembly) (sw : Z * R) : Assembly :=
  let s := fst sw in
  let w := snd sw in
  if nth (Z.to_nat s) hasColor false
  then mkAssembly (coefficients st) (addAt (bu st) r (w * vget u s)) (addAt (bv st) r (w * vget v s))
  else mkAssembly (coefficients st ++ [TD r s (- w)]) (bu st) (bv st).

(** The triplets the loop over [k] pushes for pixel [r]. *)
Definition rowTriplets (hasColor : list bool) (r : Z) (pairs : list (Z * R)) : list Triplet :=
  flat_map (fun sw => if nth (Z.to_nat (fst sw)) hasColor false
                      then [] else [TD r (fst sw) (- snd sw)]) pairs.

(** The neighbours of pixel [(i, j)], each with its weight. *)
Definition weightedNeighbours (nrows ncols : Z) (y : list R) (gamma : R) (i j : Z) : list (Z * R) :=
  let neighbors := getNeighbours i j nrows ncols in
  combine neighbors (getWeights y (flatIndex ncols i j) neighbors gamma).

(** All the triplets pushed for pixel [(i, j)]. *)
Definition pixelTriplets (nrows ncols : Z) (y : list R) (hasColor : list bool) (gamma : R)
  (p : Z * Z) : list Triplet :=
  let r := flatIndex ncols (fst p) (snd p) in
  TD r r 1 :: rowTriplets hasColor r (weightedNeighbours nrows ncols y gamma (fst p) (snd p)).

(** [A] after lines 130 and 185. *)
Definition assembledMatrix (nrows ncols : Z) (y u v : list R) (hasColor : list bool) (gamma : R)
  : SparseMatrix :=
  mkSparse (nrows * ncols) (nrows * ncols)
           (coefficients (assemble nrows ncols y u v hasColor gamma)).

(** The pixels in the order the two loops visit them. *)
Definition gridPixels (nrows ncols : Z) : list (Z * Z) :=
  flat_map (fun i => map (fun j => (i, j)) (range 0 ncols)) (range 0 nrows).

End Assembler.

(** ** The pipeline (lines 188-243) *)

(** [Eigen::ComputationInfo]. *)
Inductive ComputationInfo : Type :=
| Success
| NumericalIssue
| NoConvergence
| InvalidInput.

Definition isSuccess (c : ComputationInfo) : bool :=
  match c with Success => true | _ => false end.

Inductive ColorConversionCode : Type :=
| COLOR_BGR2YUV
| COLOR_YUV2BGR.

(** What a call leaves its caller with: a value, or a [std::runtime_error]. *)
Inductive Outcome (T : Type) : Type :=
| Returned (x : T)
| Thrown (what : string).
Arguments Returned {T} _.
Arguments Thrown {T} _.

(** [cv::merge] of three planes of the same size.  OpenCV checks that the
    sizes agree; this definition does not: on planes that differ it keeps
    the header of the first over the elements that all three hold, so it
    says nothing of the size of the image [colorize] returns. *)
Definition merge {T : Type} (c0 c1 c2 : Mat T) : Mat (Pixel T) :=
  zipMat (fun p z => (fst p, snd p, z)) (zipMat (fun x y => (x, y)) c0 c1) c2.

(** [eigen2opencv] (lines 188-192): the vector seen as [nrows] rows of
    [ncols] values. *)
Definition eigen2opencv (v : list R) (nrows ncols : Z) : Mat R :=
  mkMat nrows ncols
        (map (fun i => firstn (Z.to_nat ncols) (skipn (Z.to_nat (i * ncols)) v)) (range 0 nrows)).

Section Pipeline.

(** The colour conversion of OpenCV, the narrowing of a [double] to an 8-bit
    value, and the BiCGSTAB solver of Eigen with its diagonal preconditioner
    are outside the sources.  The solver is an object: [compute] prepares it
    for a matrix, [solve] returns the solution and the solver after the
    call, and [info] reads the status the last call left. *)
Variable cvtColor : ColorConversionCode -> Mat (Pixel Z) -> Mat (Pixel Z).
Variable saturate_cast_uchar : R -> Z.
Variable Solver : Type.
Variable compute : SparseMatrix -> Solver.
Variable solve : Solver -> list R -> list R * Solver.
Variable info : Solver -> ComputationInfo.

(** [convertTo(CV_64FC3)] of an 8-bit image. *)
Definition convertTo64F (m : Mat (Pixel Z)) : Mat (Pixel R) :=
  mapMat (fun p => (IZR (fst (fst p)), IZR (snd (fst p)), IZR (snd p))) m.

(** [convertTo(CV_8UC3)]. *)
Definition convertTo8U (m : Mat (Pixel R)) : Mat (Pixel Z) :=
  mapMat (fun p => (saturate_cast_uchar (fst (fst p)),
                    saturate_cast_uchar (snd (fst p)),
                    saturate_cast_uchar (snd p))) m.

(** The flattened chrominance planes of the scribbles (lines 139-151). *)
Definition scribblesU (scribbles : Mat (Pixel Z)) : list R :=
  to1D (snd (fst (split (convertTo64F (cvtColor COLOR_BGR2YUV scribbles))))).

Definition scribblesV (scribbles : Mat (Pixel Z)) : list R :=
  to1D (snd (split (convertTo64F (cvtColor COLOR_BGR2YUV scribbles)))).

Definition setupProblem (Y : Mat R) (scribbles : Mat (Pixel Z)) (mask : Mat Z) (gamma : R)
  : LinearSystem :=
  let nrows := rows Y in
  let ncols := cols Y in
  let nPixels := nrows * ncols in
  let y := to1D Y in
  let u := scribblesU scribbles in
  let v := scribblesV scribbles in
  let hasColor := to1D_bool mask in
  let st := assemble nrows ncols y u v hasColor gamma in
  mkSystem (mkSparse nPixels nPixels (coefficients st)) (bu st) (bv st).

(** The luminance plane of [colorize] (lines 196-202). *)
Definition luminance (image : Mat (Pixel Z)) : Mat R :=
  fst (fst (split (convertTo64F (cvtColor COLOR_BGR2YUV image)))).

(** [colorize] (lines 194-243).  The log lines are left out. *)
Definition colorize (image scribbles : Mat (Pixel Z)) (mask : Mat Z) (gamma : R)
  : Outcome (Mat (Pixel Z)) :=
  let Y := luminance image in
  let sys := setupProblem Y scribbles mask gamma in
  let solver := compute (sysA sys) in
  let (U, solver) := solve solver (sysBu sys) in
  if negb (isSuccess (info solver)) then Thrown "Failed to solve for U channel."
  else
    let (V, solver) := solve solver (sysBv sys) in
    if negb (isSuccess (info solver)) then Thrown "Failed to solve for V channel."
    else
      let nrows := rows Y in
      let ncols := cols Y in
      let mU := eigen2opencv U nrows ncols in
      let mV := eigen2opencv V nrows ncols in
      let colorImage := merge Y mU mV in
      let colorImage := convertTo8U colorImage in
      Returned (cvtColor COLOR_YUV2BGR colorImage).

(** The default of [gamma]. *)
Definition colorize_gamma : R := 2%R.

End Pipeline.

(** ** Notions used by the further properties *)

(** The element at row [i], column [j] of a matrix; [d] out of range. *)
Definition matAt {T : Type} (d : T) (m : Mat T) (i j : Z) : T :=
  nth (Z.to_nat j) (rowAt m i) d.

Definition sameSize {S T : Type} (a : Mat S) (b : Mat T) : Prop :=
  rows a = rows b /\ cols a = cols b.

(** Every value of the mask is 0 or 255. *)
Definition binaryMask (m : Mat Z) : Prop :=
  Forall (Forall (fun x => x = 0 \/ x = 255)) (ptr m).

(** The mean of the squared deviations from the mean. *)
Definition meanSquaredDeviation (X : list R) : R :=
  mean (map (fun x => ((x - mean X) * (x - mean X))%R) X).

(** The per-channel absolute difference of two pixels, as [absdiff] takes
    it, the saturated sum of the three channels, and the value the threshold
    gives to a sum. *)
Definition pixelDiff (p q : Pixel Z) : Pixel Z :=
  match p, q with
  | (p0, p1, p2), (q0, q1, q2) =>
      (saturate_uchar (Z.abs (p0 - q0)),
       saturate_uchar (Z.abs (p1 - q1)),
       saturate_uchar (Z.abs (p2 - q2)))
  end.

Definition channelSum (d : Pixel Z) : Z :=
  saturate_uchar (saturate_uchar (fst (fst d) + snd (fst d)) + snd d).

Definition thresholdValue (eps : Q) (x : Z) : Z :=
  if Qfloor eps <? x then saturate_uchar 255 else 0.

(** The mask before the erosions. *)
Definition rawMask (image scribbles : Mat (Pixel Z)) (eps : Q) : Mat Z :=
  mapMat (fun d => thresholdValue eps (channelSum d)) (zipMat pixelDiff image scribbles).

(** The weights of the neighbours of a pixel whose mask is true, and of
    those whose mask is false. *)
Definition constrainedPairs (hasColor : list bool) (pairs : list (Z * R)) : list (Z * R) :=
  filter (fun sw => nth (Z.to_nat (fst sw)) hasColor false) pairs.

Definition freePairs (hasColor : list bool) (pairs : list (Z * R)) : list (Z * R) :=
  filter (fun sw => negb (nth (Z.to_nat (fst sw)) hasColor false)) pairs.

(** ** Machine arithmetic

    The definitions above take [int] in [Z] and [double] in [R].  The ones
    below follow the machine: [int] results reduced to 32 bits, [double] as
    binary64 with the assertions of the source, so that the inputs on which
    the two readings part can be told. *)

(** *** 32-bit [int] *)

Definition INT_MAX : Z := 2147483647.

(** An [int] result kept to 32 bits, two's complement. *)
Definition wrap_int (z : Z) : Z := (z + 2147483648) mod 4294967296 - 2147483648.

(** The conversion of an [int] to [unsigned long]. *)
Definition to_ulong (z : Z) : Z := z mod 18446744073709551616.

(** Lines 78-84 with [m], [n] and [m * ncols + n] computed in [int] and the
    index converted to [T = unsigned long], as [setupProblem] instantiates
    it. *)
Definition neighbourStep_int (i j nrows ncols dx : Z) (neighbors : list Z) (dy : Z) : list Z :=
  let m := wrap_int (i + dy) in
  let n := wrap_int (j + dx) in
  if ((dx =? 0) && (dy =? 0)) || (m <? 0) || (n <? 0) || (m >=? nrows) || (n >=? ncols)
  then neighbors
  else neighbors ++ [to_ulong (wrap_int (wrap_int (m * ncols) + n))].

Definition getNeighbours_int (i j nrows ncols : Z) : list Z :=
  fold_left
    (fun neighbors dx =>
       fold_left (neighbourStep_int i j nrows ncols dx) (range (-1) 2) neighbors)
    (range (-1) 2) [].

(** *** Assertions *)

(** A call that runs to its end, or stops at an [assert] that fails. *)
Inductive Run (T : Type) : Type :=
| Done (x : T)
| AssertionFailed.
Arguments Done {T} _.
Arguments AssertionFailed {T}.

Section Checked.
Local Open Scope R_scope.

(** The luminance of an 8-bit image, and the values of [gamma] for which no
    kernel of a 3x3 window can underflow: the argument of [exp] is then at
    least [- 9 * 75 = - 675], and [exp (- 675)] is a normal binary64 number. *)
Definition isLuminance (y : list R) : Prop := Forall (fun v => 0 <= v <= 255) y.

Definition gamma_max : R := 75.

Definition safeGamma (gamma : R) : Prop := 0 < gamma <= gamma_max.

(** The arguments [- gamma * w / (2 * var)] that line 110 passes to [exp]. *)
Definition kernelArguments (values : list R) (r : Z) (neighbors : list Z) (gamma : R) : list R :=
  map (fun w => - gamma * w / (2 * localVariance values r neighbors))
      (fst (weightInputs values r neighbors)).

(** [variance] with the assertions of lines 63-64. *)
Definition variance_checked (vals : list R) (eps : R) : Run R :=
  if Rge_dec (fst (varianceSums vals)) 0 then
    if Rge_dec (snd (varianceSums vals)) 0 then Done (variance vals eps)
    else AssertionFailed
  else AssertionFailed.

(** [getWeights] with the assertions of [variance] and of line 117. *)
Definition getWeights_checked (values : list R) (r : Z) (neighbors : list Z) (gamma : R)
  : Run (list R) :=
  match variance_checked (snd (weightInputs values r neighbors)) eps_default with
  | AssertionFailed => AssertionFailed
  | Done _ =>
      if Forall_dec (fun w => w >= 0) (fun w => Rge_dec w 0)
                    (getWeights values r neighbors gamma)
      then Done (getWeights values r neighbors gamma)
      else AssertionFailed
  end.

(** The weights of a pixel are computed in the regime of the model: no
    assertion fails and no argument of [exp] lies below -675. *)
Definition weightsComputed (values : list R) (r : Z) (neighbors : list Z) (gamma : R) : Prop :=
  getWeights_checked values r neighbors gamma = Done (getWeights values r neighbors gamma) /\
  Forall (fun a => - 675 <= a <= 0) (kernelArguments values r neighbors gamma).

End Checked.

(** *** binary64 *)

Section Binary64.
Local Open Scope float_scope.

(** [std::exp] on [double] is outside the sources.  [NDEBUG] tells whether
    the assertions are compiled out. *)
Variable exp_d : float -> float.
Variable NDEBUG : bool.

(** What is known of [std::exp] far below 0: the result underflows to 0. *)
Definition underflows (f : float -> float) : Prop :=
  forall x, (x <=? -746) = true -> f x = 0.

(** The conversion of a size or of an 8-bit value to [double]. *)
Definition double_of_Z (z : Z) : float := PrimFloat.of_uint63 (Uint63.of_Z z).

Definition vget_d (X : list float) (k : Z) : float := nth (Z.to_nat k) X 0.

Definition squaredDifference_d (X : list float) (r s : Z) : float :=
  (vget_d X r - vget_d X s) * (vget_d X r - vget_d X s).

(** [0.01], the default of [eps], as the nearest [double]. *)
Definition eps_d : float := 0x1.47ae147ae147bp-7.

Definition varianceSums_d (vals : list float) : float * float :=
  fold_left (fun acc v => (fst acc + v, snd acc + v * v)) vals (0, 0).

(** [variance] (lines 52-68). *)
Definition variance_d (vals : list float) (eps : float) : Run float :=
  let sum := fst (varianceSums_d vals) in
  let squaredSum := snd (varianceSums_d vals) in
  if NDEBUG || (0 <=? sum) then
    if NDEBUG || (0 <=? squaredSum) then
      let n := double_of_Z (Z.of_nat (length vals)) in
      Done (squaredSum / n - (sum * sum) / (n * n) + eps)
    else AssertionFailed
  else AssertionFailed.

(** The third loop of [getWeights] (lines 114-118). *)
Definition normalizeStep_d (normalizer : float) (done : Run (list float)) (w : float)
  : Run (list float) :=
  match done with
  | AssertionFailed => AssertionFailed
  | Done ws =>
      let w := w / normalizer in
      if NDEBUG || (0 <=? w) then Done (ws ++ [w]) else AssertionFailed
  end.

(** [getWeights] (lines 89-119). *)
Definition getWeights_d (values : list float) (r : Z) (neighbors : list Z) (gamma : float)
  : Run (list float) :=
  let st :=
    fold_left
      (fun st s => (fst st ++ [squaredDifference_d values r s], snd st ++ [vget_d values s]))
      neighbors ([], []) in
  let neighborsValues := snd st ++ [vget_d values r] in
  match variance_d neighborsValues eps_d with
  | AssertionFailed => AssertionFailed
  | Done var =>
      let st2 :=
        fold_left
          (fun st w => let w' := exp_d (- gamma * w / (2 * var)) in (fst st ++ [w'], snd st + w'))
          (fst st) ([], 0) in
      fold_left (normalizeStep_d (snd st2)) (fst st2) (Done [])
  end.

End Binary64.

(** Whether [variance] returns exactly [eps_d] on [n] copies of the 8-bit
    value [c]. *)
Definition flatVarianceCheck (NDEBUG : bool) (c : Z) (n : nat) : bool :=
  match variance_d NDEBUG (repeat (double_of_Z c) n) eps_d with
  | Done v => PrimFloat.Leibniz.eqb v eps_d
  | AssertionFailed => false
  end.

(** * Properties *)

(** ** Neighbours *)

Lemma range_window : range (-1) 2 = [-1; 0; 1].
Proof. reflexivity. Qed.

(** The centre of a 3x3 grid: the columns of the window from left to right,
    each from top to bottom. *)
Example getNeighbours_centre : getNeighbours 1 1 3 3 = [0; 3; 6; 1; 7; 2; 5; 8].
Proof. reflexivity. Qed.

Example getNeighbours_corner : getNeighbours 0 0 3 3 = [3; 1; 4].
Proof. reflexivity. Qed.

Example getNeighbours_single : getNeighbours 0 0 1 1 = [].
Proof. reflexivity. Qed.

Lemma In_range (lo hi x : Z) : In x (range lo hi) <-> lo <= x < hi.
Proof.
  unfold range. rewrite in_map_iff. split.
  - intros [k [<- Hk]]. apply in_seq in Hk. lia.
  - intros H. exists (Z.to_nat (x - lo)). split; [lia|].
    apply in_seq. lia.
Qed.

Lemma fold_left_ext {A B : Type} (f g : A -> B -> A) (l : list B) (a : A) :
  (forall a b, f a b = g a b) -> fold_left f l a = fold_left g l a.
Proof.
  intros H. revert a. induction l as [|b l IH]; intros a; simpl; [reflexivity|].
  now rewrite H, IH.
Qed.

Lemma inner_loop_cells (i j nrows ncols dx : Z) (l : list Z) (acc : list Z) :
  fold_left (neighbourStep i j nrows ncols dx) l acc
  = acc ++ flat_map (cell i j nrows ncols dx) l.
Proof.
  revert acc. induction l as [|dy l IH]; intros acc; simpl.
  - now rewrite app_nil_r.
  - rewrite IH. unfold neighbourStep, cell.
    destruct (skipped i j nrows ncols dx dy); simpl; [reflexivity|].
    now rewrite <- app_assoc.
Qed.

Lemma outer_loop_cells {A B : Type} (g : A -> list B) (l : list A) (acc : list B) :
  fold_left (fun acc x => acc ++ g x) l acc = acc ++ flat_map g l.
Proof.
  revert acc. induction l as [|x l IH]; intros acc; simpl.
  - now rewrite app_nil_r.
  - rewrite IH. now rewrite <- app_assoc.
Qed.

(** The two nested loops concatenate the contributions of the window. *)
Lemma getNeighbours_cells (i j nrows ncols : Z) :
  getNeighbours i j nrows ncols
  = flat_map (fun dx => flat_map (cell i j nrows ncols dx) (range (-1) 2)) (range (-1) 2).
Proof.
  unfold getNeighbours.
  rewrite (fold_left_ext _
             (fun neighbors dx => neighbors ++ flat_map (cell i j nrows ncols dx) (range (-1) 2))).
  - now rewrite outer_loop_cells.
  - intros acc dx. apply inner_loop_cells.
Qed.

Lemma skipped_false (i j nrows ncols dx dy : Z) :
  skipped i j nrows ncols dx dy = false
  <-> ~ (dx = 0 /\ dy = 0) /\ 0 <= i + dy < nrows /\ 0 <= j + dx < ncols.
Proof.
  unfold skipped. rewrite !orb_false_iff, andb_false_iff.
  rewrite !Z.eqb_neq, !Z.ltb_ge, !Z.geb_leb, !Z.leb_gt. lia.
Qed.

Lemma In_getNeighbours (i j nrows ncols s : Z) :
  In s (getNeighbours i j nrows ncols)
  <-> exists dx dy, -1 <= dx <= 1 /\ -1 <= dy <= 1 /\ ~ (dx = 0 /\ dy = 0)
                    /\ 0 <= i + dy < nrows /\ 0 <= j + dx < ncols
                    /\ s = flatIndex ncols (i + dy) (j + dx).
Proof.
  rewrite getNeighbours_cells, in_flat_map. unfold flatIndex. split.
  - intros [dx [Hdx H]]. apply in_flat_map in H. destruct H as [dy [Hdy H]].
    apply In_range in Hdx, Hdy. unfold cell in H.
    destruct (skipped i j nrows ncols dx dy) eqn:E; [contradiction|].
    apply skipped_false in E. destruct H as [<-|[]].
    exists dx, dy. intuition lia.
  - intros [dx [dy (Hdx & Hdy & Hc & Hm & Hn & ->)]].
    exists dx. split; [apply In_range; lia|].
    apply in_flat_map. exists dy. split; [apply In_range; lia|].
    unfold cell. replace (skipped i j nrows ncols dx dy) with false; [now left|].
    symmetry. apply skipped_false. tauto.
Qed.

(** Row-major flattening is injective on columns in range. *)
Lemma flatIndex_inj (ncols m n m' n' : Z) :
  0 <= n < ncols -> 0 <= n' < ncols ->
  flatIndex ncols m n = flatIndex ncols m' n' -> m = m' /\ n = n'.
Proof.
  unfold flatIndex. intros Hn Hn' H.
  assert (m = m') by nia. subst. lia.
Qed.

Lemma flatIndex_range (nrows ncols i j : Z) :
  inGrid nrows ncols i j -> 0 <= flatIndex ncols i j < nrows * ncols.
Proof. unfold inGrid, flatIndex. intros [Hi Hj]. nia. Qed.

Lemma cells_window (i j nrows ncols : Z) (l1 l2 : list Z) :
  flat_map (fun dx => flat_map (cell i j nrows ncols dx) l2) l1
  = map (fun d => flatIndex ncols (i + snd d) (j + fst d))
        (filter (fun d => negb (skipped i j nrows ncols (fst d) (snd d)))
                (flat_map (fun dx => map (fun dy => (dx, dy)) l2) l1)).
Proof.
  induction l1 as [|dx l1 IH]; simpl; [reflexivity|].
  rewrite filter_app, map_app, IH. f_equal.
  clear IH. induction l2 as [|dy l2 IH]; simpl; [reflexivity|].
  unfold cell at 1.
  destruct (skipped i j nrows ncols dx dy); simpl; now rewrite IH.
Qed.

Lemma getNeighbours_window (i j nrows ncols : Z) :
  getNeighbours i j nrows ncols
  = map (fun d => flatIndex ncols (i + snd d) (j + fst d))
        (filter (fun d => negb (skipped i j nrows ncols (fst d) (snd d))) window).
Proof. rewrite getNeighbours_cells. apply cells_window. Qed.

Lemma NoDup_window : NoDup window.
Proof.
  unfold window. rewrite range_window. cbn [flat_map map app].
  repeat (constructor; [cbn [In]; intuition congruence|]).
  constructor.
Qed.

(** No position is listed twice. *)
Lemma NoDup_getNeighbours (i j nrows ncols : Z) :
  NoDup (getNeighbours i j nrows ncols).
Proof.
  rewrite getNeighbours_window.
  apply NoDup_map_NoDup_ForallPairs.
  - intros d d' Hd Hd' E.
    apply filter_In in Hd, Hd'.
    destruct Hd as [_ Hd], Hd' as [_ Hd'].
    apply negb_true_iff, skipped_false in Hd, Hd'.
    apply flatIndex_inj in E; [|lia|lia].
    destruct d, d'; cbn [fst snd] in *. f_equal; lia.
  - apply NoDup_filter, NoDup_window.
Qed.

Ltac split_cmp :=
  repeat match goal with
         | |- context [Z.ltb ?a ?b] => destruct (Z.ltb_spec a b); try lia
         | |- context [Z.leb ?a ?b] => destruct (Z.leb_spec a b); try lia
         end.

(** The number of neighbours is the number of rows of the window that lie in
    the grid times the number of its columns that do, less the centre. *)
Lemma length_getNeighbours (i j nrows ncols : Z) :
  inGrid nrows ncols i j ->
  Z.of_nat (length (getNeighbours i j nrows ncols))
  = ((if i =? 0 then 0 else 1) + 1 + (if i =? nrows - 1 then 0 else 1))
    * ((if j =? 0 then 0 else 1) + 1 + (if j =? ncols - 1 then 0 else 1)) - 1.
Proof.
  intros [Hi Hj].
  rewrite getNeighbours_cells, range_window.
  cbn [flat_map app]. unfold cell, skipped.
  cbn [Z.eqb andb orb Pos.eqb]. rewrite !Z.geb_leb.
  destruct (Z.eqb_spec i 0), (Z.eqb_spec i (nrows - 1)),
    (Z.eqb_spec j 0), (Z.eqb_spec j (ncols - 1));
    split_cmp; reflexivity.
Qed.

(** A grid position is listed for [(i, j)] exactly when it is another
    position of the 3x3 window around [(i, j)]. *)
Lemma In_getNeighbours_grid (nrows ncols i j m n : Z) :
  inGrid nrows ncols m n ->
  In (flatIndex ncols m n) (getNeighbours i j nrows ncols)
  <-> -1 <= m - i <= 1 /\ -1 <= n - j <= 1 /\ ~ (m = i /\ n = j).
Proof.
  intros [Hm Hn]. rewrite In_getNeighbours. split.
  - intros [dx [dy (Hdx & Hdy & Hc & Hm' & Hn' & E)]].
    apply flatIndex_inj in E; [|lia|lia]. lia.
  - intros (H1 & H2 & H3). exists (n - j), (m - i).
    replace (i + (m - i)) with m by lia.
    replace (j + (n - j)) with n by lia.
    repeat split; try lia.
Qed.

(** C6 as stated fails on a grid of one row: the middle pixel of a 1x3 grid
    lies on the border and has 2 neighbours, neither 3 nor 5. *)
Lemma C6_border_count_counterexample :
  isBorder 1 3 0 1 /\
  getNeighbours 0 1 1 3 = [0; 2] /\
  length (getNeighbours 0 1 1 3) <> 3%nat /\
  length (getNeighbours 0 1 1 3) <> 5%nat.
Proof.
  split; [unfold isBorder, inGrid; lia|].
  split; [reflexivity|].
  split; cbv; discriminate.
Qed.

(** C6 (amended): for every pixel [(i, j)] of the grid, the neighbour list
    holds exactly the positions of the 3x3 window around it that lie in the
    grid, the centre left out, each once; the pixel is not its own neighbour;
    an interior pixel has 8 neighbours; a border pixel has fewer than 8, and 3
    or 5 when the grid has at least two rows and two columns. *)
Theorem C6_neighbour_set (nrows ncols i j : Z) :
  inGrid nrows ncols i j ->
  let N := getNeighbours i j nrows ncols in
  (forall s, In s N <->
             exists m n, inGrid nrows ncols m n /\
                         -1 <= m - i <= 1 /\ -1 <= n - j <= 1 /\
                         ~ (m = i /\ n = j) /\ s = flatIndex ncols m n) /\
  NoDup N /\
  ~ In (flatIndex ncols i j) N /\
  (isInterior nrows ncols i j -> length N = 8%nat) /\
  (isBorder nrows ncols i j -> (length N < 8)%nat) /\
  (isBorder nrows ncols i j -> 2 <= nrows -> 2 <= ncols ->
   length N = 3%nat \/ length N = 5%nat).
Proof.
  intros Hg N. pose proof (length_getNeighbours i j nrows ncols Hg) as HL.
  fold N in HL. destruct Hg as [Hi Hj].
  split; [|split; [|split; [|split; [|split]]]].
  - intros s. unfold N. rewrite In_getNeighbours. split.
    + intros [dx [dy (Hdx & Hdy & Hc & Hm & Hn & ->)]].
      exists (i + dy), (j + dx). unfold inGrid. repeat split; try lia.
    + intros [m [n ([Hm Hn] & H1 & H2 & H3 & ->)]].
      exists (n - j), (m - i).
      replace (i + (m - i)) with m by lia.
      replace (j + (n - j)) with n by lia.
      repeat split; try lia.
  - apply NoDup_getNeighbours.
  - unfold N. rewrite In_getNeighbours_grid by (split; assumption). lia.
  - intros (H1 & H2 & H3 & H4).
    destruct (Z.eqb_spec i 0), (Z.eqb_spec i (nrows - 1)),
      (Z.eqb_spec j 0), (Z.eqb_spec j (ncols - 1)); lia.
  - intros [_ Hb].
    destruct (Z.eqb_spec i 0), (Z.eqb_spec i (nrows - 1)),
      (Z.eqb_spec j 0), (Z.eqb_spec j (ncols - 1)); lia.
  - intros [_ Hb] Hr Hc.
    destruct (Z.eqb_spec i 0), (Z.eqb_spec i (nrows - 1)),
      (Z.eqb_spec j 0), (Z.eqb_spec j (ncols - 1)); lia.
Qed.

Lemma C6_neighbour_set_witness :
  (inGrid 3 3 1 1 /\ isInterior 3 3 1 1 /\
   length (getNeighbours 1 1 3 3) = 8%nat /\
   ~ In (flatIndex 3 1 1) (getNeighbours 1 1 3 3)) /\
  (inGrid 3 3 0 0 /\ isBorder 3 3 0 0 /\
   (length (getNeighbours 0 0 3 3) = 3%nat \/ length (getNeighbours 0 0 3 3) = 5%nat)).
Proof.
  assert (Hg : inGrid 3 3 1 1) by (unfold inGrid; lia).
  assert (Hi : isInterior 3 3 1 1) by (unfold isInterior; lia).
  assert (Hg0 : inGrid 3 3 0 0) by (unfold inGrid; lia).
  assert (Hb : isBorder 3 3 0 0) by (split; [exact Hg0 | now left]).
  split.
  - split; [exact Hg|]. split; [exact Hi|].
    destruct (C6_neighbour_set 3 3 1 1 Hg) as (_ & _ & Hself & Hint & _).
    split; [exact (Hint Hi) | exact Hself].
  - split; [exact Hg0|]. split; [exact Hb|].
    destruct (C6_neighbour_set 3 3 0 0 Hg0) as (_ & _ & _ & _ & _ & Hcount).
    apply (Hcount Hb); lia.
Defined.

(** The neighbour relation is symmetric on the pixels of a grid. *)
Lemma getNeighbours_sym (nrows ncols i j i' j' : Z) :
  inGrid nrows ncols i j -> inGrid nrows ncols i' j' ->
  In (flatIndex ncols i' j') (getNeighbours i j nrows ncols)
  <-> In (flatIndex ncols i j) (getNeighbours i' j' nrows ncols).
Proof.
  intros H H'. rewrite !In_getNeighbours_grid by assumption. lia.
Qed.

Lemma getNeighbours_inGrid (nrows ncols i j s : Z) :
  In s (getNeighbours i j nrows ncols) ->
  exists m n, inGrid nrows ncols m n /\ s = flatIndex ncols m n.
Proof.
  rewrite In_getNeighbours.
  intros [dx [dy (Hdx & Hdy & Hc & Hm & Hn & ->)]].
  exists (i + dy), (j + dx). split; [split; assumption|reflexivity].
Qed.

(** ** Weights *)

Section WeightEngineFacts.
Local Open Scope R_scope.

Lemma fold_left_snoc {A B : Type} (f : A -> B) (l : list A) (acc : list B) :
  fold_left (fun done x => done ++ [f x]) l acc = acc ++ map f l.
Proof.
  revert acc. induction l as [|x l IH]; intros acc; simpl.
  - now rewrite app_nil_r.
  - rewrite IH. now rewrite <- app_assoc.
Qed.

Lemma Rsum_app (l1 l2 : list R) : Rsum (l1 ++ l2) = Rsum l1 + Rsum l2.
Proof. induction l1 as [|x l1 IH]; simpl; [ring | rewrite IH; ring]. Qed.

Lemma varianceSums_from (vals : list R) (a b : R) :
  fold_left (fun acc v => (fst acc + v, snd acc + v * v)) vals (a, b)
  = (a + Rsum vals, b + Rsum (map (fun x => x * x) vals)).
Proof.
  revert a b. induction vals as [|v vals IH]; intros a b; simpl.
  - f_equal; ring.
  - rewrite IH. f_equal; ring.
Qed.

Lemma varianceSums_eq (vals : list R) :
  varianceSums vals = (Rsum vals, Rsum (map (fun x => x * x) vals)).
Proof. unfold varianceSums. rewrite varianceSums_from. f_equal; ring. Qed.

Lemma weightInputs_from (values : list R) (r : Z) (neighbors : list Z) (a b : list R) :
  fold_left
    (fun st s => (fst st ++ [squaredDifference values r s], snd st ++ [vget values s]))
    neighbors (a, b)
  = (a ++ map (squaredDifference values r) neighbors, b ++ map (vget values) neighbors).
Proof.
  revert a b. induction neighbors as [|s l IH]; intros a b; simpl.
  - now rewrite !app_nil_r.
  - rewrite IH. now rewrite <- !app_assoc.
Qed.

Lemma weightInputs_eq (values : list R) (r : Z) (neighbors : list Z) :
  weightInputs values r neighbors
  = (map (squaredDifference values r) neighbors,
     map (vget values) neighbors ++ [vget values r]).
Proof. unfold weightInputs. now rewrite weightInputs_from. Qed.

Lemma kernelPass_from (gamma var : R) (ws : list R) (a : list R) (n : R) :
  fold_left
    (fun st w => let w' := exp (- gamma * w / (2 * var)) in (fst st ++ [w'], snd st + w'))
    ws (a, n)
  = (a ++ map (fun w => exp (- gamma * w / (2 * var))) ws,
     n + Rsum (map (fun w => exp (- gamma * w / (2 * var))) ws)).
Proof.
  revert a n. induction ws as [|w ws IH]; intros a n; simpl.
  - rewrite app_nil_r. f_equal. ring.
  - rewrite IH. cbn [fst snd]. rewrite <- app_assoc. f_equal. ring.
Qed.

Lemma kernelPass_eq (gamma var : R) (ws : list R) :
  kernelPass gamma var ws
  = (map (fun w => exp (- gamma * w / (2 * var))) ws,
     Rsum (map (fun w => exp (- gamma * w / (2 * var))) ws)).
Proof. unfold kernelPass. rewrite kernelPass_from. f_equal. ring. Qed.

(** The normalizer is the sum of the weights it divides. *)
Lemma kernelWeights_normalizer (values : list R) (r : Z) (neighbors : list Z) (gamma : R) :
  snd (kernelWeights values r neighbors gamma)
  = Rsum (fst (kernelWeights values r neighbors gamma)).
Proof. unfold kernelWeights. now rewrite kernelPass_eq. Qed.

Lemma getWeights_eq (values : list R) (r : Z) (neighbors : list Z) (gamma : R) :
  getWeights values r neighbors gamma
  = map (fun w => w / snd (kernelWeights values r neighbors gamma))
        (fst (kernelWeights values r neighbors gamma)).
Proof. unfold getWeights. now rewrite fold_left_snoc. Qed.

Lemma length_kernelWeights (values : list R) (r : Z) (neighbors : list Z) (gamma : R) :
  length (fst (kernelWeights values r neighbors gamma)) = length neighbors.
Proof.
  unfold kernelWeights. rewrite kernelPass_eq, weightInputs_eq. cbn [fst].
  now rewrite !length_map.
Qed.

Lemma length_getWeights (values : list R) (r : Z) (neighbors : list Z) (gamma : R) :
  length (getWeights values r neighbors gamma) = length neighbors.
Proof. rewrite getWeights_eq, length_map. apply length_kernelWeights. Qed.

Lemma kernelWeights_pos (values : list R) (r : Z) (neighbors : list Z) (gamma : R) :
  Forall (fun w => 0 < w) (fst (kernelWeights values r neighbors gamma)).
Proof.
  unfold kernelWeights. rewrite kernelPass_eq. cbn [fst].
  apply Forall_forall. intros w Hw. apply in_map_iff in Hw.
  destruct Hw as [d [<- _]]. apply exp_pos.
Qed.

Lemma Rsum_pos (l : list R) : l <> [] -> Forall (fun w => 0 < w) l -> 0 < Rsum l.
Proof.
  intros Hne H. destruct l as [|x l]; [congruence|]. clear Hne.
  revert x H. induction l as [|y l IH]; intros x H; inversion H; subst; simpl.
  - lra.
  - specialize (IH y H3). simpl in IH. lra.
Qed.

Lemma Rsum_map_div (l : list R) (d : R) :
  Rsum (map (fun w => w / d) l) = Rsum l / d.
Proof.
  induction l as [|x l IH]; simpl.
  - unfold Rdiv. ring.
  - rewrite IH. unfold Rdiv. ring.
Qed.

Lemma normalizer_pos (values : list R) (r : Z) (neighbors : list Z) (gamma : R) :
  neighbors <> [] -> 0 < snd (kernelWeights values r neighbors gamma).
Proof.
  intros Hne. rewrite kernelWeights_normalizer. apply Rsum_pos.
  - intros E. apply (f_equal (@length R)) in E.
    rewrite length_kernelWeights in E. destruct neighbors; [congruence|discriminate].
  - apply kernelWeights_pos.
Qed.

Lemma getWeights_nonneg (values : list R) (r : Z) (neighbors : list Z) (gamma : R) :
  Forall (fun w => 0 <= w) (getWeights values r neighbors gamma).
Proof.
  destruct neighbors as [|s l] eqn:E.
  - constructor.
  - rewrite <- E. assert (Hn : neighbors <> []) by (rewrite E; discriminate).
    rewrite getWeights_eq. apply Forall_forall. intros w Hw.
    apply in_map_iff in Hw. destruct Hw as [e [<- He]].
    pose proof (kernelWeights_pos values r neighbors gamma) as Hp.
    rewrite Forall_forall in Hp. specialize (Hp e He).
    pose proof (normalizer_pos values r neighbors gamma Hn) as Hq.
    apply Rlt_le, Rdiv_lt_0_compat; assumption.
Qed.

Lemma getWeights_sum (values : list R) (r : Z) (neighbors : list Z) (gamma : R) :
  neighbors <> [] -> Rsum (getWeights values r neighbors gamma) = 1.
Proof.
  intros Hn. rewrite getWeights_eq, Rsum_map_div, <- kernelWeights_normalizer.
  pose proof (normalizer_pos values r neighbors gamma Hn).
  field. lra.
Qed.


Lemma Rsum_squares_nonneg (l : list R) : 0 <= Rsum (map (fun x => x * x) l).
Proof.
  induction l as [|x l IH]; simpl; [lra|].
  pose proof (Rle_0_sqr x) as H. unfold Rsqr in H. lra.
Qed.

(** The two assertions of [variance] hold on luminances, which are not
    negative. *)
Lemma varianceAsserts_luminance (vals : list R) :
  Forall (fun x => 0 <= x) vals -> varianceAsserts vals.
Proof.
  intros H. unfold varianceAsserts. rewrite varianceSums_eq. cbn [fst snd]. split.
  - apply Rle_ge. induction H as [|x l Hx H IH]; simpl; [lra|].
    fold (Rsum l). lra.
  - apply Rle_ge, Rsum_squares_nonneg.
Qed.

(** The sum of the squared deviations from [c], scaled by [a]. *)
Lemma Rsum_deviations (a c : R) (l : list R) :
  Rsum (map (fun x => (a * x - c) * (a * x - c)) l)
  = a * a * Rsum (map (fun x => x * x) l) - 2 * a * c * Rsum l + INR (length l) * (c * c).
Proof.
  induction l as [|x l IH].
  - simpl. ring.
  - cbn [map Rsum fold_right length]. fold (Rsum l).
    fold (Rsum (map (fun x => x * x) l)).
    fold (Rsum (map (fun x => (a * x - c) * (a * x - c)) l)).
    rewrite IH, S_INR. ring.
Qed.

Lemma Rsum_deviations_nonneg (a c : R) (l : list R) :
  0 <= Rsum (map (fun x => (a * x - c) * (a * x - c)) l).
Proof.
  induction l as [|x l IH]; simpl; [lra|].
  pose proof (Rle_0_sqr (a * x - c)) as H. unfold Rsqr in H.
  fold (Rsum (map (fun x => (a * x - c) * (a * x - c)) l)). lra.
Qed.

(** [n * sum of squares >= (sum)^2]. *)
Lemma sum_squares_bound (l : list R) :
  Rsum l * Rsum l <= INR (length l) * Rsum (map (fun x => x * x) l).
Proof.
  destruct l as [|x0 l0] eqn:E; [simpl; lra|]. rewrite <- E.
  assert (Hn : 0 < INR (length l)) by (rewrite E; apply lt_0_INR; simpl; lia).
  pose proof (Rsum_deviations (INR (length l)) (Rsum l) l) as H.
  pose proof (Rsum_deviations_nonneg (INR (length l)) (Rsum l) l) as H0.
  rewrite H in H0.
  set (n := INR (length l)) in *. set (S := Rsum l) in *.
  set (Q := Rsum (map (fun x => x * x) l)) in *.
  assert (H1 : 0 <= n * (n * Q - S * S)) by lra.
  assert (H2 : 0 <= n * Q - S * S).
  { apply Rmult_le_reg_l with (r := n); [assumption|]. lra. }
  lra.
Qed.

(** The value of [variance] is the population variance plus [eps]. *)
Lemma variance_population (vals : list R) (eps : R) :
  variance vals eps = populationVariance vals + eps.
Proof.
  unfold variance, populationVariance, mean. rewrite varianceSums_eq.
  cbn [fst snd]. rewrite length_map. unfold Rdiv. rewrite Rinv_mult. ring.
Qed.

Lemma populationVariance_nonneg (vals : list R) :
  vals <> [] -> 0 <= populationVariance vals.
Proof.
  intros Hne. unfold populationVariance, mean. rewrite length_map.
  assert (Hn : 0 < INR (length vals)).
  { destruct vals; [congruence|]. apply lt_0_INR. simpl. lia. }
  pose proof (sum_squares_bound vals) as H.
  set (n := INR (length vals)) in *. set (S := Rsum vals) in *.
  set (Q := Rsum (map (fun x => x * x) vals)) in *.
  replace (Q / n - S / n * (S / n)) with ((n * Q - S * S) / (n * n)) by (field; lra).
  apply Rmult_le_pos; [lra|].
  apply Rlt_le, Rinv_0_lt_compat. nra.
Qed.

(** [variance] never returns less than its floor. *)
Lemma variance_floor (vals : list R) (eps : R) :
  vals <> [] -> eps <= variance vals eps.
Proof.
  intros Hne. rewrite variance_population.
  pose proof (populationVariance_nonneg vals Hne). lra.
Qed.

Lemma weightInputs_nonempty (values : list R) (r : Z) (neighbors : list Z) :
  snd (weightInputs values r neighbors) <> [].
Proof.
  rewrite weightInputs_eq. cbn [snd]. intros E.
  apply (f_equal (@length R)) in E. rewrite length_app in E. simpl in E. lia.
Qed.

(** The statistics do not depend on where the pixel's own value stands. *)
Lemma populationVariance_snoc (x : R) (l : list R) :
  populationVariance (l ++ [x]) = populationVariance (x :: l).
Proof.
  unfold populationVariance, mean.
  rewrite !length_map, map_app, !Rsum_app, length_app.
  unfold Rsum. cbn [map fold_right length].
  replace (length l + 1)%nat with (S (length l)) by lia.
  unfold Rdiv. ring.
Qed.

Lemma localVariance_sigma2 (values : list R) (r : Z) (neighbors : list Z) :
  localVariance values r neighbors = sigma2 values r neighbors.
Proof.
  unfold localVariance, sigma2, sample, eps_default.
  rewrite weightInputs_eq. cbn [snd].
  now rewrite variance_population, populationVariance_snoc.
Qed.

Lemma kernelWeights_affinity (values : list R) (r : Z) (neighbors : list Z) (gamma : R) :
  fst (kernelWeights values r neighbors gamma)
  = map (affinity values gamma r neighbors) neighbors.
Proof.
  unfold kernelWeights. rewrite kernelPass_eq, weightInputs_eq. cbn [fst].
  rewrite map_map, localVariance_sigma2. reflexivity.
Qed.

(** C3: the weight of neighbour [s] before normalisation is
    [exp (- gamma * (Y[r] - Y[s])^2 / (2 * sigma2))], where [sigma2] is the
    population variance [E[X^2] - E[X]^2] of the luminances of the neighbours
    together with [Y[r]], plus 0.01; the weights returned are these values
    divided by their sum. *)
Theorem C3_weights_formula (Y : list R) (r : Z) (neighbors : list Z) (gamma : R) :
  localVariance Y r neighbors
  = populationVariance (vget Y r :: map (vget Y) neighbors) + 1 / 100 /\
  fst (kernelWeights Y r neighbors gamma)
  = map (fun s => exp (- gamma * ((vget Y r - vget Y s) * (vget Y r - vget Y s))
                       / (2 * sigma2 Y r neighbors))) neighbors /\
  getWeights Y r neighbors gamma
  = map (fun s => affinity Y gamma r neighbors s
                  / Rsum (map (affinity Y gamma r neighbors) neighbors)) neighbors.
Proof.
  split; [apply localVariance_sigma2|]. split.
  - apply kernelWeights_affinity.
  - rewrite getWeights_eq, kernelWeights_normalizer, kernelWeights_affinity.
    now rewrite map_map.
Qed.

End WeightEngineFacts.

(** ** Weights under the assertions and on the machine *)

Section CheckedWeights.
Local Open Scope R_scope.

Lemma vget_luminance (values : list R) (k : Z) :
  isLuminance values -> 0 <= vget values k <= 255.
Proof.
  intros H. unfold vget.
  destruct (nth_in_or_default (Z.to_nat k) values 0) as [Hin|E].
  - unfold isLuminance in H. rewrite Forall_forall in H. now apply H.
  - rewrite E. lra.
Qed.

Lemma sample_nonneg (values : list R) (r : Z) (neighbors : list Z) :
  isLuminance values -> Forall (fun x => 0 <= x) (snd (weightInputs values r neighbors)).
Proof.
  intros H. rewrite weightInputs_eq. cbn [snd]. apply Forall_forall. intros x Hx.
  apply in_app_or in Hx. destruct Hx as [Hx|[<-|[]]].
  - apply in_map_iff in Hx. destruct Hx as [s [<- _]]. now apply vget_luminance.
  - now apply vget_luminance.
Qed.

(** The population variance is the mean of the squared deviations. *)
Lemma populationVariance_deviation (X : list R) :
  X <> [] -> populationVariance X = meanSquaredDeviation X.
Proof.
  intros Hne.
  assert (Hn : INR (length X) <> 0).
  { destruct X; [congruence|]. apply not_0_INR. simpl. lia. }
  unfold meanSquaredDeviation, populationVariance.
  set (mu := mean X).
  rewrite (map_ext (fun x => (x - mu) * (x - mu))
                   (fun x => (1 * x - mu) * (1 * x - mu))) by (intros x; ring).
  unfold mean. rewrite !length_map, Rsum_deviations.
  assert (Hmu : Rsum X = INR (length X) * mu).
  { unfold mu, mean. field. exact Hn. }
  rewrite Hmu. field. exact Hn.
Qed.

Lemma Rsum_member_le (l : list R) (x : R) :
  Forall (fun y => 0 <= y) l -> In x l -> x <= Rsum l.
Proof.
  intros H. induction H as [|y l Hy H IH]; intros Hin; [contradiction|].
  cbn [Rsum fold_right]. fold (Rsum l).
  assert (0 <= Rsum l).
  { clear IH Hin. induction H as [|z l Hz H IH]; simpl; [lra|]. fold (Rsum l). lra. }
  destruct Hin as [->|Hin]; [lra|]. specialize (IH Hin). lra.
Qed.

(** The pixel and a neighbour are two values of the sample, so the square of
    their difference is at most twice the sum of the squared deviations. *)
Lemma squaredDifference_le_variance (Y : list R) (r s : Z) (neighbors : list Z) :
  In s neighbors ->
  squaredDifference Y r s
  <= 2 * INR (S (length neighbors)) * populationVariance (sample Y r neighbors).
Proof.
  intros Hs.
  assert (Hne : sample Y r neighbors <> []) by discriminate.
  assert (Hlen : length (sample Y r neighbors) = S (length neighbors)).
  { unfold sample. cbn [length]. now rewrite length_map. }
  assert (Hn : 0 < INR (S (length neighbors))) by (apply lt_0_INR; lia).
  rewrite (populationVariance_deviation _ Hne). unfold meanSquaredDeviation.
  set (mu := mean (sample Y r neighbors)).
  unfold mean. rewrite length_map, Hlen.
  set (dev := fun x => (x - mu) * (x - mu)).
  assert (Hsum : dev (vget Y r) + dev (vget Y s) <= Rsum (map dev (sample Y r neighbors))).
  { unfold sample. cbn [map Rsum fold_right]. fold (Rsum (map dev (map (vget Y) neighbors))).
    assert (dev (vget Y s) <= Rsum (map dev (map (vget Y) neighbors))); [|lra].
    apply Rsum_member_le.
    - apply Forall_forall. intros x Hx. apply in_map_iff in Hx. destruct Hx as [z [<- _]].
      unfold dev. pose proof (Rle_0_sqr (z - mu)) as H. unfold Rsqr in H. exact H.
    - apply in_map, in_map, Hs. }
  replace (2 * INR (S (length neighbors))
           * (Rsum (map dev (sample Y r neighbors)) / INR (S (length neighbors))))
    with (2 * Rsum (map dev (sample Y r neighbors))) by (field; lra).
  unfold squaredDifference. subst dev. cbv beta in *.
  pose proof (Rle_0_sqr ((vget Y r - mu) + (vget Y s - mu))) as Hsq. unfold Rsqr in Hsq.
  nra.
Qed.

Lemma localVariance_pos (Y : list R) (r : Z) (neighbors : list Z) :
  populationVariance (sample Y r neighbors) < localVariance Y r neighbors /\
  0 < localVariance Y r neighbors.
Proof.
  rewrite localVariance_sigma2. unfold sigma2.
  pose proof (populationVariance_nonneg (sample Y r neighbors) ltac:(discriminate)).
  lra.
Qed.

(** No argument of [exp] is positive, and none lies below [- gamma] times the
    size of the sample. *)
Lemma kernelArguments_bounds (Y : list R) (r : Z) (neighbors : list Z) (gamma : R) :
  0 <= gamma ->
  Forall (fun a => - gamma * INR (S (length neighbors)) <= a <= 0)
         (kernelArguments Y r neighbors gamma).
Proof.
  intros Hg. unfold kernelArguments. rewrite weightInputs_eq. cbn [fst]. rewrite map_map.
  apply Forall_forall. intros a Ha. apply in_map_iff in Ha. destruct Ha as [s [<- Hs]].
  pose proof (squaredDifference_le_variance Y r s neighbors Hs) as Hd.
  destruct (localVariance_pos Y r neighbors) as [Hpv Hv].
  pose proof (populationVariance_nonneg (sample Y r neighbors) ltac:(discriminate)) as Hp0.
  assert (Hn : 0 < INR (S (length neighbors))) by (apply lt_0_INR; lia).
  assert (Hd0 : 0 <= squaredDifference Y r s).
  { unfold squaredDifference.
    pose proof (Rle_0_sqr (vget Y r - vget Y s)) as H. unfold Rsqr in H. exact H. }
  set (d := squaredDifference Y r s) in *.
  set (v := localVariance Y r neighbors) in *.
  set (n := INR (S (length neighbors))) in *.
  assert (Hdv : d <= 2 * n * v) by nra.
  assert (Hiv : 0 < / (2 * v)) by (apply Rinv_0_lt_compat; lra).
  unfold Rdiv. split.
  - replace (- gamma * n) with (- gamma * (2 * n * v) * / (2 * v)) by (field; lra).
    apply Rmult_le_compat_r; [lra | nra].
  - replace 0 with (0 * / (2 * v)) by ring.
    apply Rmult_le_compat_r; [lra | nra].
Qed.

Lemma kernelWeights_arguments (Y : list R) (r : Z) (neighbors : list Z) (gamma : R) :
  fst (kernelWeights Y r neighbors gamma) = map exp (kernelArguments Y r neighbors gamma).
Proof.
  unfold kernelWeights, kernelArguments. rewrite kernelPass_eq. cbn [fst].
  now rewrite map_map.
Qed.

Lemma length_kernelArguments (Y : list R) (r : Z) (neighbors : list Z) (gamma : R) :
  length (kernelArguments Y r neighbors gamma) = length neighbors.
Proof.
  unfold kernelArguments. rewrite weightInputs_eq. cbn [fst]. now rewrite !length_map.
Qed.

(** With at most 8 neighbours and [gamma] at most [gamma_max], no argument
    of [exp] lies below -675. *)
Lemma kernelArguments_safe (Y : list R) (r : Z) (neighbors : list Z) (gamma : R) :
  (length neighbors <= 8)%nat -> safeGamma gamma ->
  Forall (fun a => - 675 <= a <= 0) (kernelArguments Y r neighbors gamma).
Proof.
  intros Hlen [Hg0 Hg]. unfold gamma_max in Hg.
  eapply Forall_impl; [|apply kernelArguments_bounds; lra].
  intros a [Ha1 Ha2]. cbv beta in *. split; [|exact Ha2].
  assert (Hn : INR (S (length neighbors)) <= 9).
  { replace 9 with (INR 9) by (simpl; lra). apply le_INR. lia. }
  assert (Hn0 : 0 < INR (S (length neighbors))) by (apply lt_0_INR; lia).
  nra.
Qed.

Lemma exp_monotone (x y : R) : x <= y -> exp x <= exp y.
Proof. intros [H | E]; [apply Rlt_le, exp_increasing, H | rewrite E; lra]. Qed.

Lemma normalizer_safe (Y : list R) (r : Z) (neighbors : list Z) (gamma : R) :
  (length neighbors <= 8)%nat -> safeGamma gamma -> neighbors <> [] ->
  exp (- 675) <= snd (kernelWeights Y r neighbors gamma).
Proof.
  intros Hlen Hg Hne. rewrite kernelWeights_normalizer, kernelWeights_arguments.
  pose proof (kernelArguments_safe Y r neighbors gamma Hlen Hg) as Hs.
  pose proof (length_kernelArguments Y r neighbors gamma) as Hl.
  destruct (kernelArguments Y r neighbors gamma) as [|a l].
  - destruct neighbors; [congruence|discriminate].
  - pose proof (Forall_inv Hs) as [Ha _].
    transitivity (exp a); [now apply exp_monotone|].
    apply Rsum_member_le; [|now left].
    apply Forall_forall. intros x Hx. apply in_map_iff in Hx. destruct Hx as [z [<- _]].
    apply Rlt_le, exp_pos.
Qed.

(** On luminances no assertion of [variance] or of [getWeights] fails. *)
Lemma getWeights_checked_luminance (values : list R) (r : Z) (neighbors : list Z) (gamma : R) :
  isLuminance values ->
  getWeights_checked values r neighbors gamma = Done (getWeights values r neighbors gamma).
Proof.
  intros Hlum. unfold getWeights_checked, variance_checked.
  destruct (varianceAsserts_luminance _ (sample_nonneg values r neighbors Hlum)) as [H1 H2].
  destruct (Rge_dec (fst (varianceSums (snd (weightInputs values r neighbors)))) 0);
    [|contradiction].
  destruct (Rge_dec (snd (varianceSums (snd (weightInputs values r neighbors)))) 0);
    [|contradiction].
  destruct (Forall_dec _ _ (getWeights values r neighbors gamma)) as [_|Hn]; [reflexivity|].
  exfalso. apply Hn. eapply Forall_impl; [|apply getWeights_nonneg].
  intros w Hw. cbv beta in Hw. lra.
Qed.

Lemma weightsComputed_safe (values : list R) (r : Z) (neighbors : list Z) (gamma : R) :
  isLuminance values -> (length neighbors <= 8)%nat -> safeGamma gamma ->
  weightsComputed values r neighbors gamma.
Proof.
  intros Hlum Hlen Hg. split.
  - now apply getWeights_checked_luminance.
  - now apply kernelArguments_safe.
Qed.

(** C9 as stated fails on luminances that are negative: the sum that
    [variance] asserts to be non-negative is -2, and [getWeights] stops there,
    before its divisions. *)
Lemma C9_negative_luminance_counterexample :
  0 < 2 /\ getWeights_checked [-1; -1] 0 [1%Z] 2 = AssertionFailed.
Proof.
  split; [lra|]. unfold getWeights_checked, variance_checked.
  destruct (Rge_dec (fst (varianceSums (snd (weightInputs [-1; -1] 0 [1%Z])))) 0) as [H|_];
    [|reflexivity].
  exfalso. rewrite weightInputs_eq, varianceSums_eq in H. unfold vget in H.
  simpl in H. lra.
Qed.

(** C9 (amended): in [getWeights], for luminances in [0, 255], at most 8
    neighbours and [0 < gamma <= 75], no assertion fails and the two divisions
    are defined: the sample of [variance] is not empty and its result is at
    least the floor 0.01, every argument of [exp] lies in [-675, 0] so that no
    kernel underflows, the normalizer of a non-empty neighbour list is at
    least [exp (-675)], hence positive, and every weight returned satisfies
    the asserted [w >= 0]. *)
Theorem C9_divisions_defined (values : list R) (r : Z) (neighbors : list Z) (gamma : R) :
  isLuminance values -> (length neighbors <= 8)%nat -> safeGamma gamma ->
  let vals := snd (weightInputs values r neighbors) in
  let var := localVariance values r neighbors in
  let normalizer := snd (kernelWeights values r neighbors gamma) in
  getWeights_checked values r neighbors gamma = Done (getWeights values r neighbors gamma) /\
  INR (length vals) <> 0 /\
  eps_default <= var /\
  2 * var <> 0 /\
  Forall (fun a => - 675 <= a <= 0) (kernelArguments values r neighbors gamma) /\
  (neighbors <> [] -> exp (- 675) <= normalizer /\ 0 < normalizer) /\
  weightsAssert values r neighbors gamma.
Proof.
  intros Hlum Hlen Hg vals var normalizer.
  pose proof (weightInputs_nonempty values r neighbors) as Hne. fold vals in Hne.
  assert (Hvar : eps_default <= var) by (apply variance_floor; exact Hne).
  split; [now apply getWeights_checked_luminance|].
  split; [destruct vals; [congruence|]; apply not_0_INR; simpl; lia|].
  split; [exact Hvar|].
  split; [unfold eps_default in Hvar; lra|].
  split; [now apply kernelArguments_safe|].
  split.
  - intros Hn. pose proof (normalizer_safe values r neighbors gamma Hlen Hg Hn) as H.
    split; [exact H|]. pose proof (exp_pos (- 675)). unfold normalizer. lra.
  - unfold weightsAssert. eapply Forall_impl; [|apply getWeights_nonneg].
    intros w Hw. cbv beta in Hw. lra.
Qed.

Lemma C9_divisions_defined_witness :
  isLuminance [0; 255; 255] /\ (length [1%Z; 2%Z] <= 8)%nat /\ safeGamma 2 /\
  [1%Z; 2%Z] <> [] /\
  getWeights_checked [0; 255; 255] 0 [1%Z; 2%Z] 2
  = Done (getWeights [0; 255; 255] 0 [1%Z; 2%Z] 2) /\
  0 < snd (kernelWeights [0; 255; 255] 0 [1%Z; 2%Z] 2).
Proof.
  assert (Hlum : isLuminance [0; 255; 255]) by (repeat constructor; lra).
  assert (Hlen : (length [1%Z; 2%Z] <= 8)%nat) by (simpl; lia).
  assert (Hg : safeGamma 2) by (unfold safeGamma, gamma_max; lra).
  assert (Hne : [1%Z; 2%Z] <> []) by discriminate.
  split; [exact Hlum|]. split; [exact Hlen|]. split; [exact Hg|]. split; [exact Hne|].
  destruct (C9_divisions_defined [0; 255; 255] 0%Z [1%Z; 2%Z] 2 Hlum Hlen Hg)
    as (Hrun & _ & _ & _ & _ & Hnorm & _).
  split; [exact Hrun | exact (proj2 (Hnorm Hne))].
Defined.

End CheckedWeights.

(** *** binary64 *)

(** On the sample of pixel 0 of the plane [[0, 255], [255, 255]] and
    [gamma = 1000] the argument of [exp] is about -2666.7. *)
Example kernel_argument_underflow :
  match variance_d true [255; 255; 255; 0]%float eps_d with
  | Done var =>
      let a := (- 1000 * squaredDifference_d [0; 255; 255; 255] 0 1 / (2 * var))%float in
      ((-2667 <=? a) && (a <=? -2666))%float
  | AssertionFailed => false
  end = true.
Proof. vm_compute. reflexivity. Qed.

(** C2 (the code at the failing input): on the 2x2 luminance plane
    [[0, 255], [255, 255]], pixel 0 and [gamma = 1000], an [exp] that
    underflows makes every kernel 0 and the normalizer 0: with the assertions
    compiled out [getWeights] returns three NaN, which are neither
    non-negative nor of sum 1, and with them the assertion [w >= 0] fails. *)
Theorem C2_underflow_breaks_weights (exp_d : float -> float) :
  underflows exp_d ->
  let Y := [0; 255; 255; 255]%float in
  let N := getNeighbours 0 0 2 2 in
  getWeights_d exp_d true Y 0 N 1000 = Done [nan; nan; nan] /\
  getWeights_d exp_d false Y 0 N 1000 = AssertionFailed.
Proof.
  intros H Y N. unfold getWeights_d, N, Y.
  replace (getNeighbours 0 0 2 2) with [2; 1; 3] by reflexivity.
  split.
  - vm_compute. rewrite !H by reflexivity. vm_compute. reflexivity.
  - vm_compute. rewrite !H by reflexivity. vm_compute. reflexivity.
Qed.

Lemma C2_underflow_breaks_weights_witness :
  let exp_d := fun x => if (x <=? -746)%float then 0%float else 1%float in
  underflows exp_d /\
  getWeights_d exp_d false [0; 255; 255; 255]%float 0 (getNeighbours 0 0 2 2) 1000
  = AssertionFailed.
Proof.
  intros exp_d.
  assert (H : underflows exp_d).
  { intros x Hx. unfold exp_d. now rewrite Hx. }
  split; [exact H | exact (proj2 (C2_underflow_breaks_weights exp_d H))].
Defined.

(** ** The mask extractor *)

(** A 3x3 block painted on a black 5x5 image: after one erosion the mask
    keeps the centre of the block. *)
Example getScribbleMask_block :
  let black := (0, 0, 0) in
  let paint := (10, 0, 0) in
  let image := mkMat 5 5 (repeat (repeat black 5) 5) in
  let painted := [black; paint; paint; paint; black] in
  let scribbles :=
    mkMat 5 5 [repeat black 5; painted; painted; painted; repeat black 5] in
  ptr (getScribbleMask image scribbles getScribbleMask_eps getScribbleMask_nErosions)
  = [[0; 0; 0; 0; 0];
     [0; 0; 0; 0; 0];
     [0; 0; 255; 0; 0];
     [0; 0; 0; 0; 0];
     [0; 0; 0; 0; 0]].
Proof. vm_compute. reflexivity. Qed.

Lemma combine_diag {T : Type} (l : list T) : combine l l = map (fun x => (x, x)) l.
Proof. induction l as [|x l IH]; simpl; [reflexivity | now rewrite IH]. Qed.

Lemma zipMat_diag {T U : Type} (f : T -> T -> U) (m : Mat T) :
  zipMat f m m = mapMat (fun x => f x x) m.
Proof.
  unfold zipMat, mapMat. f_equal.
  rewrite combine_diag, map_map. apply map_ext. intros row. cbn [fst snd].
  now rewrite combine_diag, map_map.
Qed.

Lemma mapMat_mapMat {S T U : Type} (f : S -> T) (g : T -> U) (m : Mat S) :
  mapMat g (mapMat f m) = mapMat (fun x => g (f x)) m.
Proof.
  unfold mapMat. cbn [rows cols ptr]. f_equal.
  rewrite map_map. apply map_ext. intros row. apply map_map.
Qed.

Lemma mapMat_ext {S T : Type} (f g : S -> T) (m : Mat S) :
  (forall x, f x = g x) -> mapMat f m = mapMat g m.
Proof.
  intros H. unfold mapMat. f_equal. apply map_ext. intros row.
  apply map_ext, H.
Qed.

Lemma allFalse_mapMat_zero {T : Type} (m : Mat T) : allFalse (mapMat (fun _ => 0) m).
Proof.
  unfold allFalse, mapMat. cbn [ptr]. apply Forall_forall. intros row Hrow.
  apply in_map_iff in Hrow. destruct Hrow as [row0 [<- _]].
  apply Forall_forall. intros x Hx. apply in_map_iff in Hx.
  now destruct Hx as [x0 [<- _]].
Qed.

(** Before the erosion, the mask of an image against itself is 0 everywhere
    as soon as the threshold is not negative. *)
Lemma threshold_identical (image : Mat (Pixel Z)) (eps : Q) :
  0 <= Qfloor eps ->
  let diff := absdiff image image in
  let channels := split diff in
  threshold_binary
    (addMat (addMat (fst (fst channels)) (snd (fst channels))) (snd channels)) eps 255
  = mapMat (fun _ => 0) image.
Proof.
  intros Heps. cbv zeta. unfold absdiff, split, addMat, threshold_binary.
  cbn [fst snd]. rewrite zipMat_diag, !mapMat_mapMat.
  assert (E : forall f g : Pixel Z -> Z,
             (forall p, f p = 0) -> (forall p, g p = 0) ->
             zipMat (fun x y => saturate_uchar (x + y)) (mapMat f image) (mapMat g image)
             = mapMat (fun _ => 0) image).
  { intros f g Hf Hg.
    rewrite (mapMat_ext f (fun _ => 0)), (mapMat_ext g (fun _ => 0)) by assumption.
    rewrite zipMat_diag, mapMat_mapMat. reflexivity. }
  assert (Hz : forall p q : Z, saturate_uchar (Z.abs (p - p)) = 0).
  { intros p _. rewrite Z.sub_diag. reflexivity. }
  rewrite (E _ _); [rewrite (E (fun _ => 0))| |].
  - rewrite mapMat_mapMat. apply mapMat_ext. intros p.
    destruct (Z.ltb_spec (Qfloor eps) 0); [lia|reflexivity].
  - reflexivity.
  - intros [[p0 p1] p2]. cbn [fst snd]. now apply Hz.
  - intros [[p0 p1] p2]. cbn [fst snd]. now apply Hz.
  - intros [[p0 p1] p2]. cbn [fst snd]. now apply Hz.
Qed.

Lemma rowAt_allFalse (m : Mat Z) (i : Z) : allFalse m -> Forall (fun b => b = 0) (rowAt m i).
Proof.
  intros H. unfold rowAt.
  destruct (nth_in_or_default (Z.to_nat i) (ptr m) []) as [Hin | ->].
  - unfold allFalse in H. rewrite Forall_forall in H. now apply H.
  - constructor.
Qed.

Lemma pixelAt_allFalse (m : Mat Z) (i j : Z) : allFalse m -> pixelAt m i j = 0.
Proof.
  intros H. unfold pixelAt.
  destruct (nth_in_or_default (Z.to_nat j) (rowAt m i) 0) as [Hin | E].
  - pose proof (rowAt_allFalse m i H) as Hr. rewrite Forall_forall in Hr.
    now apply Hr.
  - exact E.
Qed.

Lemma fold_min_zeros (l : list Z) (a : Z) :
  0 <= a -> l <> [] -> Forall (fun x => x = 0) l -> fold_left Z.min l a = 0.
Proof.
  intros Ha Hne H. revert a Ha Hne.
  induction H as [|x l Hx H IH]; intros a Ha Hne; [congruence|].
  subst x. cbn [fold_left]. replace (Z.min a 0) with 0 by lia.
  destruct l as [|y l]; [reflexivity|].
  apply IH; [lia|discriminate].
Qed.

Lemma elementAt_centre (m : Mat Z) (i j : Z) :
  0 <= i < rows m -> 0 <= j < cols m -> In (i, j) (elementAt m i j).
Proof.
  intros Hi Hj. unfold elementAt. apply filter_In. split.
  - apply in_flat_map. exists 0. split; [apply In_range; lia|].
    apply in_map_iff. exists 0. split; [f_equal; lia | apply In_range; lia].
  - unfold inImage. cbn [fst snd].
    apply andb_true_iff; split; [apply andb_true_iff; split; [apply andb_true_iff; split|]|];
      first [apply Z.leb_le | apply Z.ltb_lt]; lia.
Qed.

(** An erosion leaves an empty mask empty. *)
Lemma erodeOnce_allFalse (m : Mat Z) : allFalse m -> allFalse (erodeOnce m).
Proof.
  intros H. unfold allFalse, erodeOnce. cbn [ptr].
  apply Forall_forall. intros row Hrow. apply in_map_iff in Hrow.
  destruct Hrow as [i [<- Hi]]. apply In_range in Hi.
  apply Forall_forall. intros x Hx. apply in_map_iff in Hx.
  destruct Hx as [j [<- Hj]]. apply In_range in Hj.
  apply fold_min_zeros; [lia| |].
  - pose proof (elementAt_centre m i j ltac:(lia) ltac:(lia)) as Hc.
    destruct (elementAt m i j); [contradiction|discriminate].
  - apply Forall_forall. intros y Hy. apply in_map_iff in Hy.
    destruct Hy as [p [<- _]]. now apply pixelAt_allFalse.
Qed.

Lemma erode_allFalse (m : Mat Z) (n : nat) : allFalse m -> allFalse (erode m n).
Proof.
  intros H. unfold erode. induction n as [|n IH]; [exact H|].
  cbn [Nat.iter]. now apply erodeOnce_allFalse.
Qed.

(** The mask of an image against itself is empty for every threshold that
    is not negative and every number of erosions. *)
Lemma getScribbleMask_identical (image : Mat (Pixel Z)) (eps : Q) (nErosions : nat) :
  0 <= Qfloor eps -> allFalse (getScribbleMask image image eps nErosions).
Proof.
  intros Heps. unfold getScribbleMask.
  pose proof (threshold_identical image eps Heps) as E. cbv zeta in E |- *.
  rewrite E. apply erode_allFalse, allFalse_mapMat_zero.
Qed.

Lemma to1D_from {T : Type} (m : Mat T) (l : list Z) (acc : list T) :
  fold_left (fun v i => v ++ firstn (Z.to_nat (cols m)) (rowAt m i)) l acc
  = acc ++ flat_map (fun i => firstn (Z.to_nat (cols m)) (rowAt m i)) l.
Proof. apply (outer_loop_cells (fun i => firstn (Z.to_nat (cols m)) (rowAt m i))). Qed.

Lemma to1D_eq {T : Type} (m : Mat T) :
  to1D m = flat_map (fun i => firstn (Z.to_nat (cols m)) (rowAt m i)) (range 0 (rows m)).
Proof. unfold to1D. now rewrite to1D_from. Qed.

Lemma map_nth_seq {T : Type} (l : list T) (d : T) :
  map (fun k => nth k l d) (seq 0 (length l)) = l.
Proof.
  induction l as [|x l IH]; [reflexivity|].
  cbn [length seq map nth]. f_equal.
  rewrite <- seq_shift, map_map. exact IH.
Qed.

(** On a matrix whose header agrees with its data, [to1D] is the
    concatenation of the rows. *)
Lemma to1D_wellFormed {T : Type} (m : Mat T) :
  wellFormed m -> to1D m = concat (ptr m).
Proof.
  intros [Hrows Hcols]. rewrite to1D_eq, flat_map_concat_map. f_equal.
  rewrite <- Hrows. unfold range. rewrite Z.sub_0_r, Nat2Z.id, map_map.
  transitivity (map (fun k => nth k (ptr m) []) (seq 0 (length (ptr m))));
    [|apply map_nth_seq].
  apply map_ext_in. intros k Hk. apply in_seq in Hk. cbn [Z.add].
  unfold rowAt. rewrite Nat2Z.id. apply firstn_all2.
  rewrite Forall_forall in Hcols.
  assert (Hin : In (nth k (ptr m) []) (ptr m)) by (apply nth_In; lia).
  specialize (Hcols _ Hin). lia.
Qed.

Lemma In_firstn {T : Type} (n : nat) (l : list T) (x : T) :
  In x (firstn n l) -> In x l.
Proof.
  intros H. rewrite <- (firstn_skipn n l). apply in_or_app. now left.
Qed.

Lemma In_to1D {T : Type} (m : Mat T) (x : T) :
  In x (to1D m) -> exists row, In row (ptr m) /\ In x row.
Proof.
  rewrite to1D_eq, in_flat_map. intros [i [_ Hx]].
  apply In_firstn in Hx. unfold rowAt in Hx.
  destruct (nth_in_or_default (Z.to_nat i) (ptr m) []) as [Hin | E].
  - eauto.
  - rewrite E in Hx. contradiction.
Qed.

Lemma to1D_bool_allFalse (mask : Mat Z) :
  allFalse mask -> Forall (fun b => b = false) (to1D_bool mask).
Proof.
  intros H. apply Forall_forall. intros b Hb. unfold to1D_bool in Hb.
  apply In_to1D in Hb. destruct Hb as [row [Hrow Hb]].
  unfold mapMat in Hrow. cbn [ptr] in Hrow. apply in_map_iff in Hrow.
  destruct Hrow as [row0 [<- Hrow0]]. apply in_map_iff in Hb.
  destruct Hb as [x [<- Hx]].
  unfold allFalse in H. rewrite Forall_forall in H. specialize (H row0 Hrow0).
  rewrite Forall_forall in H. now rewrite (H x Hx).
Qed.

(** C7: for every image, [getScribbleMask] of the image and a scribble image
    identical to it, with the default threshold and number of erosions,
    returns a mask that is 0 at every pixel, so that no pixel is constrained. *)
Theorem C7_identical_images_empty_mask (image : Mat (Pixel Z)) :
  let mask := getScribbleMask image image getScribbleMask_eps getScribbleMask_nErosions in
  allFalse mask /\ Forall (fun b => b = false) (to1D_bool mask).
Proof.
  intros mask.
  assert (H : allFalse mask).
  { apply getScribbleMask_identical. vm_compute. discriminate. }
  split; [exact H | now apply to1D_bool_allFalse].
Qed.

(** ** The linear system *)

Section AssemblerFacts.
Local Open Scope R_scope.

(** *** Vectors *)

Lemma length_addAtNat (b : list R) (k : nat) (x : R) : length (addAtNat b k x) = length b.
Proof.
  revert k. induction b as [|y b IH]; intros k; [reflexivity|].
  destruct k; simpl; [reflexivity | now rewrite IH].
Qed.

Lemma nth_addAtNat_same (b : list R) (k : nat) (x : R) :
  (k < length b)%nat -> nth k (addAtNat b k x) 0 = nth k b 0 + x.
Proof.
  revert k. induction b as [|y b IH]; intros k Hk; [simpl in Hk; lia|].
  destruct k; simpl; [reflexivity|]. apply IH. simpl in Hk. lia.
Qed.

Lemma nth_addAtNat_other (b : list R) (k k' : nat) (x : R) :
  k <> k' -> nth k' (addAtNat b k x) 0 = nth k' b 0.
Proof.
  revert k k'. induction b as [|y b IH]; intros k k' Hk; [reflexivity|].
  destruct k, k'; simpl; try reflexivity; try congruence.
  apply IH. congruence.
Qed.

Lemma length_addAt (b : list R) (r : Z) (x : R) : length (addAt b r x) = length b.
Proof. apply length_addAtNat. Qed.

Lemma vget_addAt_same (b : list R) (r : Z) (x : R) :
  (0 <= r < Z.of_nat (length b))%Z -> vget (addAt b r x) r = vget b r + x.
Proof. intros H. unfold vget, addAt. apply nth_addAtNat_same. lia. Qed.

Lemma vget_addAt_other (b : list R) (r r' : Z) (x : R) :
  (0 <= r)%Z -> (0 <= r')%Z -> r <> r' -> vget (addAt b r x) r' = vget b r'.
Proof. intros H H' Hne. unfold vget, addAt. apply nth_addAtNat_other. lia. Qed.

Lemma vget_repeat_zero (n : nat) (r : Z) : vget (repeat 0 n) r = 0.
Proof.
  unfold vget. destruct (nth_in_or_default (Z.to_nat r) (repeat 0 n) 0) as [H|H].
  - now apply repeat_spec in H.
  - exact H.
Qed.

(** *** The loop over [k] *)

Lemma fold_left_map {A B C : Type} (f : A -> C -> A) (g : B -> C) (l : list B) (a : A) :
  fold_left f (map g l) a = fold_left (fun a x => f a (g x)) l a.
Proof. revert a. induction l as [|x l IH]; intros a; simpl; [reflexivity | apply IH]. Qed.

Lemma map_nth_seq_combine (N : list Z) (W : list R) :
  length W = length N ->
  map (fun k => (nth k N 0%Z, nth k W 0)) (seq 0 (length N)) = combine N W.
Proof.
  revert W. induction N as [|s N IH]; intros W HW; [reflexivity|].
  destruct W as [|w W]; [discriminate|].
  cbn [length seq map combine nth]. f_equal.
  rewrite <- seq_shift, map_map. cbn [nth]. apply IH.
  simpl in HW. lia.
Qed.

Lemma neighbourLoop_pairs (u v : list R) (hasColor : list bool) (r : Z)
  (N : list Z) (W : list R) (st : Assembly) :
  length W = length N ->
  fold_left (neighbourEntry u v hasColor r N W) (seq 0 (length N)) st
  = fold_left (entryStep u v hasColor r) (combine N W) st.
Proof.
  intros HW. rewrite <- (map_nth_seq_combine N W HW), fold_left_map. reflexivity.
Qed.

Lemma entryLoop_coefficients (u v : list R) (hasColor : list bool) (r : Z)
  (pairs : list (Z * R)) (st : Assembly) :
  coefficients (fold_left (entryStep u v hasColor r) pairs st)
  = coefficients st ++ rowTriplets hasColor r pairs.
Proof.
  revert st. induction pairs as [|[s w] pairs IH]; intros st; cbn [fold_left].
  - unfold rowTriplets. simpl. now rewrite app_nil_r.
  - rewrite IH. unfold entryStep, rowTriplets. cbn [fst snd flat_map].
    destruct (nth (Z.to_nat s) hasColor false); cbn [coefficients app]; [reflexivity|].
    now rewrite <- app_assoc.
Qed.

Lemma entryLoop_length (u v : list R) (hasColor : list bool) (r : Z)
  (pairs : list (Z * R)) (st : Assembly) :
  length (bu (fold_left (entryStep u v hasColor r) pairs st)) = length (bu st) /\
  length (bv (fold_left (entryStep u v hasColor r) pairs st)) = length (bv st).
Proof.
  revert st. induction pairs as [|[s w] pairs IH]; intros st; cbn [fold_left]; [tauto|].
  destruct (IH (entryStep u v hasColor r st (s, w))) as [-> ->].
  unfold entryStep. cbn [fst snd].
  destruct (nth (Z.to_nat s) hasColor false); cbn [bu bv]; rewrite ?length_addAt; tauto.
Qed.

Lemma entryLoop_other (u v : list R) (hasColor : list bool) (r r' : Z)
  (pairs : list (Z * R)) (st : Assembly) :
  (0 <= r)%Z -> (0 <= r')%Z -> r <> r' ->
  vget (bu (fold_left (entryStep u v hasColor r) pairs st)) r' = vget (bu st) r' /\
  vget (bv (fold_left (entryStep u v hasColor r) pairs st)) r' = vget (bv st) r'.
Proof.
  intros Hr Hr' Hne. revert st.
  induction pairs as [|[s w] pairs IH]; intros st; cbn [fold_left]; [tauto|].
  destruct (IH (entryStep u v hasColor r st (s, w))) as [-> ->].
  unfold entryStep. cbn [fst snd].
  destruct (nth (Z.to_nat s) hasColor false); cbn [bu bv];
    rewrite ?vget_addAt_other by assumption; tauto.
Qed.

Lemma entryLoop_same (u v : list R) (hasColor : list bool) (r : Z)
  (pairs : list (Z * R)) (st : Assembly) :
  (0 <= r < Z.of_nat (length (bu st)))%Z ->
  (0 <= r < Z.of_nat (length (bv st)))%Z ->
  vget (bu (fold_left (entryStep u v hasColor r) pairs st)) r
  = fold_left (fun acc sw => if nth (Z.to_nat (fst sw)) hasColor false
                             then acc + snd sw * vget u (fst sw) else acc)
              pairs (vget (bu st) r) /\
  vget (bv (fold_left (entryStep u v hasColor r) pairs st)) r
  = fold_left (fun acc sw => if nth (Z.to_nat (fst sw)) hasColor false
                             then acc + snd sw * vget v (fst sw) else acc)
              pairs (vget (bv st) r).
Proof.
  revert st. induction pairs as [|[s w] pairs IH]; intros st Hu Hv; cbn [fold_left]; [tauto|].
  assert (Hu' : (0 <= r < Z.of_nat (length (bu (entryStep u v hasColor r st (s, w)))))%Z).
  { unfold entryStep. cbn [fst snd].
    destruct (nth (Z.to_nat s) hasColor false); cbn [bu]; rewrite ?length_addAt; exact Hu. }
  assert (Hv' : (0 <= r < Z.of_nat (length (bv (entryStep u v hasColor r st (s, w)))))%Z).
  { unfold entryStep. cbn [fst snd].
    destruct (nth (Z.to_nat s) hasColor false); cbn [bv]; rewrite ?length_addAt; exact Hv. }
  destruct (IH _ Hu' Hv') as [-> ->].
  unfold entryStep. cbn [fst snd].
  destruct (nth (Z.to_nat s) hasColor false); cbn [bu bv];
    rewrite ?vget_addAt_same by assumption; tauto.
Qed.

Lemma entryLoop_no_colour (u v : list R) (hasColor : list bool) (r : Z)
  (pairs : list (Z * R)) (st : Assembly) :
  (forall k, nth k hasColor false = false) ->
  bu (fold_left (entryStep u v hasColor r) pairs st) = bu st /\
  bv (fold_left (entryStep u v hasColor r) pairs st) = bv st.
Proof.
  intros Hm. revert st.
  induction pairs as [|[s w] pairs IH]; intros st; cbn [fold_left]; [tauto|].
  destruct (IH (entryStep u v hasColor r st (s, w))) as [-> ->].
  unfold entryStep. cbn [fst snd]. rewrite Hm. tauto.
Qed.

(** *** The loops over the pixels *)

Section Loops.
Variables (nrows ncols : Z) (y u v : list R) (hasColor : list bool) (gamma : R).

(** One pixel: the diagonal triplet, then the loop over its neighbours. *)
Lemma pixelStep_pairs (i j : Z) (st : Assembly) :
  pixelStep nrows ncols y u v hasColor gamma i st j
  = fold_left (entryStep u v hasColor (flatIndex ncols i j))
              (weightedNeighbours nrows ncols y gamma i j)
              (mkAssembly (coefficients st ++ [TD (flatIndex ncols i j) (flatIndex ncols i j) 1])
                          (bu st) (bv st)).
Proof.
  unfold pixelStep, weightedNeighbours, flatIndex. cbv zeta.
  apply neighbourLoop_pairs, length_getWeights.
Qed.

Lemma nested_loops {A : Type} (f : Z -> A -> Z -> A) (rs cs : list Z) (a : A) :
  fold_left (fun a i => fold_left (f i) cs a) rs a
  = fold_left (fun a p => f (fst p) a (snd p)) (flat_map (fun i => map (fun j => (i, j)) cs) rs) a.
Proof.
  revert a. induction rs as [|i rs IH]; intros a; cbn [fold_left flat_map]; [reflexivity|].
  rewrite fold_left_app, fold_left_map. cbn [fst snd]. apply IH.
Qed.

Lemma assemble_pixels :
  assemble nrows ncols y u v hasColor gamma
  = fold_left (fun st p => pixelStep nrows ncols y u v hasColor gamma (fst p) st (snd p))
              (gridPixels nrows ncols)
              (mkAssembly [] (repeat 0 (Z.to_nat (nrows * ncols)))
                          (repeat 0 (Z.to_nat (nrows * ncols)))).
Proof. unfold assemble, gridPixels. cbv zeta. apply nested_loops. Qed.

Lemma pixels_coefficients (ps : list (Z * Z)) (st : Assembly) :
  coefficients
    (fold_left (fun st p => pixelStep nrows ncols y u v hasColor gamma (fst p) st (snd p)) ps st)
  = coefficients st ++ flat_map (pixelTriplets nrows ncols y hasColor gamma) ps.
Proof.
  revert st. induction ps as [|[i j] ps IH]; intros st; cbn [fold_left flat_map fst snd].
  - now rewrite app_nil_r.
  - rewrite IH, pixelStep_pairs, entryLoop_coefficients. cbn [coefficients].
    unfold pixelTriplets. cbn [fst snd]. now rewrite <- !app_assoc.
Qed.

Lemma pixels_length (ps : list (Z * Z)) (st : Assembly) :
  length (bu (fold_left (fun st p => pixelStep nrows ncols y u v hasColor gamma (fst p) st (snd p)) ps st))
  = length (bu st) /\
  length (bv (fold_left (fun st p => pixelStep nrows ncols y u v hasColor gamma (fst p) st (snd p)) ps st))
  = length (bv st).
Proof.
  revert st. induction ps as [|[i j] ps IH]; intros st; cbn [fold_left fst snd]; [tauto|].
  destruct (IH (pixelStep nrows ncols y u v hasColor gamma i st j)) as [-> ->].
  rewrite pixelStep_pairs.
  destruct (entryLoop_length u v hasColor (flatIndex ncols i j)
              (weightedNeighbours nrows ncols y gamma i j)
              (mkAssembly (coefficients st ++ [TD (flatIndex ncols i j) (flatIndex ncols i j) 1])
                          (bu st) (bv st))) as [-> ->].
  cbn [bu bv]. tauto.
Qed.

(** The pixels visited leave the entries of other rows alone. *)
Lemma pixels_other (ps : list (Z * Z)) (st : Assembly) (r : Z) :
  (0 <= r)%Z ->
  (forall p, In p ps -> (0 <= flatIndex ncols (fst p) (snd p))%Z
                        /\ flatIndex ncols (fst p) (snd p) <> r) ->
  vget (bu (fold_left (fun st p => pixelStep nrows ncols y u v hasColor gamma (fst p) st (snd p)) ps st)) r
  = vget (bu st) r /\
  vget (bv (fold_left (fun st p => pixelStep nrows ncols y u v hasColor gamma (fst p) st (snd p)) ps st)) r
  = vget (bv st) r.
Proof.
  intros Hr. revert st. induction ps as [|[i j] ps IH]; intros st Hps; cbn [fold_left fst snd]; [tauto|].
  destruct (IH (pixelStep nrows ncols y u v hasColor gamma i st j)) as [-> ->].
  { intros p Hp. apply Hps. now right. }
  rewrite pixelStep_pairs.
  destruct (Hps (i, j) (or_introl eq_refl)) as [H0 Hne]. cbn [fst snd] in H0, Hne.
  destruct (entryLoop_other u v hasColor (flatIndex ncols i j) r
              (weightedNeighbours nrows ncols y gamma i j)
              (mkAssembly (coefficients st ++ [TD (flatIndex ncols i j) (flatIndex ncols i j) 1])
                          (bu st) (bv st)) H0 Hr Hne) as [-> ->].
  cbn [bu bv]. tauto.
Qed.

(** The pixel itself adds to its row the contributions of its coloured
    neighbours. *)
Lemma pixel_same (i j : Z) (st : Assembly) :
  let r := flatIndex ncols i j in
  let N := getNeighbours i j nrows ncols in
  let W := getWeights y r N gamma in
  (0 <= r < Z.of_nat (length (bu st)))%Z ->
  (0 <= r < Z.of_nat (length (bv st)))%Z ->
  vget (bu (pixelStep nrows ncols y u v hasColor gamma i st j)) r
  = rhsSum u hasColor N W (vget (bu st) r) /\
  vget (bv (pixelStep nrows ncols y u v hasColor gamma i st j)) r
  = rhsSum v hasColor N W (vget (bv st) r).
Proof.
  intros r N W Hu Hv. rewrite pixelStep_pairs. fold r.
  destruct (entryLoop_same u v hasColor r (weightedNeighbours nrows ncols y gamma i j)
              (mkAssembly (coefficients st ++ [TD r r 1]) (bu st) (bv st)) Hu Hv) as [-> ->].
  cbn [bu bv]. split; reflexivity.
Qed.

Lemma pixels_no_colour (ps : list (Z * Z)) (st : Assembly) :
  (forall k, nth k hasColor false = false) ->
  bu (fold_left (fun st p => pixelStep nrows ncols y u v hasColor gamma (fst p) st (snd p)) ps st)
  = bu st /\
  bv (fold_left (fun st p => pixelStep nrows ncols y u v hasColor gamma (fst p) st (snd p)) ps st)
  = bv st.
Proof.
  intros Hm. revert st. induction ps as [|[i j] ps IH]; intros st; cbn [fold_left fst snd]; [tauto|].
  destruct (IH (pixelStep nrows ncols y u v hasColor gamma i st j)) as [-> ->].
  rewrite pixelStep_pairs.
  destruct (entryLoop_no_colour u v hasColor (flatIndex ncols i j)
              (weightedNeighbours nrows ncols y gamma i j)
              (mkAssembly (coefficients st ++ [TD (flatIndex ncols i j) (flatIndex ncols i j) 1])
                          (bu st) (bv st)) Hm) as [-> ->].
  cbn [bu bv]. tauto.
Qed.

(** *** The grid *)

Lemma NoDup_range (lo hi : Z) : NoDup (range lo hi).
Proof.
  unfold range. apply NoDup_map_NoDup_ForallPairs; [|apply seq_NoDup].
  intros a b _ _ E. lia.
Qed.

Lemma In_gridPixels (p : Z * Z) :
  In p (gridPixels nrows ncols) <-> inGrid nrows ncols (fst p) (snd p).
Proof.
  unfold gridPixels, inGrid. rewrite in_flat_map. split.
  - intros [i [Hi Hp]]. apply in_map_iff in Hp. destruct Hp as [j [<- Hj]].
    apply In_range in Hi, Hj. cbn [fst snd]. lia.
  - intros [Hi Hj]. exists (fst p). split; [apply In_range; lia|].
    apply in_map_iff. exists (snd p). split; [now destruct p | apply In_range; lia].
Qed.

Lemma NoDup_pairs (rs cs : list Z) :
  NoDup rs -> NoDup cs -> NoDup (flat_map (fun i => map (fun j => (i, j)) cs) rs).
Proof.
  intros Hrs Hcs. induction Hrs as [|i rs Hi Hrs IH]; cbn [flat_map]; [constructor|].
  apply NoDup_app.
  - apply NoDup_map_NoDup_ForallPairs; [|exact Hcs].
    intros a b _ _ E. congruence.
  - exact IH.
  - intros p Hp Hp'. apply in_map_iff in Hp. destruct Hp as [j [<- _]].
    apply in_flat_map in Hp'. destruct Hp' as [i' [Hi' Hp']].
    apply in_map_iff in Hp'. destruct Hp' as [j' [E _]].
    apply Hi. congruence.
Qed.

Lemma NoDup_gridPixels : NoDup (gridPixels nrows ncols).
Proof. apply NoDup_pairs; apply NoDup_range. Qed.

(** A pixel of the grid is visited once, among pixels of other indices. *)
Lemma gridPixels_split (i j : Z) :
  inGrid nrows ncols i j ->
  exists before after,
    gridPixels nrows ncols = before ++ (i, j) :: after /\
    forall p, In p (before ++ after) ->
              (0 <= flatIndex ncols (fst p) (snd p))%Z /\
              flatIndex ncols (fst p) (snd p) <> flatIndex ncols i j.
Proof.
  intros Hg. pose proof (proj2 (In_gridPixels (i, j)) Hg) as Hin.
  apply in_split in Hin. destruct Hin as [before [after E]].
  exists before, after. split; [exact E|].
  intros p Hp. pose proof NoDup_gridPixels as Hnd. rewrite E in Hnd.
  apply NoDup_remove_2 in Hnd.
  assert (Hp' : inGrid nrows ncols (fst p) (snd p)).
  { apply In_gridPixels. rewrite E. apply in_app_or in Hp. apply in_or_app.
    destruct Hp; [now left | right; now right]. }
  split.
  - pose proof (flatIndex_range _ _ _ _ Hp'). lia.
  - intros Ef. destruct Hg as [_ Hj], Hp' as [_ Hj'].
    apply flatIndex_inj in Ef; [|assumption|assumption].
    apply Hnd. destruct p. cbn [fst snd] in Ef. destruct Ef. now subst.
Qed.

End Loops.

(** *** The rows of the matrix *)

Lemma filter_none {T : Type} (f : T -> bool) (l : list T) :
  (forall x, In x l -> f x = false) -> filter f l = [].
Proof.
  induction l as [|x l IH]; intros H; [reflexivity|]. cbn [filter].
  rewrite (H x (or_introl eq_refl)). apply IH. intros z Hz. apply H. now right.
Qed.

Lemma map_fst_combine (N : list Z) (W : list R) :
  length W = length N -> map fst (combine N W) = N.
Proof.
  revert W. induction N as [|s N IH]; intros W HW; [reflexivity|].
  destruct W as [|w W]; [discriminate|]. cbn [combine map fst]. f_equal.
  apply IH. simpl in HW. lia.
Qed.

Lemma In_combine_weight (N : list Z) (W : list R) (s : Z) :
  length W = length N -> In s N -> exists w, In (s, w) (combine N W).
Proof.
  revert W. induction N as [|s0 N IH]; intros W HW Hs; [contradiction|].
  destruct W as [|w W]; [discriminate|]. cbn [combine].
  destruct Hs as [->|Hs].
  - exists w. now left.
  - destruct (IH W) as [w' Hw']; [simpl in HW; lia | exact Hs |].
    exists w'. now right.
Qed.

Lemma In_rowTriplets (hasColor : list bool) (r : Z) (pairs : list (Z * R)) (t : Triplet) :
  In t (rowTriplets hasColor r pairs)
  <-> exists s w, In (s, w) pairs /\ nth (Z.to_nat s) hasColor false = false
                  /\ t = TD r s (- w).
Proof.
  unfold rowTriplets. rewrite in_flat_map. split.
  - intros [[s w] [Hin Ht]]. cbn [fst snd] in Ht.
    destruct (nth (Z.to_nat s) hasColor false) eqn:E; [contradiction|].
    destruct Ht as [<-|[]]. now exists s, w.
  - intros [s [w (Hin & Hc & ->)]]. exists (s, w). split; [exact Hin|].
    cbn [fst snd]. rewrite Hc. now left.
Qed.

Lemma pixelTriplets_row (nrows ncols : Z) (y : list R) (hasColor : list bool) (gamma : R)
  (p : Z * Z) (t : Triplet) :
  In t (pixelTriplets nrows ncols y hasColor gamma p) ->
  row t = flatIndex ncols (fst p) (snd p).
Proof.
  unfold pixelTriplets. intros [<-|H]; [reflexivity|].
  apply In_rowTriplets in H. now destruct H as [s [w (_ & _ & ->)]].
Qed.

(** The weights of a pixel's neighbours: one per neighbour, in order. *)
Lemma weightedNeighbours_fst (nrows ncols : Z) (y : list R) (gamma : R) (i j : Z) :
  map fst (weightedNeighbours nrows ncols y gamma i j) = getNeighbours i j nrows ncols.
Proof. unfold weightedNeighbours. apply map_fst_combine, length_getWeights. Qed.

Lemma weightedNeighbours_snd (nrows ncols : Z) (y : list R) (gamma : R) (i j : Z) :
  map snd (weightedNeighbours nrows ncols y gamma i j)
  = getWeights y (flatIndex ncols i j) (getNeighbours i j nrows ncols) gamma.
Proof.
  unfold weightedNeighbours.
  generalize (length_getWeights y (flatIndex ncols i j) (getNeighbours i j nrows ncols) gamma).
  generalize (getWeights y (flatIndex ncols i j) (getNeighbours i j nrows ncols) gamma).
  generalize (getNeighbours i j nrows ncols).
  intros N. induction N as [|s N IH]; intros W HW.
  - destruct W; [reflexivity|discriminate].
  - destruct W as [|w W]; [discriminate|]. cbn [combine map snd]. f_equal.
    apply IH. simpl in HW. lia.
Qed.

Section Rows.
Variables (nrows ncols : Z) (y u v : list R) (hasColor : list bool) (gamma : R).

(** The triplets of row [r] are those pushed for pixel [r]. *)
Lemma entries_filter (f : Triplet -> bool) (i j : Z) :
  inGrid nrows ncols i j ->
  (forall t, f t = true -> row t = flatIndex ncols i j) ->
  filter f (coefficients (assemble nrows ncols y u v hasColor gamma))
  = filter f (pixelTriplets nrows ncols y hasColor gamma (i, j)).
Proof.
  intros Hg Hf. rewrite assemble_pixels, pixels_coefficients. cbn [coefficients app].
  destruct (gridPixels_split nrows ncols i j Hg) as [before [after [-> Hother]]].
  assert (Hnone : forall ps, (forall p, In p ps -> In p (before ++ after)) ->
                             filter f (flat_map (pixelTriplets nrows ncols y hasColor gamma) ps) = []).
  { intros ps Hps. apply filter_none. intros t Ht.
    apply in_flat_map in Ht. destruct Ht as [p [Hp Ht]].
    apply pixelTriplets_row in Ht.
    destruct (Hother p (Hps p Hp)) as [_ Hne].
    destruct (f t) eqn:E; [|reflexivity].
    apply Hf in E. congruence. }
  rewrite flat_map_app. cbn [flat_map]. rewrite !filter_app.
  rewrite (Hnone before), (Hnone after).
  - now rewrite app_nil_r.
  - intros p Hp. apply in_or_app. now right.
  - intros p Hp. apply in_or_app. now left.
Qed.

Lemma at_position_row (r c : Z) (t : Triplet) : at_position r c t = true -> row t = r.
Proof. unfold at_position. intros H. apply andb_true_iff in H. lia. Qed.

Lemma at_position_col (r c : Z) (t : Triplet) : at_position r c t = true -> col t = c.
Proof. unfold at_position. intros H. apply andb_true_iff in H. lia. Qed.

(** The right-hand sides at an index of the grid. *)
Lemma assemble_rhs (i j : Z) :
  inGrid nrows ncols i j ->
  let r := flatIndex ncols i j in
  let N := getNeighbours i j nrows ncols in
  let W := getWeights y r N gamma in
  vget (bu (assemble nrows ncols y u v hasColor gamma)) r = rhsSum u hasColor N W 0 /\
  vget (bv (assemble nrows ncols y u v hasColor gamma)) r = rhsSum v hasColor N W 0.
Proof.
  intros Hg r N W. rewrite assemble_pixels.
  destruct (gridPixels_split nrows ncols i j Hg) as [before [after [-> Hother]]].
  pose proof (flatIndex_range _ _ _ _ Hg) as Hr. fold r in Hr.
  rewrite fold_left_app. cbn [fold_left fst snd].
  set (st0 := mkAssembly [] (repeat 0 (Z.to_nat (nrows * ncols)))
                         (repeat 0 (Z.to_nat (nrows * ncols)))).
  set (st1 := fold_left _ before st0).
  assert (Hlen : length (bu st1) = Z.to_nat (nrows * ncols)
                 /\ length (bv st1) = Z.to_nat (nrows * ncols)).
  { unfold st1.
    destruct (pixels_length nrows ncols y u v hasColor gamma before st0) as [-> ->].
    unfold st0. cbn [bu bv]. now rewrite repeat_length. }
  destruct Hlen as [Hlu Hlv].
  destruct (pixels_other nrows ncols y u v hasColor gamma after
              (pixelStep nrows ncols y u v hasColor gamma i st1 j) r) as [-> ->].
  { lia. }
  { intros p Hp. apply Hother, in_or_app. now right. }
  destruct (pixel_same nrows ncols y u v hasColor gamma i j st1) as [Eu Ev].
  { fold r. rewrite Hlu. lia. }
  { fold r. rewrite Hlv. lia. }
  fold r N W in Eu, Ev. rewrite Eu, Ev.
  destruct (pixels_other nrows ncols y u v hasColor gamma before st0 r) as [Eu0 Ev0].
  { lia. }
  { intros p Hp. apply Hother, in_or_app. now left. }
  fold st1 in Eu0, Ev0. rewrite Eu0, Ev0. unfold st0. cbn [bu bv].
  now rewrite vget_repeat_zero.
Qed.

End Rows.

(** *** Coefficients *)

Lemma at_position_spec (r c : Z) (t : Triplet) :
  at_position r c t = true <-> row t = r /\ col t = c.
Proof. unfold at_position. rewrite andb_true_iff, !Z.eqb_eq. tauto. Qed.

Lemma filter_all {T : Type} (f : T -> bool) (l : list T) :
  (forall x, In x l -> f x = true) -> filter f l = l.
Proof.
  induction l as [|x l IH]; intros H; [reflexivity|]. cbn [filter].
  rewrite (H x (or_introl eq_refl)). f_equal. apply IH. intros z Hz. apply H. now right.
Qed.

Lemma rowTriplets_at_none (hasColor : list bool) (r c : Z) (pairs : list (Z * R)) :
  (forall w, In (c, w) pairs -> nth (Z.to_nat c) hasColor false = true) ->
  filter (at_position r c) (rowTriplets hasColor r pairs) = [].
Proof.
  intros H. apply filter_none. intros t Ht. apply In_rowTriplets in Ht.
  destruct Ht as [s [w (Hin & Hc & ->)]].
  destruct (at_position r c (TD r s (- w))) eqn:E; [|reflexivity].
  apply at_position_spec in E. cbn [row col] in E. destruct E as [_ ->].
  rewrite (H w Hin) in Hc. discriminate.
Qed.

Lemma rowTriplets_at_one (hasColor : list bool) (r s : Z) (w : R) (pairs : list (Z * R)) :
  NoDup (map fst pairs) -> In (s, w) pairs ->
  nth (Z.to_nat s) hasColor false = false ->
  Rsum (map value (filter (at_position r s) (rowTriplets hasColor r pairs))) = - w.
Proof.
  intros Hnd Hin Hc. induction pairs as [|[s0 w0] pairs IH]; [contradiction|].
  cbn [map fst] in Hnd. apply NoDup_cons_iff in Hnd. destruct Hnd as [Hs0 Hnd].
  unfold rowTriplets. cbn [flat_map fst snd]. fold (rowTriplets hasColor r pairs).
  rewrite filter_app, map_app, Rsum_app.
  destruct Hin as [E|Hin].
  - injection E as -> ->. rewrite rowTriplets_at_none.
    + rewrite Hc. cbn [filter]. replace (at_position r s (TD r s (- w))) with true.
      * simpl. ring.
      * symmetry. now apply at_position_spec.
    + intros w' Hw'. exfalso. apply Hs0. apply in_map_iff. now exists (s, w').
  - rewrite (IH Hnd Hin).
    assert (Hne : s0 <> s).
    { intros ->. apply Hs0. apply in_map_iff. now exists (s, w). }
    destruct (nth (Z.to_nat s0) hasColor false); cbn [filter map Rsum fold_right]; [ring|].
    replace (at_position r s (TD r s0 (- w0))) with false; [simpl; ring|].
    symmetry. destruct (at_position r s (TD r s0 (- w0))) eqn:E; [|reflexivity].
    apply at_position_spec in E. cbn [col] in E. tauto.
Qed.

Lemma Rsum_map_zero {T : Type} (l : list T) : Rsum (map (fun _ => 0) l) = 0.
Proof. induction l as [|x l IH]; simpl; [reflexivity|]. fold (Rsum (map (fun _ : T => 0) l)). rewrite IH. ring. Qed.

Lemma Rsum_map_plus {T : Type} (f g : T -> R) (l : list T) :
  Rsum (map (fun x => f x + g x) l) = Rsum (map f l) + Rsum (map g l).
Proof.
  induction l as [|x l IH]; simpl; [ring|].
  fold (Rsum (map (fun x => f x + g x) l)) (Rsum (map f l)) (Rsum (map g l)).
  rewrite IH. ring.
Qed.

(** A triplet counts once among the columns of a list without repetition. *)
Lemma delta_sum (r : Z) (t : Triplet) (L : list Z) :
  NoDup L ->
  Rsum (map (fun c => if at_position r c t then value t else 0) L)
  = if ((row t =? r)%Z && existsb (Z.eqb (col t)) L)%bool then value t else 0.
Proof.
  intros Hnd. unfold at_position. destruct (row t =? r)%Z; cbn [andb].
  - induction Hnd as [|c L Hc Hnd IH]; [reflexivity|].
    cbn [map existsb Rsum fold_right].
    fold (Rsum (map (fun c => if (col t =? c)%Z then value t else 0) L)).
    rewrite IH. destruct (Z.eqb_spec (col t) c) as [E|E]; cbn [orb].
    + replace (existsb (Z.eqb (col t)) L) with false; [ring|].
      symmetry. destruct (existsb (Z.eqb (col t)) L) eqn:Ex; [|reflexivity].
      apply existsb_exists in Ex. destruct Ex as [c' [Hc' E']].
      apply Z.eqb_eq in E'. exfalso. apply Hc. congruence.
    + ring.
  - apply Rsum_map_zero.
Qed.

(** The coefficients of a row, summed over columns without repetition, are
    the values of the triplets of that row in those columns. *)
Lemma Rsum_columns (ts : list Triplet) (r : Z) (L : list Z) :
  NoDup L ->
  Rsum (map (fun c => Rsum (map value (filter (at_position r c) ts))) L)
  = Rsum (map value
              (filter (fun t => ((row t =? r)%Z && existsb (Z.eqb (col t)) L)%bool) ts)).
Proof.
  intros Hnd. induction ts as [|t ts IH].
  - cbn [filter map]. apply Rsum_map_zero.
  - rewrite (map_ext _ (fun c => (if at_position r c t then value t else 0)
                                 + Rsum (map value (filter (at_position r c) ts)))).
    + rewrite Rsum_map_plus, IH, (delta_sum r t L Hnd). cbn [filter].
      destruct ((row t =? r)%Z && existsb (Z.eqb (col t)) L)%bool; simpl; ring.
    + intros c. cbn [filter]. destruct (at_position r c t); simpl; ring.
Qed.

Lemma neighbours_nonempty (nrows ncols i j : Z) :
  inGrid nrows ncols i j -> (1 < nrows * ncols)%Z -> getNeighbours i j nrows ncols <> [].
Proof.
  intros Hg Hn E. pose proof (length_getNeighbours i j nrows ncols Hg) as HL.
  rewrite E in HL. cbn [length] in HL. destruct Hg as [Hi Hj].
  destruct (Z.eqb_spec i 0), (Z.eqb_spec i (nrows - 1)),
    (Z.eqb_spec j 0), (Z.eqb_spec j (ncols - 1)); nia.
Qed.

Section Matrix.
Variables (nrows ncols : Z) (y u v : list R) (hasColor : list bool) (gamma : R).

Lemma self_not_neighbour (i j : Z) :
  inGrid nrows ncols i j -> ~ In (flatIndex ncols i j) (getNeighbours i j nrows ncols).
Proof. intros Hg. rewrite In_getNeighbours_grid by exact Hg. lia. Qed.

Lemma coeff_row (i j c : Z) :
  inGrid nrows ncols i j ->
  coeff (assembledMatrix nrows ncols y u v hasColor gamma) (flatIndex ncols i j) c
  = Rsum (map value (filter (at_position (flatIndex ncols i j) c)
                            (pixelTriplets nrows ncols y hasColor gamma (i, j)))).
Proof.
  intros Hg. unfold coeff, assembledMatrix. cbn [entries].
  rewrite (entries_filter nrows ncols y u v hasColor gamma _ i j Hg); [reflexivity|].
  intros t. apply at_position_row.
Qed.

Lemma coeff_diagonal (i j : Z) :
  inGrid nrows ncols i j -> coeff (assembledMatrix nrows ncols y u v hasColor gamma) (flatIndex ncols i j) (flatIndex ncols i j) = 1.
Proof.
  intros Hg. rewrite coeff_row by exact Hg. unfold pixelTriplets. cbn [fst snd filter].
  replace (at_position (flatIndex ncols i j) (flatIndex ncols i j)
             (TD (flatIndex ncols i j) (flatIndex ncols i j) 1)) with true
    by (symmetry; now apply at_position_spec).
  rewrite rowTriplets_at_none; [simpl; ring|].
  intros w Hw. exfalso. apply (self_not_neighbour i j Hg).
  unfold weightedNeighbours in Hw. now apply in_combine_l in Hw.
Qed.

Lemma coeff_off_diagonal (i j c : Z) :
  inGrid nrows ncols i j -> c <> flatIndex ncols i j ->
  coeff (assembledMatrix nrows ncols y u v hasColor gamma) (flatIndex ncols i j) c
  = Rsum (map value (filter (at_position (flatIndex ncols i j) c)
                            (rowTriplets hasColor (flatIndex ncols i j)
                                         (weightedNeighbours nrows ncols y gamma i j)))).
Proof.
  intros Hg Hc. rewrite coeff_row by exact Hg. unfold pixelTriplets. cbn [fst snd filter].
  replace (at_position (flatIndex ncols i j) c
             (TD (flatIndex ncols i j) (flatIndex ncols i j) 1)) with false; [reflexivity|].
  symmetry. destruct (at_position _ c (TD _ _ 1)) eqn:E; [|reflexivity].
  apply at_position_spec in E. cbn [col] in E. destruct E. congruence.
Qed.

Lemma coeff_neighbour (i j s : Z) (w : R) :
  inGrid nrows ncols i j ->
  In (s, w) (weightedNeighbours nrows ncols y gamma i j) ->
  nth (Z.to_nat s) hasColor false = false ->
  coeff (assembledMatrix nrows ncols y u v hasColor gamma) (flatIndex ncols i j) s = - w.
Proof.
  intros Hg Hin Hc. rewrite coeff_off_diagonal; [|exact Hg|].
  - apply rowTriplets_at_one; [|exact Hin|exact Hc].
    rewrite weightedNeighbours_fst. apply NoDup_getNeighbours.
  - intros ->. apply (self_not_neighbour i j Hg).
    unfold weightedNeighbours in Hin. now apply in_combine_l in Hin.
Qed.

Lemma stored_row (i j c : Z) :
  inGrid nrows ncols i j ->
  stored (assembledMatrix nrows ncols y u v hasColor gamma) (flatIndex ncols i j) c
  <-> c = flatIndex ncols i j
      \/ (In c (getNeighbours i j nrows ncols) /\ nth (Z.to_nat c) hasColor false = false).
Proof.
  intros Hg. unfold stored, assembledMatrix. cbn [entries]. split.
  - intros [t (Hin & Hr & Hcol)].
    assert (Hf : In t (filter (at_position (flatIndex ncols i j) c)
                              (coefficients (assemble nrows ncols y u v hasColor gamma)))).
    { apply filter_In. split; [exact Hin|]. now apply at_position_spec. }
    rewrite (entries_filter nrows ncols y u v hasColor gamma _ i j Hg) in Hf
      by (intros t'; apply at_position_row).
    apply filter_In in Hf. destruct Hf as [Hf _]. unfold pixelTriplets in Hf.
    cbn [fst snd] in Hf. destruct Hf as [<-|Hf].
    + left. cbn [col] in Hcol. congruence.
    + right. apply In_rowTriplets in Hf. destruct Hf as [s [w (Hsw & Hc & ->)]].
      cbn [col] in Hcol. subst s. split; [|exact Hc].
      unfold weightedNeighbours in Hsw. now apply in_combine_l in Hsw.
  - intros H.
    assert (Hex : exists t, In t (pixelTriplets nrows ncols y hasColor gamma (i, j))
                            /\ at_position (flatIndex ncols i j) c t = true).
    { destruct H as [->|[Hn Hc]].
      - exists (TD (flatIndex ncols i j) (flatIndex ncols i j) 1).
        split; [now left | now apply at_position_spec].
      - destruct (In_combine_weight (getNeighbours i j nrows ncols)
                    (getWeights y (flatIndex ncols i j) (getNeighbours i j nrows ncols) gamma) c)
          as [w Hw]; [apply length_getWeights | exact Hn |].
        exists (TD (flatIndex ncols i j) c (- w)). split; [|now apply at_position_spec].
        right. apply In_rowTriplets. now exists c, w. }
    destruct Hex as [t [Hin Hat]].
    assert (Hf : In t (filter (at_position (flatIndex ncols i j) c)
                              (pixelTriplets nrows ncols y hasColor gamma (i, j)))).
    { apply filter_In. now split. }
    rewrite <- (entries_filter nrows ncols y u v hasColor gamma _ i j Hg) in Hf
      by (intros t'; apply at_position_row).
    apply filter_In in Hf. destruct Hf as [Hf _].
    apply at_position_spec in Hat. exists t. tauto.
Qed.

Lemma coeff_not_stored (r c : Z) : ~ stored (assembledMatrix nrows ncols y u v hasColor gamma) r c -> coeff (assembledMatrix nrows ncols y u v hasColor gamma) r c = 0.
Proof.
  intros H. unfold coeff. rewrite filter_none; [reflexivity|].
  intros t Ht. destruct (at_position r c t) eqn:E; [|reflexivity].
  exfalso. apply H. apply at_position_spec in E. exists t. tauto.
Qed.

(** The off-diagonal coefficients of a row sum to the values of the triplets
    pushed for the neighbours of its pixel. *)
Lemma offDiagonalSum_row (i j : Z) :
  inGrid nrows ncols i j ->
  offDiagonalSum (assembledMatrix nrows ncols y u v hasColor gamma) (flatIndex ncols i j)
  = Rsum (map value (rowTriplets hasColor (flatIndex ncols i j)
                                 (weightedNeighbours nrows ncols y gamma i j))).
Proof.
  intros Hg. unfold offDiagonalSum, coeff.
  set (r := flatIndex ncols i j).
  set (L := filter (fun c => negb (c =? r)%Z) (range 0 (nCols (assembledMatrix nrows ncols y u v hasColor gamma)))).
  assert (HL : forall c, In c L <-> (0 <= c < nrows * ncols)%Z /\ c <> r).
  { intros c. unfold L. rewrite filter_In, In_range, negb_true_iff, Z.eqb_neq.
    unfold assembledMatrix. cbn [nCols]. tauto. }
  rewrite (Rsum_columns (entries (assembledMatrix nrows ncols y u v hasColor gamma)) r L) by (apply NoDup_filter, NoDup_range).
  unfold assembledMatrix. cbn [entries].
  rewrite (entries_filter nrows ncols y u v hasColor gamma _ i j Hg).
  - unfold pixelTriplets. cbn [fst snd filter row col]. fold r.
    replace (existsb (Z.eqb r) L) with false.
    + rewrite andb_false_r. do 2 f_equal. apply filter_all.
      intros t Ht. apply In_rowTriplets in Ht. destruct Ht as [s [w (Hsw & _ & ->)]].
      cbn [row col]. rewrite Z.eqb_refl. cbn [andb].
      apply existsb_exists. exists s. split; [|apply Z.eqb_refl].
      unfold weightedNeighbours in Hsw. apply in_combine_l in Hsw.
      apply HL. split.
      * apply getNeighbours_inGrid in Hsw. destruct Hsw as [m [n [Hmn ->]]].
        now apply flatIndex_range.
      * intros ->. now apply (self_not_neighbour i j Hg).
    + symmetry. destruct (existsb (Z.eqb r) L) eqn:E; [|reflexivity].
      apply existsb_exists in E. destruct E as [c [Hc E]]. apply Z.eqb_eq in E.
      apply HL in Hc. exfalso. destruct Hc as [_ Hc]. now apply Hc.
  - intros t Ht. apply andb_true_iff in Ht. destruct Ht as [Ht _].
    now apply Z.eqb_eq in Ht.
Qed.

Lemma rowTriplets_no_colour (r : Z) (pairs : list (Z * R)) :
  (forall k, nth k hasColor false = false) ->
  Rsum (map value (rowTriplets hasColor r pairs)) = - Rsum (map snd pairs).
Proof.
  intros Hm. induction pairs as [|[s w] pairs IH]; [simpl; ring|].
  unfold rowTriplets. cbn [flat_map fst snd]. fold (rowTriplets hasColor r pairs).
  rewrite Hm, map_app, Rsum_app, IH.
  unfold Rsum. cbn [map value snd fold_right]. ring.
Qed.

End Matrix.

End AssemblerFacts.

(** ** The assembled system and the pipeline *)

Section SystemFacts.
Local Open Scope R_scope.

Lemma nth_all_false (l : list bool) (k : nat) :
  Forall (fun b => b = false) l -> nth k l false = false.
Proof.
  intros H. destruct (nth_in_or_default k l false) as [Hin|E]; [|exact E].
  rewrite Forall_forall in H. now apply H.
Qed.

(** The loop of [rhsSum] adds up the contributions of the coloured
    neighbours. *)
Lemma rhsSum_sum (x : list R) (hasColor : list bool) (N : list Z) (W : list R) (b0 : R) :
  rhsSum x hasColor N W b0
  = b0 + Rsum (map (fun sw => snd sw * vget x (fst sw))
                   (filter (fun sw => nth (Z.to_nat (fst sw)) hasColor false) (combine N W))).
Proof.
  unfold rhsSum. generalize (combine N W). intros pairs. revert b0.
  induction pairs as [|[s w] pairs IH]; intros b0; cbn [fold_left filter fst snd].
  - simpl. ring.
  - rewrite IH. destruct (nth (Z.to_nat s) hasColor false); [|reflexivity].
    unfold Rsum. cbn [map fold_right fst snd]. ring.
Qed.

(** C1: for every pixel [r = (i, j)] of the grid, whatever its own mask, the
    system [setupProblem] assembles has [A(r, r) = 1]; [A(r, s) = - w] for a
    neighbour [s] of weight [w] whose mask is false; for a neighbour [s] whose
    mask is true nothing is stored at [(r, s)], and [bu(r)], [bv(r)] are the
    sums of [w * u[s]] and [w * v[s]] over those neighbours; every other
    coefficient of row [r] is 0. *)
Theorem C1_assembled_row
  (cvtColor : ColorConversionCode -> Mat (Pixel Z) -> Mat (Pixel Z))
  (Y : Mat R) (scribbles : Mat (Pixel Z)) (mask : Mat Z) (gamma : R) (i j : Z) :
  inGrid (rows Y) (cols Y) i j ->
  let sys := setupProblem cvtColor Y scribbles mask gamma in
  let u := scribblesU cvtColor scribbles in
  let v := scribblesV cvtColor scribbles in
  let hasColor := to1D_bool mask in
  let r := flatIndex (cols Y) i j in
  let N := getNeighbours i j (rows Y) (cols Y) in
  let W := getWeights (to1D Y) r N gamma in
  coeff (sysA sys) r r = 1 /\
  (forall s w, In (s, w) (combine N W) -> nth (Z.to_nat s) hasColor false = false ->
               coeff (sysA sys) r s = - w) /\
  (forall s, In s N -> nth (Z.to_nat s) hasColor false = true ->
             ~ stored (sysA sys) r s /\ coeff (sysA sys) r s = 0) /\
  vget (sysBu sys) r = rhsSum u hasColor N W 0 /\
  vget (sysBv sys) r = rhsSum v hasColor N W 0 /\
  (forall c, c <> r -> ~ In c N -> coeff (sysA sys) r c = 0).
Proof.
  intros Hg sys u v hasColor r N W.
  change (sysA sys) with (assembledMatrix (rows Y) (cols Y) (to1D Y) u v hasColor gamma).
  assert (Hns : forall c, c <> r -> ~ (In c N /\ nth (Z.to_nat c) hasColor false = false) ->
                          ~ stored (assembledMatrix (rows Y) (cols Y) (to1D Y) u v hasColor gamma) r c).
  { intros c Hc Hn Hst. apply stored_row in Hst; [|exact Hg]. tauto. }
  split; [|split; [|split; [|split; [|split]]]].
  - now apply coeff_diagonal.
  - intros s w Hin Hc. now apply coeff_neighbour.
  - intros s Hs Hc.
    assert (Hst : ~ stored (assembledMatrix (rows Y) (cols Y) (to1D Y) u v hasColor gamma) r s).
    { apply Hns.
      - intros ->. now apply (self_not_neighbour (rows Y) (cols Y) i j Hg).
      - intros [_ Hc']. congruence. }
    split; [exact Hst | now apply coeff_not_stored].
  - apply (assemble_rhs (rows Y) (cols Y) (to1D Y) u v hasColor gamma i j Hg).
  - apply (assemble_rhs (rows Y) (cols Y) (to1D Y) u v hasColor gamma i j Hg).
  - intros c Hc Hn. apply coeff_not_stored, Hns; tauto.
Qed.

Lemma C1_assembled_row_witness :
  inGrid 1 2 0 0 /\
  coeff (sysA (setupProblem (fun _ m => m) (mkMat 1 2 [[0; 0]])
                            (mkMat 1 2 [[(0, 0, 0); (0, 0, 0)]%Z])
                            (mkMat 1 2 [[0; 0]%Z]) 2))
        (flatIndex 2 0 0) (flatIndex 2 0 0) = 1.
Proof.
  assert (Hg : inGrid 1 2 0 0) by (unfold inGrid; lia).
  split; [exact Hg|].
  exact (proj1 (C1_assembled_row (fun _ m => m) (mkMat 1 2 [[0; 0]])
                  (mkMat 1 2 [[(0, 0, 0); (0, 0, 0)]%Z])
                  (mkMat 1 2 [[0; 0]%Z]) 2 0 0 Hg)).
Defined.

(** C5 as stated fails on the image of a single pixel: the pixel has no
    neighbour, and the off-diagonal coefficients of its row sum to 0. *)
Lemma C5_single_pixel_counterexample :
  let mask := mkMat 1 1 [[0%Z]] in
  let sys := setupProblem (fun _ m => m) (mkMat 1 1 [[0]]) (mkMat 1 1 [[(0, 0, 0)%Z]]) mask 2 in
  allFalse mask /\ inGrid 1 1 0 0 /\
  offDiagonalSum (sysA sys) (flatIndex 1 0 0) = 0 /\
  offDiagonalSum (sysA sys) (flatIndex 1 0 0) <> -1.
Proof.
  intros mask sys.
  assert (Hg : inGrid 1 1 0 0) by (unfold inGrid; lia).
  assert (E : offDiagonalSum (sysA sys) (flatIndex 1 0 0) = 0).
  { unfold sys, setupProblem. cbv zeta. cbn [sysA rows cols].
    change (offDiagonalSum
              (assembledMatrix 1 1 (to1D (mkMat 1 1 [[0]]))
                 (scribblesU (fun _ m => m) (mkMat 1 1 [[(0, 0, 0)%Z]]))
                 (scribblesV (fun _ m => m) (mkMat 1 1 [[(0, 0, 0)%Z]]))
                 (to1D_bool mask) 2)
              (flatIndex 1 0 0) = 0).
    rewrite offDiagonalSum_row by exact Hg.
    unfold weightedNeighbours.
    replace (getNeighbours 0 0 1 1) with (@nil Z) by reflexivity.
    reflexivity. }
  split; [repeat constructor|]. split; [exact Hg|]. split; [exact E|].
  rewrite E. lra.
Qed.

Lemma length_getNeighbours_le (nrows ncols i j : Z) :
  inGrid nrows ncols i j -> (length (getNeighbours i j nrows ncols) <= 8)%nat.
Proof.
  intros Hg. pose proof (length_getNeighbours i j nrows ncols Hg) as HL.
  destruct (i =? 0)%Z, (i =? nrows - 1)%Z, (j =? 0)%Z, (j =? ncols - 1)%Z; lia.
Qed.

(** C5 (amended): if the mask is entirely false, [bu] and [bv] are the zero
    vector and every row of [A] has diagonal entry 1; when moreover the grid
    has more than one pixel, the luminances lie in [0, 255] and
    [0 < gamma <= 75], the weights of the row are computed without a failed
    assertion and without underflow (the arguments of [exp] lie in
    [-675, 0]) and the off-diagonal entries of the row sum to -1. *)
Theorem C5_no_scribbles
  (cvtColor : ColorConversionCode -> Mat (Pixel Z) -> Mat (Pixel Z))
  (Y : Mat R) (scribbles : Mat (Pixel Z)) (mask : Mat Z) (gamma : R) :
  allFalse mask ->
  let sys := setupProblem cvtColor Y scribbles mask gamma in
  sysBu sys = repeat 0 (Z.to_nat (rows Y * cols Y)) /\
  sysBv sys = repeat 0 (Z.to_nat (rows Y * cols Y)) /\
  forall i j, inGrid (rows Y) (cols Y) i j ->
              let r := flatIndex (cols Y) i j in
              coeff (sysA sys) r r = 1 /\
              ((1 < rows Y * cols Y)%Z -> isLuminance (to1D Y) -> safeGamma gamma ->
               weightsComputed (to1D Y) r (getNeighbours i j (rows Y) (cols Y)) gamma /\
               offDiagonalSum (sysA sys) r = -1).
Proof.
  intros Hmask sys.
  assert (Hm : forall k, nth k (to1D_bool mask) false = false).
  { intros k. apply nth_all_false, to1D_bool_allFalse, Hmask. }
  destruct (pixels_no_colour (rows Y) (cols Y) (to1D Y)
              (scribblesU cvtColor scribbles) (scribblesV cvtColor scribbles)
              (to1D_bool mask) gamma (gridPixels (rows Y) (cols Y))
              (mkAssembly [] (repeat 0 (Z.to_nat (rows Y * cols Y)))
                          (repeat 0 (Z.to_nat (rows Y * cols Y)))) Hm) as [Hu Hv].
  rewrite <- assemble_pixels in Hu, Hv. cbn [bu bv] in Hu, Hv.
  split; [exact Hu|]. split; [exact Hv|].
  intros i j Hg r.
  change (sysA sys) with (assembledMatrix (rows Y) (cols Y) (to1D Y)
                            (scribblesU cvtColor scribbles) (scribblesV cvtColor scribbles)
                            (to1D_bool mask) gamma).
  split; [now apply coeff_diagonal|].
  intros Hn Hlum Hgamma. split.
  - apply weightsComputed_safe; [exact Hlum | now apply length_getNeighbours_le | exact Hgamma].
  - unfold r. rewrite offDiagonalSum_row by exact Hg.
    rewrite rowTriplets_no_colour by exact Hm.
    rewrite weightedNeighbours_snd, getWeights_sum; [ring|].
    now apply neighbours_nonempty.
Qed.

Lemma C5_no_scribbles_witness :
  allFalse (mkMat 1 2 [[0; 0]%Z]) /\ inGrid 1 2 0 0 /\ (1 < 1 * 2)%Z /\
  isLuminance (to1D (mkMat 1 2 [[0; 255]])) /\ safeGamma 2 /\
  offDiagonalSum
    (sysA (setupProblem (fun _ m => m) (mkMat 1 2 [[0; 255]])
                        (mkMat 1 2 [[(0, 0, 0); (0, 0, 0)]%Z])
                        (mkMat 1 2 [[0; 0]%Z]) 2))
    (flatIndex 2 0 0) = -1.
Proof.
  assert (Hm : allFalse (mkMat 1 2 [[0; 0]%Z])) by (repeat constructor).
  assert (Hg : inGrid 1 2 0 0) by (unfold inGrid; lia).
  assert (Hn : (1 < 1 * 2)%Z) by lia.
  assert (Hl : isLuminance (to1D (mkMat 1 2 [[0; 255]]))) by (repeat constructor; lra).
  assert (Hs : safeGamma 2) by (unfold safeGamma, gamma_max; lra).
  split; [exact Hm|]. split; [exact Hg|]. split; [exact Hn|].
  split; [exact Hl|]. split; [exact Hs|].
  exact (proj2 (proj2 (proj2 (proj2 (C5_no_scribbles (fun _ m => m) (mkMat 1 2 [[0; 255]])
                                (mkMat 1 2 [[(0, 0, 0); (0, 0, 0)]%Z])
                                (mkMat 1 2 [[0; 0]%Z]) 2 Hm)) 0%Z 0%Z Hg) Hn Hl Hs)).
Defined.

(** C10: for two distinct pixels [r] and [s] of a grid, [s] is a neighbour of
    [r] exactly when [r] is a neighbour of [s]; and when neither is
    constrained, [A] stores the position [(r, s)] exactly when it stores
    [(s, r)]. *)
Theorem C10_symmetric_neighbours
  (cvtColor : ColorConversionCode -> Mat (Pixel Z) -> Mat (Pixel Z))
  (Y : Mat R) (scribbles : Mat (Pixel Z)) (mask : Mat Z) (gamma : R) (i j i' j' : Z) :
  inGrid (rows Y) (cols Y) i j -> inGrid (rows Y) (cols Y) i' j' ->
  let sys := setupProblem cvtColor Y scribbles mask gamma in
  let hasColor := to1D_bool mask in
  let r := flatIndex (cols Y) i j in
  let s := flatIndex (cols Y) i' j' in
  r <> s ->
  (In s (getNeighbours i j (rows Y) (cols Y)) <-> In r (getNeighbours i' j' (rows Y) (cols Y))) /\
  (nth (Z.to_nat r) hasColor false = false -> nth (Z.to_nat s) hasColor false = false ->
   (stored (sysA sys) r s <-> stored (sysA sys) s r)).
Proof.
  intros Hg Hg' sys hasColor r s Hne.
  pose proof (getNeighbours_sym (rows Y) (cols Y) i j i' j' Hg Hg') as Hsym.
  fold r s in Hsym. split; [exact Hsym|].
  intros Hr Hs.
  change (sysA sys) with (assembledMatrix (rows Y) (cols Y) (to1D Y)
                            (scribblesU cvtColor scribbles) (scribblesV cvtColor scribbles)
                            hasColor gamma).
  unfold r at 1, s at 2.
  rewrite (stored_row _ _ _ _ _ _ _ i j s Hg), (stored_row _ _ _ _ _ _ _ i' j' r Hg').
  fold r s. split; intros [E|[Hn _]]; try congruence; right; tauto.
Qed.

Lemma C10_symmetric_neighbours_witness :
  inGrid 1 2 0 0 /\ inGrid 1 2 0 1 /\ flatIndex 2 0 0 <> flatIndex 2 0 1 /\
  (In (flatIndex 2 0 1) (getNeighbours 0 0 1 2) <-> In (flatIndex 2 0 0) (getNeighbours 0 1 1 2)).
Proof.
  assert (Hg : inGrid 1 2 0 0) by (unfold inGrid; lia).
  assert (Hg' : inGrid 1 2 0 1) by (unfold inGrid; lia).
  assert (Hne : flatIndex 2 0 0 <> flatIndex 2 0 1) by (cbv; discriminate).
  split; [exact Hg|]. split; [exact Hg'|]. split; [exact Hne|].
  exact (proj1 (C10_symmetric_neighbours (fun _ m => m) (mkMat 1 2 [[0; 0]])
                  (mkMat 1 2 [[(0, 0, 0); (0, 0, 0)]%Z])
                  (mkMat 1 2 [[0; 0]%Z]) 2 0 0 0 1 Hg Hg' Hne)).
Defined.

End SystemFacts.

Section PipelineFacts.

Variable cvtColor : ColorConversionCode -> Mat (Pixel Z) -> Mat (Pixel Z).
Variable saturate_cast_uchar : R -> Z.
Variable Solver : Type.
Variable compute : SparseMatrix -> Solver.
Variable solve : Solver -> list R -> list R * Solver.
Variable info : Solver -> ComputationInfo.

Lemma isSuccess_false (c : ComputationInfo) : c <> Success -> isSuccess c = false.
Proof. destruct c; [congruence| | |]; reflexivity. Qed.

(** When both solves report success, the image is returned. *)
Lemma colorize_returns (image scribbles : Mat (Pixel Z)) (mask : Mat Z) (gamma : R) :
  let sys := setupProblem cvtColor (luminance cvtColor image) scribbles mask gamma in
  let afterU := snd (solve (compute (sysA sys)) (sysBu sys)) in
  let afterV := snd (solve afterU (sysBv sys)) in
  info afterU = Success -> info afterV = Success ->
  exists colorImage,
    colorize cvtColor saturate_cast_uchar Solver compute solve info image scribbles mask gamma
    = Returned colorImage.
Proof.
  intros sys afterU afterV HU HV. unfold colorize. fold sys.
  destruct (solve (compute (sysA sys)) (sysBu sys)) as [U s1] eqn:EU.
  cbn [snd] in afterU. subst afterU. rewrite HU. cbn [isSuccess negb].
  destruct (solve s1 (sysBv sys)) as [V s2] eqn:EV.
  cbn [snd] in afterV. subst afterV. rewrite HV. cbn [isSuccess negb].
  eexists. reflexivity.
Qed.

End PipelineFacts.

(** C4: when the solve for U or the solve for V does not report [Success],
    [colorize] throws, and returns no image. *)
Theorem C4_solver_failure_throws
  (cvtColor : ColorConversionCode -> Mat (Pixel Z) -> Mat (Pixel Z))
  (saturate_cast_uchar : R -> Z) (Solver : Type)
  (compute : SparseMatrix -> Solver) (solve : Solver -> list R -> list R * Solver)
  (info : Solver -> ComputationInfo)
  (image scribbles : Mat (Pixel Z)) (mask : Mat Z) (gamma : R) :
  let sys := setupProblem cvtColor (luminance cvtColor image) scribbles mask gamma in
  let afterU := snd (solve (compute (sysA sys)) (sysBu sys)) in
  let afterV := snd (solve afterU (sysBv sys)) in
  let result :=
    colorize cvtColor saturate_cast_uchar Solver compute solve info image scribbles mask gamma in
  info afterU <> Success \/ info afterV <> Success ->
  (result = Thrown "Failed to solve for U channel."
   \/ result = Thrown "Failed to solve for V channel.") /\
  (forall colorImage, result <> Returned colorImage).
Proof.
  intros sys afterU afterV result H.
  assert (E : result = Thrown "Failed to solve for U channel."
              \/ result = Thrown "Failed to solve for V channel.").
  { unfold result, colorize. fold sys.
    destruct (solve (compute (sysA sys)) (sysBu sys)) as [U s1] eqn:EU.
    cbn [snd] in afterU. subst afterU.
    destruct (isSuccess (info s1)) eqn:E1; cbn [negb]; [|now left].
    destruct (solve s1 (sysBv sys)) as [V s2] eqn:EV.
    cbn [snd] in afterV. subst afterV.
    destruct (isSuccess (info s2)) eqn:E2; cbn [negb]; [|now right].
    exfalso. destruct H as [H|H]; apply isSuccess_false in H; congruence. }
  split; [exact E|].
  intros colorImage Hr. destruct E as [E|E]; rewrite E in Hr; discriminate.
Qed.

Lemma C4_solver_failure_throws_witness :
  (NoConvergence <> Success \/ NoConvergence <> Success) /\
  forall colorImage,
    colorize (fun _ m => m) (fun _ => 0) unit (fun _ => tt) (fun s b => (b, s))
             (fun _ => NoConvergence)
             (mkMat 1 1 [[(0, 0, 0)]]) (mkMat 1 1 [[(0, 0, 0)]]) (mkMat 1 1 [[0]]) 2%R
    <> Returned colorImage.
Proof.
  assert (H : NoConvergence <> Success \/ NoConvergence <> Success) by (left; discriminate).
  split; [exact H|].
  exact (proj2 (C4_solver_failure_throws (fun _ m => m) (fun _ => 0) unit (fun _ => tt)
                  (fun s b => (b, s)) (fun _ => NoConvergence)
                  (mkMat 1 1 [[(0, 0, 0)]]) (mkMat 1 1 [[(0, 0, 0)]]) (mkMat 1 1 [[0]]) 2%R H)).
Defined.

(** * Further properties *)

(** ** Flattening and reshaping *)

Lemma wrap_int_small (z : Z) : -2147483648 <= z <= INT_MAX -> wrap_int z = z.
Proof. unfold wrap_int, INT_MAX. intros H. rewrite Z.mod_small; lia. Qed.

Lemma to_ulong_small (z : Z) : 0 <= z <= INT_MAX -> to_ulong z = z.
Proof. unfold to_ulong, INT_MAX. intros H. apply Z.mod_small. lia. Qed.

(** On a grid whose pixel count fits an [int], no step of the loops
    overflows. *)
Lemma neighbourStep_int_eq (nrows ncols i j dx dy : Z) (neighbors : list Z) :
  inGrid nrows ncols i j -> nrows * ncols <= INT_MAX ->
  -1 <= dx <= 1 -> -1 <= dy <= 1 ->
  neighbourStep_int i j nrows ncols dx neighbors dy
  = neighbourStep i j nrows ncols dx neighbors dy.
Proof.
  intros [Hi Hj] Hmax Hdx Hdy. unfold neighbourStep_int, neighbourStep.
  assert (Hr : nrows <= INT_MAX) by nia.
  assert (Hc : ncols <= INT_MAX) by nia.
  unfold INT_MAX in *.
  rewrite (wrap_int_small (i + dy)) by (unfold INT_MAX; lia).
  rewrite (wrap_int_small (j + dx)) by (unfold INT_MAX; lia).
  cbv zeta. change (((dx =? 0) && (dy =? 0)) || (i + dy <? 0) || (j + dx <? 0)
                    || (i + dy >=? nrows) || (j + dx >=? ncols))
    with (skipped i j nrows ncols dx dy).
  destruct (skipped i j nrows ncols dx dy) eqn:E; [reflexivity|].
  apply skipped_false in E. destruct E as (_ & Hm & Hn).
  assert (0 <= (i + dy) * ncols <= (nrows - 1) * ncols) by nia.
  rewrite (wrap_int_small ((i + dy) * ncols)) by (unfold INT_MAX; nia).
  rewrite (wrap_int_small ((i + dy) * ncols + (j + dx))) by (unfold INT_MAX; nia).
  rewrite to_ulong_small by (unfold INT_MAX; nia).
  reflexivity.
Qed.

Lemma getNeighbours_int_eq (nrows ncols i j : Z) :
  inGrid nrows ncols i j -> nrows * ncols <= INT_MAX ->
  getNeighbours_int i j nrows ncols = getNeighbours i j nrows ncols.
Proof.
  intros Hg Hmax. unfold getNeighbours_int, getNeighbours.
  rewrite range_window. cbn [fold_left].
  now rewrite !neighbourStep_int_eq by (try assumption; lia).
Qed.

(** Past that size the product overflows: on a grid of 46342 rows and 46341
    columns the index computed for the right neighbour of pixel (46341, 0)
    lies far outside the grid. *)
Example getNeighbours_int_overflow :
  In 18446744071562072602 (getNeighbours_int 46341 0 46342 46341) /\
  INT_MAX < 46342 * 46341.
Proof. split; [vm_compute; tauto | reflexivity]. Qed.

(** On a grid whose pixel count fits an [int], the 32-bit computation of
    [getNeighbours] overflows nowhere, and every index it returns for a pixel
    of the grid is an index of the grid. *)
Theorem X_neighbours_in_range (nrows ncols i j : Z) :
  inGrid nrows ncols i j -> nrows * ncols <= INT_MAX ->
  getNeighbours_int i j nrows ncols = getNeighbours i j nrows ncols /\
  forall s, In s (getNeighbours_int i j nrows ncols) -> 0 <= s < nrows * ncols.
Proof.
  intros Hg Hmax. pose proof (getNeighbours_int_eq nrows ncols i j Hg Hmax) as E.
  split; [exact E|]. intros s H. rewrite E in H.
  apply getNeighbours_inGrid in H. destruct H as [m [n [Hmn ->]]].
  now apply flatIndex_range.
Qed.

Lemma X_neighbours_in_range_witness :
  inGrid 3 3 0 0 /\ 3 * 3 <= INT_MAX /\
  getNeighbours_int 0 0 3 3 = getNeighbours 0 0 3 3.
Proof.
  assert (Hg : inGrid 3 3 0 0) by (unfold inGrid; lia).
  assert (Hm : 3 * 3 <= INT_MAX) by (unfold INT_MAX; lia).
  split; [exact Hg|]. split; [exact Hm|].
  exact (proj1 (X_neighbours_in_range 3 3 0 0 Hg Hm)).
Defined.

(** A pixel of the grid has no neighbour exactly when it is the only pixel. *)
Theorem X_neighbours_empty_iff (nrows ncols i j : Z) :
  inGrid nrows ncols i j ->
  (getNeighbours i j nrows ncols = [] <-> nrows = 1 /\ ncols = 1).
Proof.
  intros Hg. pose proof (length_getNeighbours i j nrows ncols Hg) as HL.
  destruct Hg as [Hi Hj]. split.
  - intros E. rewrite E in HL. cbn [length] in HL.
    destruct (Z.eqb_spec i 0), (Z.eqb_spec i (nrows - 1)),
      (Z.eqb_spec j 0), (Z.eqb_spec j (ncols - 1)); lia.
  - intros [-> ->]. assert (i = 0) by lia. assert (j = 0) by lia. subst.
    reflexivity.
Qed.

Lemma X_neighbours_empty_iff_witness :
  inGrid 1 1 0 0 /\ (getNeighbours 0 0 1 1 = [] <-> 1 = 1 /\ 1 = 1).
Proof.
  assert (Hg : inGrid 1 1 0 0) by (unfold inGrid; lia).
  split; [exact Hg | exact (X_neighbours_empty_iff 1 1 0 0 Hg)].
Defined.

Lemma nth_map_range {T : Type} (G : Z -> T) (n i : Z) (d : T) :
  0 <= i < n -> nth (Z.to_nat i) (map G (range 0 n)) d = G i.
Proof.
  intros Hi. unfold range. rewrite map_map, Z.sub_0_r.
  rewrite (nth_indep _ d (G (0 + Z.of_nat 0))) by (rewrite length_map, length_seq; lia).
  rewrite (map_nth (fun k => G (0 + Z.of_nat k)) (seq 0 (Z.to_nat n)) 0%nat).
  rewrite seq_nth by lia. f_equal. lia.
Qed.

Lemma length_concat_uniform {T : Type} (c : nat) (l : list (list T)) :
  Forall (fun row => length row = c) l -> length (concat l) = (length l * c)%nat.
Proof.
  induction 1 as [|row l Hrow H IH]; [reflexivity|].
  cbn [concat length]. rewrite length_app, IH, Hrow. lia.
Qed.

Lemma nth_concat_uniform {T : Type} (c : nat) (l : list (list T)) (i j : nat) (d : T) :
  Forall (fun row => length row = c) l -> (j < c)%nat ->
  nth (i * c + j) (concat l) d = nth j (nth i l []) d.
Proof.
  intros H Hj. revert i. induction H as [|row l Hrow H IH]; intros i.
  - cbn [concat]. destruct i; cbn [nth]; now destruct j, (_ + _)%nat.
  - cbn [concat]. destruct i as [|i]; cbn [nth].
    + rewrite app_nth1 by lia. f_equal.
    + rewrite app_nth2 by (rewrite Hrow; lia). rewrite Hrow.
      replace (S i * c + j - c)%nat with (i * c + j)%nat by lia. apply IH.
Qed.

Lemma wellFormed_uniform {T : Type} (m : Mat T) :
  wellFormed m -> Forall (fun row => length row = Z.to_nat (cols m)) (ptr m).
Proof.
  intros [_ H]. eapply Forall_impl; [|exact H]. intros row Hrow. simpl in Hrow. lia.
Qed.

(** [to1D] is row-major: on a matrix whose header agrees with its data the
    vector has [rows * cols] elements and the element of row [i], column [j]
    stands at index [i * cols + j]. *)
Theorem X_to1D_row_major {T : Type} (m : Mat T) (d : T) :
  wellFormed m ->
  Z.of_nat (length (to1D m)) = rows m * cols m /\
  forall i j, inGrid (rows m) (cols m) i j ->
              nth (Z.to_nat (flatIndex (cols m) i j)) (to1D m) d = matAt d m i j.
Proof.
  intros Hwf. pose proof (wellFormed_uniform m Hwf) as Hu.
  rewrite (to1D_wellFormed m Hwf). destruct Hwf as [Hrows Hcols]. split.
  - rewrite (length_concat_uniform _ _ Hu).
    destruct (ptr m) as [|row l] eqn:E.
    + cbn [length] in *. lia.
    + inversion Hcols; subst. cbn [length] in *. nia.
  - intros i j [Hi Hj]. unfold matAt, rowAt, flatIndex.
    replace (Z.to_nat (i * cols m + j))
      with (Z.to_nat i * Z.to_nat (cols m) + Z.to_nat j)%nat by nia.
    apply nth_concat_uniform; [exact Hu | lia].
Qed.

Lemma X_to1D_row_major_witness :
  wellFormed (mkMat 2 2 [[1; 2]; [3; 4]]) /\ inGrid 2 2 1 0 /\
  nth (Z.to_nat (flatIndex 2 1 0)) (to1D (mkMat 2 2 [[1; 2]; [3; 4]])) 0
  = matAt 0 (mkMat 2 2 [[1; 2]; [3; 4]]) 1 0.
Proof.
  assert (Hwf : wellFormed (mkMat 2 2 [[1; 2]; [3; 4]])).
  { split; [reflexivity | repeat constructor]. }
  assert (Hg : inGrid 2 2 1 0) by (unfold inGrid; lia).
  split; [exact Hwf|]. split; [exact Hg|].
  exact (proj2 (X_to1D_row_major (mkMat 2 2 [[1; 2]; [3; 4]]) 0 Hwf) 1 0 Hg).
Defined.

Lemma firstn_add {T : Type} (a b : nat) (l : list T) :
  firstn (a + b) l = firstn a l ++ firstn b (skipn a l).
Proof.
  revert l. induction a as [|a IH]; intros l; [reflexivity|].
  destruct l as [|x l]; cbn [Nat.add firstn skipn app].
  - now rewrite firstn_nil.
  - now rewrite IH.
Qed.

(** Consecutive chunks of [c] elements make up a prefix. *)
Lemma chunks_firstn {T : Type} (v : list T) (c k : nat) :
  flat_map (fun i => firstn c (skipn (i * c) v)) (seq 0 k) = firstn (k * c) v.
Proof.
  induction k as [|k IH]; [reflexivity|].
  rewrite seq_S, flat_map_app, IH. cbn [flat_map Nat.add]. rewrite app_nil_r.
  replace (S k * c)%nat with (k * c + c)%nat by lia. now rewrite firstn_add.
Qed.

Lemma chunk_concat_uniform {T : Type} (c : nat) (l : list (list T)) (i : nat) :
  Forall (fun row => length row = c) l -> (i < length l)%nat ->
  firstn c (skipn (i * c) (concat l)) = nth i l [].
Proof.
  intros H. revert i. induction H as [|row l Hrow H IH]; intros i Hi.
  - cbn [length] in Hi. lia.
  - cbn [concat]. destruct i as [|i]; cbn [nth].
    + cbn [Nat.mul skipn]. rewrite firstn_app, Hrow, Nat.sub_diag.
      cbn [firstn]. rewrite app_nil_r. rewrite <- Hrow. apply firstn_all.
    + rewrite skipn_app, Hrow.
      rewrite (skipn_all2 row) by lia. cbn [app].
      replace (S i * c - c)%nat with (i * c)%nat by lia.
      apply IH. cbn [length] in Hi. lia.
Qed.

Lemma rowAt_eigen2opencv (v : list R) (nrows ncols i : Z) :
  0 <= i < nrows ->
  rowAt (eigen2opencv v nrows ncols) i
  = firstn (Z.to_nat ncols) (skipn (Z.to_nat (i * ncols)) v).
Proof.
  intros Hi. unfold rowAt, eigen2opencv. cbn [ptr].
  now rewrite (nth_map_range
                 (fun i => firstn (Z.to_nat ncols) (skipn (Z.to_nat (i * ncols)) v))).
Qed.

Lemma wellFormed_eigen2opencv (v : list R) (nrows ncols : Z) :
  0 <= nrows -> 0 <= ncols -> Z.of_nat (length v) = nrows * ncols ->
  wellFormed (eigen2opencv v nrows ncols).
Proof.
  intros Hr Hc Hlen. unfold wellFormed, eigen2opencv. cbn [rows cols ptr]. split.
  - unfold range. rewrite !length_map, length_seq. lia.
  - apply Forall_forall. intros row Hrow. apply in_map_iff in Hrow.
    destruct Hrow as [i [<- Hi]]. apply In_range in Hi.
    rewrite length_firstn, length_skipn. nia.
Qed.

Lemma to1D_eigen2opencv (v : list R) (nrows ncols : Z) :
  0 <= nrows -> 0 <= ncols -> Z.of_nat (length v) = nrows * ncols ->
  to1D (eigen2opencv v nrows ncols) = v.
Proof.
  intros Hr Hc Hlen.
  rewrite (to1D_wellFormed _ (wellFormed_eigen2opencv v nrows ncols Hr Hc Hlen)).
  unfold eigen2opencv. cbn [ptr]. rewrite <- flat_map_concat_map.
  unfold range. rewrite Z.sub_0_r, flat_map_concat_map, map_map, <- flat_map_concat_map.
  rewrite (flat_map_ext _ (fun k => firstn (Z.to_nat ncols) (skipn (k * Z.to_nat ncols) v))).
  - rewrite chunks_firstn. apply firstn_all2. nia.
  - intros k. do 2 f_equal. nia.
Qed.

(** [eigen2opencv] undoes [to1D], and [to1D] undoes [eigen2opencv]: the
    value at index [i * ncols + j] of the vector is the value at row [i],
    column [j] of the matrix. *)
Theorem X_reshape_round_trip (v : list R) (nrows ncols : Z) :
  0 <= nrows -> 0 <= ncols -> Z.of_nat (length v) = nrows * ncols ->
  wellFormed (eigen2opencv v nrows ncols) /\
  to1D (eigen2opencv v nrows ncols) = v /\
  forall i j, inGrid nrows ncols i j ->
              matAt 0%R (eigen2opencv v nrows ncols) i j = vget v (flatIndex ncols i j).
Proof.
  intros Hr Hc Hlen. split; [now apply wellFormed_eigen2opencv|].
  split; [now apply to1D_eigen2opencv|].
  intros i j [Hi Hj]. unfold matAt, vget, flatIndex.
  rewrite rowAt_eigen2opencv by exact Hi.
  rewrite nth_firstn.
  destruct (Nat.ltb_spec (Z.to_nat j) (Z.to_nat ncols)) as [_|H]; [|lia].
  rewrite nth_skipn. f_equal. nia.
Qed.

Lemma X_reshape_round_trip_witness :
  0 <= 1 /\ 0 <= 2 /\ Z.of_nat (length [5%R; 7%R]) = 1 * 2 /\
  to1D (eigen2opencv [5%R; 7%R] 1 2) = [5%R; 7%R].
Proof.
  assert (H1 : 0 <= 1) by lia. assert (H2 : 0 <= 2) by lia.
  assert (H3 : Z.of_nat (length [5%R; 7%R]) = 1 * 2) by reflexivity.
  split; [exact H1|]. split; [exact H2|]. split; [exact H3|].
  exact (proj1 (proj2 (X_reshape_round_trip [5%R; 7%R] 1 2 H1 H2 H3))).
Defined.

(** Flattening a matrix of solver values and reshaping the vector gives the
    matrix back. *)
Theorem X_flatten_round_trip (m : Mat R) :
  wellFormed m -> eigen2opencv (to1D m) (rows m) (cols m) = m.
Proof.
  intros Hwf. pose proof (wellFormed_uniform m Hwf) as Hu.
  rewrite (to1D_wellFormed m Hwf). destruct Hwf as [Hrows Hcols].
  destruct m as [nr nc p]. cbn [rows cols ptr] in *. unfold eigen2opencv. f_equal.
  rewrite <- Hrows. unfold range. rewrite Z.sub_0_r, Nat2Z.id, map_map.
  transitivity (map (fun k => nth k p []) (seq 0 (length p))); [|apply map_nth_seq].
  apply map_ext_in. intros k Hk. apply in_seq in Hk.
  replace (Z.to_nat ((0 + Z.of_nat k) * nc)) with (k * Z.to_nat nc)%nat.
  - apply chunk_concat_uniform; [exact Hu | lia].
  - destruct p as [|row l]; [cbn [length] in Hk; lia|].
    inversion Hcols; subst. nia.
Qed.

Lemma X_flatten_round_trip_witness :
  wellFormed (mkMat 2 1 [[5%R]; [7%R]]) /\
  eigen2opencv (to1D (mkMat 2 1 [[5%R]; [7%R]])) 2 1 = mkMat 2 1 [[5%R]; [7%R]].
Proof.
  assert (Hwf : wellFormed (mkMat 2 1 [[5%R]; [7%R]])).
  { split; [reflexivity | repeat constructor]. }
  split; [exact Hwf | exact (X_flatten_round_trip (mkMat 2 1 [[5%R]; [7%R]]) Hwf)].
Defined.

(** On a grid of a single row the two end pixels have one neighbour and every
    other pixel has two. *)
Theorem X_neighbours_single_row (ncols j : Z) :
  2 <= ncols -> 0 <= j < ncols ->
  length (getNeighbours 0 j 1 ncols)
  = if (j =? 0) || (j =? ncols - 1) then 1%nat else 2%nat.
Proof.
  intros Hn Hj.
  pose proof (length_getNeighbours 0 j 1 ncols ltac:(unfold inGrid; lia)) as HL.
  cbn [Z.eqb Z.sub Z.add Z.opp Z.pos_sub] in HL.
  destruct (Z.eqb_spec j 0), (Z.eqb_spec j (ncols - 1)); cbn [orb]; lia.
Qed.

Lemma X_neighbours_single_row_witness :
  2 <= 3 /\ 0 <= 1 < 3 /\ length (getNeighbours 0 1 1 3) = 2%nat.
Proof.
  assert (Hn : 2 <= 3) by lia. assert (Hj : 0 <= 1 < 3) by lia.
  split; [exact Hn|]. split; [exact Hj|].
  exact (X_neighbours_single_row 3 1 Hn Hj).
Defined.

(** ** Variance and weights *)

Section WeightProperties.
Local Open Scope R_scope.

(** The result of [getWeights], neighbour by neighbour. *)
Lemma getWeights_affinity (Y : list R) (r : Z) (neighbors : list Z) (gamma : R) :
  getWeights Y r neighbors gamma
  = map (fun s => affinity Y gamma r neighbors s
                  / Rsum (map (affinity Y gamma r neighbors) neighbors)) neighbors.
Proof.
  rewrite getWeights_eq, kernelWeights_normalizer, kernelWeights_affinity.
  now rewrite map_map.
Qed.



Lemma In_le_Rsum (l : list R) (e : R) :
  Forall (fun w => 0 < w) l -> In e l -> e <= Rsum l.
Proof.
  intros H. induction H as [|x l Hx H IH]; intros Hin; [contradiction|].
  cbn [Rsum fold_right]. fold (Rsum l).
  assert (0 <= Rsum l).
  { clear IH Hin. induction H as [|y l Hy H IH]; simpl; [lra|]. fold (Rsum l). lra. }
  destruct Hin as [->|Hin]; [lra|]. specialize (IH Hin). lra.
Qed.


(** On a flat luminance, where every neighbour has the luminance of the
    pixel, the weights are uniform. *)
Theorem X_weights_uniform (Y : list R) (r : Z) (neighbors : list Z) (gamma : R) :
  (forall s, In s neighbors -> vget Y s = vget Y r) ->
  getWeights Y r neighbors gamma
  = map (fun _ => 1 / INR (length neighbors)) neighbors.
Proof.
  intros Hflat. rewrite getWeights_affinity.
  assert (Ha : forall s, In s neighbors -> affinity Y gamma r neighbors s = 1).
  { intros s Hs. unfold affinity. rewrite (Hflat s Hs).
    replace (- gamma * ((vget Y r - vget Y r) * (vget Y r - vget Y r))
             / (2 * sigma2 Y r neighbors)) with 0; [apply exp_0|].
    unfold Rdiv. ring. }
  rewrite (map_ext_in (affinity Y gamma r neighbors) (fun _ => 1) neighbors Ha).
  assert (Hs : Rsum (map (fun _ : Z => 1) neighbors) = INR (length neighbors)).
  { clear. induction neighbors as [|s l IH]; [reflexivity|].
    cbn [map Rsum fold_right length]. fold (Rsum (map (fun _ : Z => 1) l)).
    rewrite IH, S_INR. ring. }
  rewrite Hs. apply map_ext_in. intros s Hin. now rewrite (Ha s Hin).
Qed.

Lemma X_weights_uniform_witness :
  (forall s, In s [1%Z; 2%Z] -> vget [4; 4; 4] s = vget [4; 4; 4] 0) /\
  getWeights [4; 4; 4] 0 [1%Z; 2%Z] 2 = [1 / INR 2; 1 / INR 2].
Proof.
  assert (H : forall s, In s [1%Z; 2%Z] -> vget [4; 4; 4] s = vget [4; 4; 4] 0).
  { intros s [<-|[<-|[]]]; reflexivity. }
  split; [exact H | exact (X_weights_uniform [4; 4; 4] 0%Z [1%Z; 2%Z] 2 H)].
Defined.

Lemma getWeights_unit_interval (Y : list R) (r : Z) (neighbors : list Z) (gamma : R) :
  Forall (fun w => 0 < w <= 1) (getWeights Y r neighbors gamma).
Proof.
  destruct neighbors as [|s0 l0] eqn:E; [constructor|]. rewrite <- E.
  assert (Hne : neighbors <> []) by (rewrite E; discriminate).
  rewrite getWeights_eq. apply Forall_forall. intros w Hw.
  apply in_map_iff in Hw. destruct Hw as [e [<- He]].
  pose proof (kernelWeights_pos Y r neighbors gamma) as Hp.
  pose proof (normalizer_pos Y r neighbors gamma Hne) as Hn.
  pose proof (In_le_Rsum _ e Hp He) as Hle.
  rewrite <- kernelWeights_normalizer in Hle.
  rewrite Forall_forall in Hp. specialize (Hp e He). split.
  - now apply Rdiv_lt_0_compat.
  - apply Rmult_le_reg_r with (r := snd (kernelWeights Y r neighbors gamma)); [exact Hn|].
    unfold Rdiv. rewrite Rmult_assoc, Rinv_l by lra. lra.
Qed.

Lemma Rsum_le_length (l : list R) :
  Forall (fun x => x <= 1) l -> Rsum l <= INR (length l).
Proof.
  induction 1 as [|x l Hx H IH]; [simpl; lra|].
  cbn [Rsum fold_right length]. fold (Rsum l). rewrite S_INR. lra.
Qed.

(** For luminances in [0, 255], at most 8 neighbours and [0 < gamma <= 75],
    no assertion fails and no weight is 0: each is at least
    [exp (-675) / 8], and none exceeds 1. *)
Theorem X_weights_positive (Y : list R) (r : Z) (neighbors : list Z) (gamma : R) :
  isLuminance Y -> (length neighbors <= 8)%nat -> safeGamma gamma ->
  getWeights_checked Y r neighbors gamma = Done (getWeights Y r neighbors gamma) /\
  0 < exp (- 675) / 8 /\
  Forall (fun w => exp (- 675) / 8 <= w <= 1) (getWeights Y r neighbors gamma).
Proof.
  intros Hlum Hlen Hg. split; [now apply getWeights_checked_luminance|].
  pose proof (exp_pos (- 675)) as He. split; [lra|].
  destruct neighbors as [|s0 l0] eqn:E; [constructor|]. rewrite <- E in *.
  assert (Hne : neighbors <> []) by (rewrite E; discriminate).
  pose proof (getWeights_unit_interval Y r neighbors gamma) as Hu.
  rewrite Forall_forall in Hu. apply Forall_forall. intros w Hw.
  split; [|now apply Hu].
  rewrite getWeights_eq in Hw. apply in_map_iff in Hw. destruct Hw as [e [<- Hin]].
  pose proof (normalizer_pos Y r neighbors gamma Hne) as Hn.
  pose proof (kernelArguments_safe Y r neighbors gamma Hlen Hg) as Hs.
  rewrite Forall_forall in Hs.
  assert (Hsum : snd (kernelWeights Y r neighbors gamma) <= 8).
  { rewrite kernelWeights_normalizer, kernelWeights_arguments.
    transitivity (INR (length (map exp (kernelArguments Y r neighbors gamma)))).
    - apply Rsum_le_length, Forall_forall. intros x Hx. apply in_map_iff in Hx.
      destruct Hx as [a [<- Ha]]. rewrite <- exp_0. apply exp_monotone. now apply Hs.
    - rewrite length_map, length_kernelArguments.
      replace 8 with (INR 8) by (simpl; lra). now apply le_INR. }
  rewrite kernelWeights_arguments in Hin. apply in_map_iff in Hin.
  destruct Hin as [a [<- Ha]].
  assert (Hea : exp (- 675) <= exp a) by (apply exp_monotone; now apply Hs).
  set (n := snd (kernelWeights Y r neighbors gamma)) in *.
  unfold Rdiv.
  assert (Hinv : / 8 <= / n) by (apply Rinv_le_contravar; lra).
  assert (0 < / n) by (apply Rinv_0_lt_compat; lra).
  nra.
Qed.

Lemma X_weights_positive_witness :
  isLuminance [0; 255; 255] /\ (length [1%Z; 2%Z] <= 8)%nat /\ safeGamma 2 /\
  Forall (fun w => exp (- 675) / 8 <= w <= 1) (getWeights [0; 255; 255] 0 [1%Z; 2%Z] 2).
Proof.
  assert (Hlum : isLuminance [0; 255; 255]) by (repeat constructor; lra).
  assert (Hlen : (length [1%Z; 2%Z] <= 8)%nat) by (simpl; lia).
  assert (Hg : safeGamma 2) by (unfold safeGamma, gamma_max; lra).
  split; [exact Hlum|]. split; [exact Hlen|]. split; [exact Hg|].
  exact (proj2 (proj2 (X_weights_positive [0; 255; 255] 0%Z [1%Z; 2%Z] 2 Hlum Hlen Hg))).
Defined.

(** For luminances in [0, 255], between 1 and 8 neighbours and
    [0 < gamma <= 75], [getWeights] passes every assertion, no argument of
    [exp] lies below -675, and it returns one weight per neighbour, none
    negative, of sum 1. *)
Theorem X_weights_distribution (Y : list R) (r : Z) (neighbors : list Z) (gamma : R) :
  isLuminance Y -> (length neighbors <= 8)%nat -> safeGamma gamma -> neighbors <> [] ->
  let weights := getWeights Y r neighbors gamma in
  getWeights_checked Y r neighbors gamma = Done weights /\
  Forall (fun a => - 675 <= a <= 0) (kernelArguments Y r neighbors gamma) /\
  length weights = length neighbors /\
  Forall (fun w => 0 <= w) weights /\
  Rsum weights = 1.
Proof.
  intros Hlum Hlen Hg Hne weights.
  split; [now apply getWeights_checked_luminance|].
  split; [now apply kernelArguments_safe|].
  split; [apply length_getWeights|].
  split; [apply getWeights_nonneg | now apply getWeights_sum].
Qed.

Lemma X_weights_distribution_witness :
  isLuminance [0; 255; 255] /\ (length [1%Z; 2%Z] <= 8)%nat /\ safeGamma 2 /\
  [1%Z; 2%Z] <> [] /\
  Rsum (getWeights [0; 255; 255] 0 [1%Z; 2%Z] 2) = 1.
Proof.
  assert (Hlum : isLuminance [0; 255; 255]) by (repeat constructor; lra).
  assert (Hlen : (length [1%Z; 2%Z] <= 8)%nat) by (simpl; lia).
  assert (Hg : safeGamma 2) by (unfold safeGamma, gamma_max; lra).
  assert (Hne : [1%Z; 2%Z] <> []) by discriminate.
  split; [exact Hlum|]. split; [exact Hlen|]. split; [exact Hg|]. split; [exact Hne|].
  exact (proj2 (proj2 (proj2 (proj2
           (X_weights_distribution [0; 255; 255] 0%Z [1%Z; 2%Z] 2 Hlum Hlen Hg Hne))))).
Defined.



End WeightProperties.

(** On a sample of 1 to 9 copies of one 8-bit value, binary64 [variance]
    passes its two assertions and returns exactly its floor: every such
    sample is evaluated. *)
Theorem X_variance_flat (NDEBUG : bool) (c : Z) (n : nat) :
  0 <= c <= 255 -> (1 <= n <= 9)%nat ->
  variance_d NDEBUG (repeat (double_of_Z c) n) eps_d = Done eps_d.
Proof.
  intros Hc Hn.
  assert (Hall : forallb (fun b => forallb (fun c => forallb (flatVarianceCheck b c) (seq 1 9))
                                           (range 0 256)) [true; false] = true)
    by (vm_compute; reflexivity).
  rewrite forallb_forall in Hall.
  assert (Hb : In NDEBUG [true; false]) by (destruct NDEBUG; cbn; tauto).
  specialize (Hall NDEBUG Hb). rewrite forallb_forall in Hall.
  specialize (Hall c (proj2 (In_range 0 256 c) ltac:(lia))).
  rewrite forallb_forall in Hall.
  specialize (Hall n (proj2 (in_seq 9 1 n) ltac:(lia))).
  unfold flatVarianceCheck in Hall.
  destruct (variance_d NDEBUG (repeat (double_of_Z c) n) eps_d) as [v|]; [|discriminate].
  apply FloatAxioms.Leibniz.eqb_spec in Hall. now subst.
Qed.

Lemma X_variance_flat_witness :
  0 <= 247 <= 255 /\ (1 <= 9 <= 9)%nat /\
  variance_d false (repeat (double_of_Z 247) 9) eps_d = Done eps_d.
Proof.
  assert (Hc : 0 <= 247 <= 255) by lia.
  assert (Hn : (1 <= 9 <= 9)%nat) by lia.
  split; [exact Hc|]. split; [exact Hn|].
  exact (X_variance_flat false 247 9%nat Hc Hn).
Defined.

(** On values far from the 8-bit range the two sums of [variance] cancel
    badly: three copies of 100000000.1 give 2.01, not 0.01. *)
Example variance_cancellation :
  variance_d false (repeat 0x1.7d78400666666p+26%float 3) eps_d
  = Done 0x1.0147ae147ae14p+1%float.
Proof. vm_compute. reflexivity. Qed.

(** ** The mask *)

Lemma combine_map_same {S T U : Type} (f : S -> T) (g : S -> U) (l : list S) :
  combine (map f l) (map g l) = map (fun x => (f x, g x)) l.
Proof. induction l as [|x l IH]; cbn [map combine]; [reflexivity | now rewrite IH]. Qed.

Lemma zipMat_mapMat_same {S T U V : Type} (g : T -> U -> V) (f1 : S -> T) (f2 : S -> U)
  (m : Mat S) :
  zipMat g (mapMat f1 m) (mapMat f2 m) = mapMat (fun x => g (f1 x) (f2 x)) m.
Proof.
  unfold zipMat, mapMat. cbn [rows cols ptr]. f_equal.
  rewrite combine_map_same, map_map. apply map_ext. intros row. cbn [fst snd].
  now rewrite combine_map_same, map_map.
Qed.

(** [getScribbleMask] erodes the thresholded sum of the differences. *)
Lemma getScribbleMask_rawMask (image scribbles : Mat (Pixel Z)) (eps : Q) (nErosions : nat) :
  getScribbleMask image scribbles eps nErosions = erode (rawMask image scribbles eps) nErosions.
Proof.
  unfold getScribbleMask, rawMask, split, addMat, threshold_binary. cbv zeta. cbn [fst snd].
  change (absdiff image scribbles) with (zipMat pixelDiff image scribbles).
  rewrite !zipMat_mapMat_same, mapMat_mapMat. reflexivity.
Qed.

Lemma rows_erode (m : Mat Z) (n : nat) : rows (erode m n) = rows m /\ cols (erode m n) = cols m.
Proof.
  induction n as [|n IH]; [unfold erode; cbn [Nat.iter]; tauto|].
  change (erode m (S n)) with (erodeOnce (erode m n)).
  change (rows (erodeOnce (erode m n))) with (rows (erode m n)).
  change (cols (erodeOnce (erode m n))) with (cols (erode m n)).
  exact IH.
Qed.

Lemma pixelAt_binary (m : Mat Z) (i j : Z) :
  binaryMask m -> pixelAt m i j = 0 \/ pixelAt m i j = 255.
Proof.
  intros H. unfold pixelAt, rowAt.
  destruct (nth_in_or_default (Z.to_nat i) (ptr m) []) as [Hrow|E].
  - unfold binaryMask in H. rewrite Forall_forall in H. specialize (H _ Hrow).
    destruct (nth_in_or_default (Z.to_nat j) (nth (Z.to_nat i) (ptr m) []) 0) as [Hx|E].
    + rewrite Forall_forall in H. now apply H.
    + now left.
  - rewrite E. left. now destruct (Z.to_nat j).
Qed.

Lemma fold_min_binary (l : list Z) (a : Z) :
  Forall (fun x => x = 0 \/ x = 255) l -> a = 0 \/ a = 255 ->
  fold_left Z.min l a = 0 \/ fold_left Z.min l a = 255.
Proof.
  intros H. revert a. induction H as [|x l Hx H IH]; intros a Ha; [exact Ha|].
  cbn [fold_left]. apply IH. lia.
Qed.

Lemma fold_min_le (l : list Z) (a : Z) :
  fold_left Z.min l a <= a /\ forall x, In x l -> fold_left Z.min l a <= x.
Proof.
  revert a. induction l as [|y l IH]; intros a; cbn [fold_left]; [split; [lia|contradiction]|].
  destruct (IH (Z.min a y)) as [H1 H2]. split; [lia|].
  intros x [<-|Hx]; [lia | now apply H2].
Qed.

Lemma binaryMask_erodeOnce (m : Mat Z) : binaryMask m -> binaryMask (erodeOnce m).
Proof.
  intros H. unfold binaryMask, erodeOnce. cbn [ptr].
  apply Forall_forall. intros row Hrow. apply in_map_iff in Hrow.
  destruct Hrow as [i [<- _]]. apply Forall_forall. intros x Hx.
  apply in_map_iff in Hx. destruct Hx as [j [<- _]].
  apply fold_min_binary; [|now right].
  apply Forall_forall. intros y Hy. apply in_map_iff in Hy.
  destruct Hy as [p [<- _]]. now apply pixelAt_binary.
Qed.

Lemma binaryMask_erode (m : Mat Z) (n : nat) : binaryMask m -> binaryMask (erode m n).
Proof.
  intros H. unfold erode. induction n as [|n IH]; [exact H|].
  cbn [Nat.iter]. now apply binaryMask_erodeOnce.
Qed.

Lemma binaryMask_rawMask (image scribbles : Mat (Pixel Z)) (eps : Q) :
  binaryMask (rawMask image scribbles eps).
Proof.
  unfold binaryMask, rawMask, mapMat. cbn [ptr].
  apply Forall_forall. intros row Hrow. apply in_map_iff in Hrow.
  destruct Hrow as [row0 [<- _]]. apply Forall_forall. intros x Hx.
  apply in_map_iff in Hx. destruct Hx as [d [<- _]].
  unfold thresholdValue. destruct (Qfloor eps <? channelSum d); [now right | now left].
Qed.

Lemma length_rowAt {T : Type} (m : Mat T) (i : Z) :
  wellFormed m -> 0 <= i < rows m -> Z.of_nat (length (rowAt m i)) = cols m.
Proof.
  intros [Hrows Hcols] Hi. unfold rowAt. rewrite Forall_forall in Hcols.
  apply Hcols, nth_In. lia.
Qed.

Lemma rowAt_mapMat {S T : Type} (f : S -> T) (m : Mat S) (i : Z) :
  rowAt (mapMat f m) i = map f (rowAt m i).
Proof. unfold rowAt, mapMat. cbn [ptr]. apply (map_nth (map f) (ptr m) []). Qed.

Lemma rowAt_zipMat {S T U : Type} (f : S -> T -> U) (a : Mat S) (b : Mat T) (i : Z) :
  wellFormed a -> wellFormed b -> sameSize a b -> 0 <= i < rows a ->
  rowAt (zipMat f a b) i
  = map (fun p => f (fst p) (snd p)) (combine (rowAt a i) (rowAt b i)).
Proof.
  intros [Ha _] [Hb _] [Hr _] Hi. unfold rowAt, zipMat. cbn [ptr].
  rewrite (nth_indep _ []
             ((fun rs => map (fun p => f (fst p) (snd p)) (combine (fst rs) (snd rs)))
                ([], [])))
    by (rewrite length_map, length_combine; lia).
  rewrite (map_nth (fun rs => map (fun p => f (fst p) (snd p)) (combine (fst rs) (snd rs)))).
  rewrite combine_nth by lia. reflexivity.
Qed.

Lemma matAt_zipMat {S T U : Type} (f : S -> T -> U) (a : Mat S) (b : Mat T)
  (da : S) (db : T) (d : U) (i j : Z) :
  wellFormed a -> wellFormed b -> sameSize a b -> inGrid (rows a) (cols a) i j ->
  Z.of_nat (length (rowAt (zipMat f a b) i)) = cols a /\
  matAt d (zipMat f a b) i j = f (matAt da a i j) (matAt db b i j).
Proof.
  intros Ha Hb Hs [Hi Hj]. pose proof Hs as [Hr Hc].
  pose proof (length_rowAt a i Ha Hi) as La.
  pose proof (length_rowAt b i Hb ltac:(lia)) as Lb.
  unfold matAt. rewrite (rowAt_zipMat f a b i Ha Hb Hs Hi). split.
  - rewrite length_map, length_combine. lia.
  - rewrite (nth_indep _ d ((fun p => f (fst p) (snd p)) (da, db)))
      by (rewrite length_map, length_combine; lia).
    rewrite (map_nth (fun p => f (fst p) (snd p))).
    rewrite combine_nth by lia. reflexivity.
Qed.

(** The value of the mask before the erosions at a position of the image. *)
Lemma pixelAt_rawMask (image scribbles : Mat (Pixel Z)) (eps : Q) (i j : Z) :
  wellFormed image -> wellFormed scribbles -> sameSize image scribbles ->
  inGrid (rows image) (cols image) i j ->
  pixelAt (rawMask image scribbles eps) i j
  = thresholdValue eps
      (channelSum (pixelDiff (matAt (0, 0, 0) image i j) (matAt (0, 0, 0) scribbles i j))).
Proof.
  intros Ha Hb Hs Hg.
  destruct (matAt_zipMat pixelDiff image scribbles (0, 0, 0) (0, 0, 0) (0, 0, 0) i j
              Ha Hb Hs Hg) as [Hlen Hat].
  unfold pixelAt, rawMask. rewrite rowAt_mapMat.
  rewrite (nth_indep _ 0 ((fun d => thresholdValue eps (channelSum d)) (0, 0, 0)))
    by (rewrite length_map; destruct Hg; lia).
  rewrite (map_nth (fun d => thresholdValue eps (channelSum d))).
  cbv beta. unfold matAt in Hat. now rewrite Hat.
Qed.

Lemma pixelDiff_same (p : Pixel Z) : channelSum (pixelDiff p p) = 0.
Proof.
  destruct p as [[p0 p1] p2]. unfold pixelDiff. rewrite !Z.sub_diag. reflexivity.
Qed.

Lemma pixelAt_erodeOnce (m : Mat Z) (i j : Z) :
  inGrid (rows m) (cols m) i j ->
  pixelAt (erodeOnce m) i j
  = fold_left Z.min (map (fun p => pixelAt m (fst p) (snd p)) (elementAt m i j)) 255.
Proof.
  intros [Hi Hj]. unfold pixelAt at 1, rowAt, erodeOnce. cbn [ptr].
  rewrite (nth_map_range _ (rows m) i []) by exact Hi.
  now rewrite (nth_map_range _ (cols m) j 0) by exact Hj.
Qed.

Lemma In_elementAt (m : Mat Z) (i j i' j' : Z) :
  In (i', j') (elementAt m i j)
  <-> -1 <= i' - i <= 1 /\ -1 <= j' - j <= 1 /\ inGrid (rows m) (cols m) i' j'.
Proof.
  unfold elementAt, inGrid. rewrite filter_In, in_flat_map. unfold inImage. cbn [fst snd].
  rewrite !andb_true_iff, !Z.leb_le, !Z.ltb_lt. split.
  - intros [[dy [Hdy Hin]] H]. apply in_map_iff in Hin. destruct Hin as [dx [E Hdx]].
    apply In_range in Hdy, Hdx. injection E as <- <-. lia.
  - intros (H1 & H2 & H3). split; [|lia].
    exists (i' - i). split; [apply In_range; lia|].
    apply in_map_iff. exists (j' - j). split; [f_equal; lia | apply In_range; lia].
Qed.

(** An erosion lowers no value below 0 and raises none: a position is kept
    only when every position of the image in its 3x3 window was set. *)
Lemma erodeOnce_window (m : Mat Z) (i j i' j' : Z) :
  binaryMask m -> inGrid (rows m) (cols m) i j -> In (i', j') (elementAt m i j) ->
  0 <= pixelAt (erodeOnce m) i j <= pixelAt m i' j'.
Proof.
  intros Hb Hg Hin. rewrite (pixelAt_erodeOnce m i j Hg). split.
  - assert (H : fold_left Z.min (map (fun p => pixelAt m (fst p) (snd p)) (elementAt m i j)) 255 = 0
                \/ fold_left Z.min (map (fun p => pixelAt m (fst p) (snd p)) (elementAt m i j)) 255 = 255).
    { apply fold_min_binary; [|now right].
      apply Forall_forall. intros y Hy. apply in_map_iff in Hy.
      destruct Hy as [p [<- _]]. now apply pixelAt_binary. }
    lia.
  - apply fold_min_le. apply in_map_iff. now exists (i', j').
Qed.

Lemma erode_pointwise (m : Mat Z) (n : nat) (i j : Z) :
  binaryMask m -> inGrid (rows m) (cols m) i j ->
  0 <= pixelAt (erode m n) i j <= pixelAt m i j.
Proof.
  intros Hb Hg. induction n as [|n IH].
  - change (erode m 0) with m. destruct (pixelAt_binary m i j Hb); lia.
  - change (erode m (S n)) with (erodeOnce (erode m n)).
    destruct (rows_erode m n) as [Hr Hc].
    assert (Hg' : inGrid (rows (erode m n)) (cols (erode m n)) i j) by (rewrite Hr, Hc; exact Hg).
    pose proof (erodeOnce_window (erode m n) i j i j (binaryMask_erode m n Hb) Hg'
                  (proj2 (In_elementAt (erode m n) i j i j) ltac:(split; [lia|split; [lia|exact Hg']])))
      as H.
    lia.
Qed.

(** Every value of the mask is 0 or 255, and the mask has the header of the
    image; when the two images are matrices of the same size, so is the
    mask. *)
Theorem X_mask_binary (image scribbles : Mat (Pixel Z)) (eps : Q) (nErosions : nat) :
  let mask := getScribbleMask image scribbles eps nErosions in
  binaryMask mask /\ rows mask = rows image /\ cols mask = cols image /\
  (wellFormed image -> wellFormed scribbles -> sameSize image scribbles -> wellFormed mask).
Proof.
  intros mask. unfold mask. rewrite getScribbleMask_rawMask.
  destruct (rows_erode (rawMask image scribbles eps) nErosions) as [Hr Hc].
  split; [apply binaryMask_erode, binaryMask_rawMask|].
  split; [exact Hr|]. split; [exact Hc|].
  intros Ha Hb Hs. destruct nErosions as [|n].
  - change (erode (rawMask image scribbles eps) 0) with (rawMask image scribbles eps).
    unfold wellFormed, rawMask, mapMat. cbn [rows cols ptr].
    pose proof Ha as [Har Hac]. pose proof Hb as [Hbr Hbc]. pose proof Hs as [Hsr Hsc].
    unfold zipMat. cbn [rows cols ptr]. split.
    + rewrite !length_map, length_combine. lia.
    + apply Forall_forall. intros row Hrow. apply in_map_iff in Hrow.
      destruct Hrow as [row0 [<- Hrow0]]. apply in_map_iff in Hrow0.
      destruct Hrow0 as [[ra rb] [<- Hin]]. cbn [fst snd].
      rewrite !length_map, length_combine.
      rewrite Forall_forall in Hac, Hbc.
      pose proof (Hac ra (in_combine_l _ _ _ _ Hin)).
      pose proof (Hbc rb (in_combine_r _ _ _ _ Hin)). lia.
  - change (erode (rawMask image scribbles eps) (S n))
      with (erodeOnce (erode (rawMask image scribbles eps) n)).
    destruct (rows_erode (rawMask image scribbles eps) n) as [Hr' Hc'].
    unfold wellFormed, erodeOnce. cbn [rows cols ptr]. rewrite Hr', Hc'.
    unfold rawMask, mapMat, zipMat. cbn [rows cols].
    destruct Ha as [Har Hac]. split.
    + unfold range. rewrite !length_map, length_seq. lia.
    + apply Forall_forall. intros row Hrow. apply in_map_iff in Hrow.
      destruct Hrow as [i [<- Hi]]. apply In_range in Hi.
      unfold range. rewrite !length_map, length_seq.
      destruct (ptr image) as [|r0 l]; [cbn [length] in Har; lia|].
      inversion Hac; subst. lia.
Qed.

Lemma X_mask_binary_witness :
  let image := mkMat 1 1 [[(0, 0, 0)]] in
  wellFormed image /\ sameSize image image /\
  wellFormed (getScribbleMask image image 1 1).
Proof.
  intros image.
  assert (Hwf : wellFormed image) by (split; [reflexivity | repeat constructor]).
  assert (Hs : sameSize image image) by (split; reflexivity).
  split; [exact Hwf|]. split; [exact Hs|].
  exact (proj2 (proj2 (proj2 (X_mask_binary image image 1 1%nat))) Hwf Hwf Hs).
Defined.

(** A pixel the scribbles leave as it is in the image is never marked, for
    every threshold that is not negative and every number of erosions. *)
Theorem X_mask_untouched (image scribbles : Mat (Pixel Z)) (eps : Q) (nErosions : nat)
  (i j : Z) :
  wellFormed image -> wellFormed scribbles -> sameSize image scribbles ->
  inGrid (rows image) (cols image) i j -> 0 <= Qfloor eps ->
  matAt (0, 0, 0) image i j = matAt (0, 0, 0) scribbles i j ->
  pixelAt (getScribbleMask image scribbles eps nErosions) i j = 0.
Proof.
  intros Ha Hb Hs Hg Heps E. rewrite getScribbleMask_rawMask.
  pose proof (pixelAt_rawMask image scribbles eps i j Ha Hb Hs Hg) as Hraw.
  rewrite E, pixelDiff_same in Hraw. unfold thresholdValue in Hraw.
  destruct (Z.ltb_spec (Qfloor eps) 0) as [Hlt|_]; [lia|].
  pose proof (erode_pointwise (rawMask image scribbles eps) nErosions i j
                (binaryMask_rawMask image scribbles eps) Hg) as H.
  lia.
Qed.

Lemma X_mask_untouched_witness :
  let image := mkMat 1 2 [[(0, 0, 0); (0, 0, 0)]] in
  let scribbles := mkMat 1 2 [[(0, 0, 0); (9, 9, 9)]] in
  wellFormed image /\ wellFormed scribbles /\ sameSize image scribbles /\
  inGrid 1 2 0 0 /\ 0 <= Qfloor 1 /\
  pixelAt (getScribbleMask image scribbles 1 0) 0 0 = 0.
Proof.
  intros image scribbles.
  assert (Ha : wellFormed image) by (split; [reflexivity | repeat constructor]).
  assert (Hb : wellFormed scribbles) by (split; [reflexivity | repeat constructor]).
  assert (Hs : sameSize image scribbles) by (split; reflexivity).
  assert (Hg : inGrid 1 2 0 0) by (unfold inGrid; lia).
  assert (He : 0 <= Qfloor 1) by (vm_compute; discriminate).
  split; [exact Ha|]. split; [exact Hb|]. split; [exact Hs|]. split; [exact Hg|].
  split; [exact He|].
  exact (X_mask_untouched image scribbles 1 0%nat 0 0 Ha Hb Hs Hg He eq_refl).
Defined.

(** After at least one erosion a marked pixel has only painted pixels
    around it: the scribbles differ from the image at every position of the
    image in its 3x3 window. *)
Theorem X_mask_eroded (image scribbles : Mat (Pixel Z)) (eps : Q) (n : nat)
  (i j i' j' : Z) :
  wellFormed image -> wellFormed scribbles -> sameSize image scribbles ->
  inGrid (rows image) (cols image) i j -> 0 <= Qfloor eps ->
  pixelAt (getScribbleMask image scribbles eps (S n)) i j <> 0 ->
  inGrid (rows image) (cols image) i' j' -> -1 <= i' - i <= 1 -> -1 <= j' - j <= 1 ->
  matAt (0, 0, 0) image i' j' <> matAt (0, 0, 0) scribbles i' j'.
Proof.
  intros Ha Hb Hs Hg Heps Hm Hg' Hi Hj E. apply Hm. clear Hm.
  rewrite getScribbleMask_rawMask.
  change (erode (rawMask image scribbles eps) (S n))
    with (erodeOnce (erode (rawMask image scribbles eps) n)).
  set (raw := rawMask image scribbles eps).
  assert (Hbin : binaryMask raw) by apply binaryMask_rawMask.
  assert (Hraw : pixelAt raw i' j' = 0).
  { unfold raw. rewrite (pixelAt_rawMask image scribbles eps i' j' Ha Hb Hs Hg').
    rewrite E, pixelDiff_same. unfold thresholdValue.
    destruct (Z.ltb_spec (Qfloor eps) 0); [lia|reflexivity]. }
  destruct (rows_erode raw n) as [Hr Hc].
  assert (Hrows : rows raw = rows image) by reflexivity.
  assert (Hcols : cols raw = cols image) by reflexivity.
  pose proof (erode_pointwise raw n i' j' Hbin ltac:(rewrite Hrows, Hcols; exact Hg')) as Hle.
  pose proof (erodeOnce_window (erode raw n) i j i' j' (binaryMask_erode raw n Hbin)
                ltac:(rewrite Hr, Hc, Hrows, Hcols; exact Hg)
                ltac:(apply In_elementAt; rewrite Hr, Hc, Hrows, Hcols; tauto)) as Hw.
  lia.
Qed.

Lemma X_mask_eroded_witness :
  let image := mkMat 1 2 [[(0, 0, 0); (0, 0, 0)]] in
  let scribbles := mkMat 1 2 [[(9, 9, 9); (9, 9, 9)]] in
  wellFormed image /\ wellFormed scribbles /\ sameSize image scribbles /\
  inGrid 1 2 0 0 /\ 0 <= Qfloor 1 /\
  pixelAt (getScribbleMask image scribbles 1 1) 0 0 <> 0 /\
  inGrid 1 2 0 1 /\ -1 <= 0 - 0 <= 1 /\ -1 <= 1 - 0 <= 1 /\
  matAt (0, 0, 0) image 0 1 <> matAt (0, 0, 0) scribbles 0 1.
Proof.
  intros image scribbles.
  assert (Ha : wellFormed image) by (split; [reflexivity | repeat constructor]).
  assert (Hb : wellFormed scribbles) by (split; [reflexivity | repeat constructor]).
  assert (Hs : sameSize image scribbles) by (split; reflexivity).
  assert (Hg : inGrid 1 2 0 0) by (unfold inGrid; lia).
  assert (Hg' : inGrid 1 2 0 1) by (unfold inGrid; lia).
  assert (He : 0 <= Qfloor 1) by (vm_compute; discriminate).
  assert (Hm : pixelAt (getScribbleMask image scribbles 1 1) 0 0 <> 0)
    by (vm_compute; discriminate).
  assert (Hi : -1 <= 0 - 0 <= 1) by lia.
  assert (Hj : -1 <= 1 - 0 <= 1) by lia.
  repeat (split; [assumption|]).
  exact (X_mask_eroded image scribbles 1 0%nat 0 0 0 1 Ha Hb Hs Hg He Hm Hg' Hi Hj).
Defined.

(** ** The assembled system *)

Section SystemProperties.
Local Open Scope R_scope.

Lemma rowTriplets_sum (hasColor : list bool) (r : Z) (pairs : list (Z * R)) :
  Rsum (map value (rowTriplets hasColor r pairs))
  = - Rsum (map snd (freePairs hasColor pairs)).
Proof.
  induction pairs as [|[s w] pairs IH]; [simpl; ring|].
  unfold rowTriplets, freePairs. cbn [flat_map filter fst snd].
  fold (rowTriplets hasColor r pairs) (freePairs hasColor pairs).
  rewrite map_app, Rsum_app, IH.
  destruct (nth (Z.to_nat s) hasColor false); cbn [negb];
    unfold Rsum; cbn [map value snd fold_right]; ring.
Qed.

Lemma pairs_partition (hasColor : list bool) (pairs : list (Z * R)) :
  Rsum (map snd pairs)
  = Rsum (map snd (constrainedPairs hasColor pairs)) + Rsum (map snd (freePairs hasColor pairs)).
Proof.
  induction pairs as [|[s w] pairs IH]; [simpl; ring|].
  unfold constrainedPairs, freePairs. cbn [filter fst snd].
  fold (constrainedPairs hasColor pairs) (freePairs hasColor pairs).
  destruct (nth (Z.to_nat s) hasColor false); cbn [negb];
    unfold Rsum in *; cbn [map snd fold_right]; rewrite IH; ring.
Qed.

Lemma Rsum_nonneg (l : list R) : Forall (fun w => 0 <= w) l -> 0 <= Rsum l.
Proof.
  induction 1 as [|x l Hx H IH]; simpl; [lra|]. fold (Rsum l). lra.
Qed.

Lemma weightedNeighbours_nonneg (nrows ncols : Z) (y : list R) (gamma : R) (i j : Z)
  (f : Z * R -> bool) :
  0 <= Rsum (map snd (filter f (weightedNeighbours nrows ncols y gamma i j))).
Proof.
  apply Rsum_nonneg, Forall_forall. intros w Hw. apply in_map_iff in Hw.
  destruct Hw as [[s w'] [<- Hin]]. apply filter_In in Hin. destruct Hin as [Hin _].
  unfold weightedNeighbours in Hin. apply in_combine_r in Hin.
  pose proof (getWeights_nonneg y (flatIndex ncols i j) (getNeighbours i j nrows ncols) gamma) as H.
  rewrite Forall_forall in H. now apply H.
Qed.

Lemma weightedNeighbours_total (nrows ncols : Z) (y : list R) (gamma : R) (i j : Z) :
  getNeighbours i j nrows ncols <> [] ->
  Rsum (map snd (weightedNeighbours nrows ncols y gamma i j)) = 1.
Proof. intros Hne. rewrite weightedNeighbours_snd. now apply getWeights_sum. Qed.

Lemma weightedNeighbours_empty (nrows ncols : Z) (y : list R) (gamma : R) (i j : Z) :
  getNeighbours i j nrows ncols = [] -> weightedNeighbours nrows ncols y gamma i j = [].
Proof. intros E. unfold weightedNeighbours. now rewrite E. Qed.

(** The matrix is computed from the luminance, the mask and [gamma] alone:
    the scribbles and their colour conversion do not enter it. *)
Theorem X_matrix_independent_of_scribbles
  (cvtColor cvtColor' : ColorConversionCode -> Mat (Pixel Z) -> Mat (Pixel Z))
  (Y : Mat R) (scribbles scribbles' : Mat (Pixel Z)) (mask : Mat Z) (gamma : R) :
  sysA (setupProblem cvtColor Y scribbles mask gamma)
  = sysA (setupProblem cvtColor' Y scribbles' mask gamma).
Proof.
  unfold setupProblem. cbv zeta. cbn [sysA]. f_equal.
  now rewrite !assemble_pixels, !pixels_coefficients.
Qed.

(** [bu] and [bv] have one entry per pixel, [A] is square of that size, and
    every triplet lies inside it. *)
Theorem X_system_bounds
  (cvtColor : ColorConversionCode -> Mat (Pixel Z) -> Mat (Pixel Z))
  (Y : Mat R) (scribbles : Mat (Pixel Z)) (mask : Mat Z) (gamma : R) :
  let sys := setupProblem cvtColor Y scribbles mask gamma in
  let nPixels := (rows Y * cols Y)%Z in
  length (sysBu sys) = Z.to_nat nPixels /\
  length (sysBv sys) = Z.to_nat nPixels /\
  nRows (sysA sys) = nPixels /\ nCols (sysA sys) = nPixels /\
  forall t, In t (entries (sysA sys)) ->
            (0 <= row t < nPixels)%Z /\ (0 <= col t < nPixels)%Z.
Proof.
  intros sys nPixels. unfold sys, setupProblem. cbv zeta.
  cbn [sysA sysBu sysBv nRows nCols entries].
  rewrite assemble_pixels.
  destruct (pixels_length (rows Y) (cols Y) (to1D Y) (scribblesU cvtColor scribbles)
              (scribblesV cvtColor scribbles) (to1D_bool mask) gamma
              (gridPixels (rows Y) (cols Y))
              (mkAssembly [] (repeat 0 (Z.to_nat (rows Y * cols Y)))
                          (repeat 0 (Z.to_nat (rows Y * cols Y))))) as [-> ->].
  cbn [bu bv]. rewrite repeat_length.
  split; [reflexivity|]. split; [reflexivity|]. split; [reflexivity|]. split; [reflexivity|].
  intros t Ht. rewrite pixels_coefficients in Ht. cbn [coefficients app] in Ht.
  apply in_flat_map in Ht. destruct Ht as [[i j] [Hp Ht]].
  apply In_gridPixels in Hp. cbn [fst snd] in Hp.
  pose proof (flatIndex_range _ _ _ _ Hp) as Hr.
  unfold pixelTriplets in Ht. cbn [fst snd] in Ht. destruct Ht as [<-|Ht].
  - cbn [row col]. fold nPixels in Hr. tauto.
  - apply In_rowTriplets in Ht. destruct Ht as [s [w (Hsw & _ & ->)]]. cbn [row col].
    unfold weightedNeighbours in Hsw. apply in_combine_l in Hsw.
    apply getNeighbours_inGrid in Hsw. destruct Hsw as [m [n [Hmn ->]]].
    pose proof (flatIndex_range _ _ _ _ Hmn). fold nPixels in Hr. tauto.
Qed.

Lemma X_system_bounds_witness :
  let sys := setupProblem (fun _ m => m) (mkMat 1 1 [[0]]) (mkMat 1 1 [[(0, 0, 0)%Z]])
                          (mkMat 1 1 [[0%Z]]) 2 in
  In (TD 0 0 1) (entries (sysA sys)) /\
  (0 <= row (TD 0 0 1) < 1 * 1)%Z /\ (0 <= col (TD 0 0 1) < 1 * 1)%Z.
Proof.
  intros sys.
  assert (Hin : In (TD 0 0 1) (entries (sysA sys))) by (left; reflexivity).
  split; [exact Hin|].
  exact (proj2 (proj2 (proj2 (proj2
           (X_system_bounds (fun _ m => m) (mkMat 1 1 [[0]]) (mkMat 1 1 [[(0, 0, 0)%Z]])
              (mkMat 1 1 [[0%Z]]) 2)))) (TD 0 0 1) Hin).
Defined.

(** For luminances in [0, 255] and [0 < gamma <= 75], the weights of a pixel
    that has neighbours are computed without a failed assertion or an
    underflow, and the coefficients of its row add up to the weight of its
    constrained neighbours. *)
Theorem X_row_sum
  (cvtColor : ColorConversionCode -> Mat (Pixel Z) -> Mat (Pixel Z))
  (Y : Mat R) (scribbles : Mat (Pixel Z)) (mask : Mat Z) (gamma : R) (i j : Z) :
  isLuminance (to1D Y) -> safeGamma gamma ->
  inGrid (rows Y) (cols Y) i j ->
  getNeighbours i j (rows Y) (cols Y) <> [] ->
  let sys := setupProblem cvtColor Y scribbles mask gamma in
  let r := flatIndex (cols Y) i j in
  weightsComputed (to1D Y) r (getNeighbours i j (rows Y) (cols Y)) gamma /\
  coeff (sysA sys) r r + offDiagonalSum (sysA sys) r
  = Rsum (map snd (constrainedPairs (to1D_bool mask)
                     (weightedNeighbours (rows Y) (cols Y) (to1D Y) gamma i j))).
Proof.
  intros Hlum Hgamma Hg Hne sys r.
  split; [apply weightsComputed_safe;
          [exact Hlum | now apply length_getNeighbours_le | exact Hgamma]|].
  change (sysA sys) with (assembledMatrix (rows Y) (cols Y) (to1D Y)
                            (scribblesU cvtColor scribbles) (scribblesV cvtColor scribbles)
                            (to1D_bool mask) gamma).
  unfold r. rewrite coeff_diagonal, offDiagonalSum_row, rowTriplets_sum by exact Hg.
  pose proof (pairs_partition (to1D_bool mask)
                (weightedNeighbours (rows Y) (cols Y) (to1D Y) gamma i j)) as Hp.
  rewrite (weightedNeighbours_total _ _ _ _ _ _ Hne) in Hp. lra.
Qed.

Lemma X_row_sum_witness :
  isLuminance (to1D (mkMat 1 2 [[0; 255]])) /\ safeGamma 2 /\
  inGrid 1 2 0 0 /\ getNeighbours 0 0 1 2 <> [] /\
  coeff (sysA (setupProblem (fun _ m => m) (mkMat 1 2 [[0; 255]])
                            (mkMat 1 2 [[(0, 0, 0); (0, 0, 0)]%Z]) (mkMat 1 2 [[0; 255]%Z]) 2))
        (flatIndex 2 0 0) (flatIndex 2 0 0)
  + offDiagonalSum (sysA (setupProblem (fun _ m => m) (mkMat 1 2 [[0; 255]])
                            (mkMat 1 2 [[(0, 0, 0); (0, 0, 0)]%Z]) (mkMat 1 2 [[0; 255]%Z]) 2))
                   (flatIndex 2 0 0)
  = Rsum (map snd (constrainedPairs (to1D_bool (mkMat 1 2 [[0; 255]%Z]))
                     (weightedNeighbours 1 2 (to1D (mkMat 1 2 [[0; 255]])) 2 0 0))).
Proof.
  assert (Hl : isLuminance (to1D (mkMat 1 2 [[0; 255]]))) by (repeat constructor; lra).
  assert (Hs : safeGamma 2) by (unfold safeGamma, gamma_max; lra).
  assert (Hg : inGrid 1 2 0 0) by (unfold inGrid; lia).
  assert (Hne : getNeighbours 0 0 1 2 <> []) by (cbv; discriminate).
  split; [exact Hl|]. split; [exact Hs|]. split; [exact Hg|]. split; [exact Hne|].
  exact (proj2 (X_row_sum (fun _ m => m) (mkMat 1 2 [[0; 255]])
                  (mkMat 1 2 [[(0, 0, 0); (0, 0, 0)]%Z]) (mkMat 1 2 [[0; 255]%Z]) 2 0 0
                  Hl Hs Hg Hne)).
Defined.

(** For luminances in [0, 255] and [0 < gamma <= 75], the weights of a
    pixel are computed without a failed assertion or an underflow, every
    off-diagonal coefficient of its row lies between -1 and 0, against a
    diagonal of 1, and a stored one is below 0. *)
Theorem X_diagonal_dominance
  (cvtColor : ColorConversionCode -> Mat (Pixel Z) -> Mat (Pixel Z))
  (Y : Mat R) (scribbles : Mat (Pixel Z)) (mask : Mat Z) (gamma : R) (i j : Z) :
  isLuminance (to1D Y) -> safeGamma gamma ->
  inGrid (rows Y) (cols Y) i j ->
  let sys := setupProblem cvtColor Y scribbles mask gamma in
  let r := flatIndex (cols Y) i j in
  weightsComputed (to1D Y) r (getNeighbours i j (rows Y) (cols Y)) gamma /\
  forall c, c <> r ->
            -1 <= coeff (sysA sys) r c <= 0 /\
            (stored (sysA sys) r c -> coeff (sysA sys) r c < 0).
Proof.
  intros Hlum Hgamma Hg sys r.
  split; [apply weightsComputed_safe;
          [exact Hlum | now apply length_getNeighbours_le | exact Hgamma]|].
  intros c Hc.
  change (sysA sys) with (assembledMatrix (rows Y) (cols Y) (to1D Y)
                            (scribblesU cvtColor scribbles) (scribblesV cvtColor scribbles)
                            (to1D_bool mask) gamma).
  destruct (in_dec Z.eq_dec c (getNeighbours i j (rows Y) (cols Y))) as [Hin|Hnin].
  - destruct (nth (Z.to_nat c) (to1D_bool mask) false) eqn:Ec.
    + assert (Hns : ~ stored (assembledMatrix (rows Y) (cols Y) (to1D Y)
                               (scribblesU cvtColor scribbles) (scribblesV cvtColor scribbles)
                               (to1D_bool mask) gamma) r c).
      { intros Hst. apply stored_row in Hst; [|exact Hg].
        destruct Hst as [->|[_ Hf]]; [now apply Hc | congruence]. }
      split; [rewrite coeff_not_stored by exact Hns; lra | tauto].
    + destruct (In_combine_weight (getNeighbours i j (rows Y) (cols Y))
                  (getWeights (to1D Y) r (getNeighbours i j (rows Y) (cols Y)) gamma) c)
        as [w Hw]; [apply length_getWeights | exact Hin |].
      unfold r. rewrite (coeff_neighbour _ _ _ _ _ _ _ i j c w Hg Hw Ec).
      apply in_combine_r in Hw.
      pose proof (getWeights_unit_interval (to1D Y) r
                    (getNeighbours i j (rows Y) (cols Y)) gamma) as Hu.
      rewrite Forall_forall in Hu. specialize (Hu w Hw). split; [lra|]. intros _. lra.
  - assert (Hns : ~ stored (assembledMatrix (rows Y) (cols Y) (to1D Y)
                             (scribblesU cvtColor scribbles) (scribblesV cvtColor scribbles)
                             (to1D_bool mask) gamma) r c).
    { intros Hst. apply stored_row in Hst; [|exact Hg].
      destruct Hst as [->|[Hin _]]; [now apply Hc | now apply Hnin]. }
    split; [rewrite coeff_not_stored by exact Hns; lra | tauto].
Qed.

Lemma X_diagonal_dominance_witness :
  isLuminance (to1D (mkMat 1 2 [[0; 255]])) /\ safeGamma 2 /\
  inGrid 1 2 0 0 /\ 1%Z <> flatIndex 2 0 0 /\
  -1 <= coeff
          (sysA (setupProblem (fun _ m => m) (mkMat 1 2 [[0; 255]])
                              (mkMat 1 2 [[(0, 0, 0); (0, 0, 0)]%Z]) (mkMat 1 2 [[0; 0]%Z]) 2))
          (flatIndex 2 0 0) 1 <= 0.
Proof.
  assert (Hl : isLuminance (to1D (mkMat 1 2 [[0; 255]]))) by (repeat constructor; lra).
  assert (Hs : safeGamma 2) by (unfold safeGamma, gamma_max; lra).
  assert (Hg : inGrid 1 2 0 0) by (unfold inGrid; lia).
  assert (Hc : 1%Z <> flatIndex 2 0 0) by (cbv; discriminate).
  split; [exact Hl|]. split; [exact Hs|]. split; [exact Hg|]. split; [exact Hc|].
  exact (proj1 (proj2 (X_diagonal_dominance (fun _ m => m) (mkMat 1 2 [[0; 255]])
                         (mkMat 1 2 [[(0, 0, 0); (0, 0, 0)]%Z]) (mkMat 1 2 [[0; 0]%Z]) 2 0 0
                         Hl Hs Hg) 1%Z Hc)).
Defined.

Lemma length_to1D {T : Type} (m : Mat T) :
  wellFormed m -> Z.of_nat (length (to1D m)) = (rows m * cols m)%Z.
Proof.
  intros Hwf. pose proof (wellFormed_uniform m Hwf) as Hu.
  rewrite (to1D_wellFormed m Hwf), (length_concat_uniform _ _ Hu).
  destruct Hwf as [Hrows Hcols]. destruct (ptr m) as [|row l] eqn:E.
  - cbn [length] in *. lia.
  - inversion Hcols; subst. cbn [length] in *. nia.
Qed.

Lemma wellFormed_mapMat {S T : Type} (f : S -> T) (m : Mat S) :
  wellFormed m -> wellFormed (mapMat f m).
Proof.
  intros [Hr Hc]. unfold wellFormed, mapMat. cbn [rows cols ptr]. split.
  - now rewrite length_map.
  - apply Forall_forall. intros row Hrow. apply in_map_iff in Hrow.
    destruct Hrow as [row0 [<- Hrow0]]. rewrite length_map.
    rewrite Forall_forall in Hc. now apply Hc.
Qed.

(** On a mask that is nowhere 0 every index of the grid is constrained. *)
Lemma to1D_bool_all_true (mask : Mat Z) (s : Z) :
  wellFormed mask ->
  (forall row, In row (ptr mask) -> forall x, In x row -> x <> 0%Z) ->
  (0 <= s < rows mask * cols mask)%Z ->
  nth (Z.to_nat s) (to1D_bool mask) false = true.
Proof.
  intros Hwf Hall Hs. unfold to1D_bool.
  pose proof (length_to1D _ (wellFormed_mapMat (fun b => negb (b =? 0)%Z) mask Hwf)) as Hlen.
  cbn [rows cols mapMat] in Hlen.
  assert (Hin : In (nth (Z.to_nat s) (to1D (mapMat (fun b => negb (b =? 0)%Z) mask)) false)
                   (to1D (mapMat (fun b => negb (b =? 0)%Z) mask))) by (apply nth_In; lia).
  apply In_to1D in Hin. destruct Hin as [row [Hrow Hb]].
  unfold mapMat in Hrow. cbn [ptr] in Hrow. apply in_map_iff in Hrow.
  destruct Hrow as [row0 [<- Hrow0]]. apply in_map_iff in Hb.
  destruct Hb as [x [E Hx]]. rewrite <- E.
  apply negb_true_iff, Z.eqb_neq. now apply (Hall row0 Hrow0).
Qed.

(** When every pixel is constrained, a row of [A] stores its diagonal entry
    alone, and [bu], [bv] hold the weighted sums of the chrominances over all
    the neighbours of the pixel. *)
Theorem X_all_constrained
  (cvtColor : ColorConversionCode -> Mat (Pixel Z) -> Mat (Pixel Z))
  (Y : Mat R) (scribbles : Mat (Pixel Z)) (mask : Mat Z) (gamma : R) (i j : Z) :
  wellFormed mask -> sameSize mask Y ->
  (forall row, In row (ptr mask) -> forall x, In x row -> x <> 0%Z) ->
  inGrid (rows Y) (cols Y) i j ->
  let sys := setupProblem cvtColor Y scribbles mask gamma in
  let r := flatIndex (cols Y) i j in
  let pairs := weightedNeighbours (rows Y) (cols Y) (to1D Y) gamma i j in
  (forall c, stored (sysA sys) r c <-> c = r) /\
  vget (sysBu sys) r
  = Rsum (map (fun sw => snd sw * vget (scribblesU cvtColor scribbles) (fst sw)) pairs) /\
  vget (sysBv sys) r
  = Rsum (map (fun sw => snd sw * vget (scribblesV cvtColor scribbles) (fst sw)) pairs).
Proof.
  intros Hwf [Hsr Hsc] Hall Hg sys r pairs.
  assert (Hc : forall s, In s (getNeighbours i j (rows Y) (cols Y)) ->
                         nth (Z.to_nat s) (to1D_bool mask) false = true).
  { intros s Hs. apply to1D_bool_all_true; [exact Hwf | exact Hall |].
    apply getNeighbours_inGrid in Hs. destruct Hs as [m [n [Hmn ->]]].
    rewrite Hsr, Hsc. now apply flatIndex_range. }
  assert (Hf : filter (fun sw => nth (Z.to_nat (fst sw)) (to1D_bool mask) false) pairs = pairs).
  { apply filter_all. intros [s w] Hin. cbn [fst]. apply Hc.
    unfold pairs, weightedNeighbours in Hin. now apply in_combine_l in Hin. }
  change (sysA sys) with (assembledMatrix (rows Y) (cols Y) (to1D Y)
                            (scribblesU cvtColor scribbles) (scribblesV cvtColor scribbles)
                            (to1D_bool mask) gamma).
  split.
  - intros c. unfold r. rewrite stored_row by exact Hg. split; [|now left].
    intros [E|[Hin Hfalse]]; [exact E|]. rewrite (Hc c Hin) in Hfalse. discriminate.
  - destruct (assemble_rhs (rows Y) (cols Y) (to1D Y) (scribblesU cvtColor scribbles)
                (scribblesV cvtColor scribbles) (to1D_bool mask) gamma i j Hg) as [Eu Ev].
    unfold sys, setupProblem. cbv zeta. cbn [sysBu sysBv]. fold r in Eu, Ev.
    rewrite Eu, Ev, !rhsSum_sum.
    change (combine (getNeighbours i j (rows Y) (cols Y))
              (getWeights (to1D Y) r (getNeighbours i j (rows Y) (cols Y)) gamma)) with pairs.
    rewrite Hf. split; ring.
Qed.

Lemma X_all_constrained_witness :
  let mask := mkMat 1 2 [[255; 255]%Z] in
  let Y := mkMat 1 2 [[0; 0]] in
  wellFormed mask /\ sameSize mask Y /\
  (forall row, In row (ptr mask) -> forall x, In x row -> x <> 0%Z) /\
  inGrid 1 2 0 0 /\
  (forall c, stored (sysA (setupProblem (fun _ m => m) Y
                             (mkMat 1 2 [[(0, 0, 0); (0, 0, 0)]%Z]) mask 2))
                    (flatIndex 2 0 0) c <-> c = flatIndex 2 0 0).
Proof.
  intros mask Y.
  assert (Hwf : wellFormed mask) by (split; [reflexivity | repeat constructor]).
  assert (Hs : sameSize mask Y) by (split; reflexivity).
  assert (Hall : forall row, In row (ptr mask) -> forall x, In x row -> x <> 0%Z).
  { intros row [<-|[]] x [<-|[<-|[]]]; discriminate. }
  assert (Hg : inGrid 1 2 0 0) by (unfold inGrid; lia).
  split; [exact Hwf|]. split; [exact Hs|]. split; [exact Hall|]. split; [exact Hg|].
  exact (proj1 (X_all_constrained (fun _ m => m) Y (mkMat 1 2 [[(0, 0, 0); (0, 0, 0)]%Z])
                  mask 2 0 0 Hwf Hs Hall Hg)).
Defined.

(** For luminances in [0, 255] and [0 < gamma <= 75], the weights of a
    pixel none of whose neighbours is constrained are computed without a
    failed assertion or an underflow, the pixel gets 0 in [bu] and [bv], and
    the off-diagonal coefficients of its row sum to -1. *)
Theorem X_no_constrained_neighbour
  (cvtColor : ColorConversionCode -> Mat (Pixel Z) -> Mat (Pixel Z))
  (Y : Mat R) (scribbles : Mat (Pixel Z)) (mask : Mat Z) (gamma : R) (i j : Z) :
  isLuminance (to1D Y) -> safeGamma gamma ->
  inGrid (rows Y) (cols Y) i j ->
  getNeighbours i j (rows Y) (cols Y) <> [] ->
  (forall s, In s (getNeighbours i j (rows Y) (cols Y)) ->
             nth (Z.to_nat s) (to1D_bool mask) false = false) ->
  let sys := setupProblem cvtColor Y scribbles mask gamma in
  let r := flatIndex (cols Y) i j in
  weightsComputed (to1D Y) r (getNeighbours i j (rows Y) (cols Y)) gamma /\
  vget (sysBu sys) r = 0 /\ vget (sysBv sys) r = 0 /\ offDiagonalSum (sysA sys) r = -1.
Proof.
  intros Hlum Hgamma Hg Hne Hfree sys r.
  split; [apply weightsComputed_safe;
          [exact Hlum | now apply length_getNeighbours_le | exact Hgamma]|].
  set (pairs := weightedNeighbours (rows Y) (cols Y) (to1D Y) gamma i j).
  assert (Hc : constrainedPairs (to1D_bool mask) pairs = []).
  { apply filter_none. intros [s w] Hin. cbn [fst]. apply Hfree.
    unfold pairs, weightedNeighbours in Hin. now apply in_combine_l in Hin. }
  destruct (assemble_rhs (rows Y) (cols Y) (to1D Y) (scribblesU cvtColor scribbles)
              (scribblesV cvtColor scribbles) (to1D_bool mask) gamma i j Hg) as [Eu Ev].
  fold r in Eu, Ev. rewrite !rhsSum_sum in Eu, Ev.
  change (combine (getNeighbours i j (rows Y) (cols Y))
            (getWeights (to1D Y) r (getNeighbours i j (rows Y) (cols Y)) gamma))
    with pairs in Eu, Ev.
  fold (constrainedPairs (to1D_bool mask) pairs) in Eu, Ev. rewrite Hc in Eu, Ev.
  split; [|split].
  - unfold sys, setupProblem. cbv zeta. cbn [sysBu]. fold r. rewrite Eu. simpl. ring.
  - unfold sys, setupProblem. cbv zeta. cbn [sysBv]. fold r. rewrite Ev. simpl. ring.
  - change (sysA sys) with (assembledMatrix (rows Y) (cols Y) (to1D Y)
                              (scribblesU cvtColor scribbles) (scribblesV cvtColor scribbles)
                              (to1D_bool mask) gamma).
    unfold r. rewrite offDiagonalSum_row, rowTriplets_sum by exact Hg. fold pairs.
    pose proof (pairs_partition (to1D_bool mask) pairs) as Hp.
    unfold pairs in Hp at 1. rewrite (weightedNeighbours_total _ _ _ _ _ _ Hne) in Hp.
    rewrite Hc in Hp. simpl in Hp. lra.
Qed.

Lemma X_no_constrained_neighbour_witness :
  let Y := mkMat 1 2 [[0; 255]] in
  let mask := mkMat 1 2 [[255; 0]%Z] in
  isLuminance (to1D Y) /\ safeGamma 2 /\
  inGrid 1 2 0 0 /\ getNeighbours 0 0 1 2 <> [] /\
  (forall s, In s (getNeighbours 0 0 1 2) -> nth (Z.to_nat s) (to1D_bool mask) false = false) /\
  vget (sysBu (setupProblem (fun _ m => m) Y (mkMat 1 2 [[(0, 0, 0); (0, 0, 0)]%Z]) mask 2))
       (flatIndex 2 0 0) = 0.
Proof.
  intros Y mask.
  assert (Hl : isLuminance (to1D Y)) by (repeat constructor; lra).
  assert (Hs : safeGamma 2) by (unfold safeGamma, gamma_max; lra).
  assert (Hg : inGrid 1 2 0 0) by (unfold inGrid; lia).
  assert (Hne : getNeighbours 0 0 1 2 <> []) by (cbv; discriminate).
  assert (Hf : forall s, In s (getNeighbours 0 0 1 2) ->
                         nth (Z.to_nat s) (to1D_bool mask) false = false).
  { intros s Hs'. change (getNeighbours 0 0 1 2) with [1%Z] in Hs'.
    destruct Hs' as [<-|[]]. reflexivity. }
  split; [exact Hl|]. split; [exact Hs|]. split; [exact Hg|]. split; [exact Hne|].
  split; [exact Hf|].
  exact (proj1 (proj2 (X_no_constrained_neighbour (fun _ m => m) Y
                         (mkMat 1 2 [[(0, 0, 0); (0, 0, 0)]%Z]) mask 2 0 0 Hl Hs Hg Hne Hf))).
Defined.

End SystemProperties.
